(** * Blockly.BlockSvg (horizontal Scratch renderer): geometry, footprint,
      moves, drag controller and deferred warnings.

    Shallow embedding of [src/core/block_horizontal_scratch.js].  Pixel
    coordinates are integers ([Z]); the grid-snap arithmetic, which divides,
    is carried out on exact rationals ([Q]) where these compute what the
    doubles of the code compute; the zoom of a workspace, which is not a
    whole number, is a double ([float]).  Effects on collaborators that
    live outside the file (the DOM, audio, the connection objects) are
    recorded as explicit state or as a trace of calls. *)

From Stdlib Require Import ZArith QArith Qround List Lia.
From Stdlib Require PrimFloat Uint63.
From stdpp Require Import base option list gmap strings.
Import ListNotations.

Local Open Scope Z_scope.

(** ** Geometry model: [renderCompute_] and the four [renderDraw*_] passes *)

Module Geometry.

(** UI constants for rendering blocks. *)
Definition SEP_SPACE_X : Z := 8.
Definition SEP_SPACE_Y : Z := 8.
Definition NOTCH_HEIGHT : Z := 32.
Definition CORNER_RADIUS : Z := 4.
Definition HAT_CORNER_RADIUS : Z := 16.

(** One SVG path command, as pushed on [steps].  Upper case letters of the
    path grammar take absolute coordinates, lower case ones relative
    coordinates.  An arc keeps its radii, rotation and flags although only
    its end point moves the pen. *)
Inductive PathCmd : Type :=
| SvgMoveRel (dx dy : Z)                                          (* m *)
| SvgArcAbs (rx ry rot : Z) (large sweep : bool) (x y : Z)        (* A *)
| SvgArcRel (rx ry rot : Z) (large sweep : bool) (dx dy : Z)      (* a *)
| SvgVertAbs (y : Z)                                              (* V *)
| SvgVertRel (dy : Z)                                             (* v *)
| SvgHorizAbs (x : Z)                                             (* H *)
| SvgHorizRel (dx : Z)                                            (* h *)
| SvgLineRel (pts : list (Z * Z))                                 (* l *)
| SvgClose.                                                       (* z *)

(** 'l 8,8 0,16 -8,8' *)
Definition NOTCH_PATH_DOWN : PathCmd := SvgLineRel [(8, 8); (0, 16); (-8, 8)].
(** 'l 8,-8 0,-16 -8,-8' *)
Definition NOTCH_PATH_UP : PathCmd := SvgLineRel [(8, -8); (0, -16); (-8, -8)].
(** 'm 4,0' *)
Definition TOP_LEFT_CORNER_START : PathCmd := SvgMoveRel CORNER_RADIUS 0.
(** 'A 4,4 0 0,0 0,4' *)
Definition TOP_LEFT_CORNER : PathCmd :=
  SvgArcAbs CORNER_RADIUS CORNER_RADIUS 0 false false 0 CORNER_RADIUS.
(** 'm 16,0' *)
Definition HAT_TOP_LEFT_CORNER_START : PathCmd := SvgMoveRel HAT_CORNER_RADIUS 0.
(** 'A 16,16 0 0,0 0,16' *)
Definition HAT_TOP_LEFT_CORNER : PathCmd :=
  SvgArcAbs HAT_CORNER_RADIUS HAT_CORNER_RADIUS 0 false false 0 HAT_CORNER_RADIUS.

(** Fields and inputs, as far as the geometry pass inspects them. *)
Inductive FieldClass : Type :=
| FieldImage | FieldLabel | FieldTextInput | FieldDropdown.

Record Size : Type := mkSize { size_width : Z; size_height : Z }.

Record Field : Type := mkField {
  field_name : string;
  field_class : FieldClass;
  getSize : Size
}.

(** [field instanceof Blockly.FieldImage] *)
Definition instanceof_FieldImage (f : Field) : bool :=
  match field_class f with FieldImage => true | _ => false end.

Inductive InputType : Type := INPUT_VALUE | NEXT_STATEMENT | DUMMY_INPUT.

Record Input : Type := mkInput {
  input_type : InputType;
  fieldRow : list Field
}.

Definition is_NEXT_STATEMENT (t : InputType) : bool :=
  match t with NEXT_STATEMENT => true | _ => false end.

(** JavaScript truthiness of a reference that is an object or null. *)
Definition truthy {A : Type} (o : option A) : bool :=
  match o with Some _ => true | None => false end.

(** A connection is placed by [moveTo]. *)
Record Connection : Type := mkConnection { x_ : Z; y_ : Z }.

Definition moveTo (x y : Z) (c : Connection) : Connection :=
  {| x_ := x; y_ := y |}.

Record Block : Type := mkBlock {
  previousConnection : option Connection;
  nextConnection : option Connection;
  inputList : list Input;
  height : Z;
  rendered : bool
}.

Record Metrics : Type := mkMetrics {
  hasStatement : bool;
  icon : option Field;
  m_width : Z;
  m_height : Z
}.

(** The inner loop of [renderCompute_]: every image field overwrites
    [metrics.icon]. *)
Definition findIcon (ic : option Field) (row : list Field) : option Field :=
  fold_left (fun ic f => if instanceof_FieldImage f then Some f else ic) row ic.

(** The outer loop of [renderCompute_] over [inputList]. *)
Definition scanInputs (inputs : list Input) : bool * option Field :=
  fold_left
    (fun (acc : bool * option Field) input =>
       (if is_NEXT_STATEMENT (input_type input) then true else fst acc,
        findIcon (snd acc) (fieldRow input)))
    inputs (false, None).

Definition renderCompute_ (b : Block) : Metrics :=
  let '(stmt, ic) := scanInputs (inputList b) in
  let iconSize := match ic with Some f => getSize f | None => mkSize 0 0 end in
  {| hasStatement := stmt;
     icon := ic;
     m_width := SEP_SPACE_X * 2 + size_width iconSize;
     m_height := Z.max (SEP_SPACE_Y * 2 + size_height iconSize)
                       (NOTCH_HEIGHT + 16 + CORNER_RADIUS * 2) |}.

(** What the draw passes thread along: the block being updated and the
    [steps] array. *)
Record Draw : Type := mkDraw { blk : Block; steps : list PathCmd }.

Definition push (cs : list PathCmd) (d : Draw) : Draw :=
  {| blk := blk d; steps := steps d ++ cs |}.

Definition set_height (h : Z) (b : Block) : Block :=
  {| previousConnection := previousConnection b;
     nextConnection := nextConnection b;
     inputList := inputList b; height := h; rendered := rendered b |}.

Definition set_previousConnection (c : option Connection) (b : Block) : Block :=
  {| previousConnection := c; nextConnection := nextConnection b;
     inputList := inputList b; height := height b; rendered := rendered b |}.

Definition set_nextConnection (c : option Connection) (b : Block) : Block :=
  {| previousConnection := previousConnection b; nextConnection := c;
     inputList := inputList b; height := height b; rendered := rendered b |}.

Definition set_rendered (r : bool) (b : Block) : Block :=
  {| previousConnection := previousConnection b;
     nextConnection := nextConnection b;
     inputList := inputList b; height := height b; rendered := r |}.

Definition on_blk (f : Block -> Block) (d : Draw) : Draw :=
  {| blk := f (blk d); steps := steps d |}.

Definition arc_rel (r : Z) (sweep : bool) (dx dy : Z) : PathCmd :=
  SvgArcRel r r 0 false sweep dx dy.

Definition renderDrawLeft_ (connectionsXY : Z * Z) (metrics : Metrics)
    (d : Draw) : Draw :=
  let d :=
    match previousConnection (blk d) with
    | Some prev =>
        let d := push [TOP_LEFT_CORNER_START] d in
        let d := push [TOP_LEFT_CORNER] d in
        let cursorY := m_height metrics - CORNER_RADIUS - 8 - NOTCH_HEIGHT in
        let d := push [SvgVertAbs cursorY] d in
        let d := push [NOTCH_PATH_DOWN] d in
        let connectionX := fst connectionsXY in
        let connectionY :=
          snd connectionsXY + m_height metrics - CORNER_RADIUS * 2 in
        let d :=
          on_blk (set_previousConnection
                    (Some (moveTo connectionX connectionY prev))) d in
        push [SvgVertAbs (m_height metrics - CORNER_RADIUS)] d
    | None =>
        let d := push [HAT_TOP_LEFT_CORNER_START] d in
        let d := push [HAT_TOP_LEFT_CORNER] d in
        push [SvgVertAbs (m_height metrics - HAT_CORNER_RADIUS)] d
    end in
  on_blk (set_height (m_height metrics)) d.

Definition renderDrawBottom_ (connectionsXY : Z * Z) (metrics : Metrics)
    (d : Draw) : Draw :=
  let d :=
    if truthy (previousConnection (blk d))
    then push [arc_rel CORNER_RADIUS false CORNER_RADIUS CORNER_RADIUS] d
    else push [arc_rel HAT_CORNER_RADIUS false
                 HAT_CORNER_RADIUS HAT_CORNER_RADIUS] d in
  let d :=
    if hasStatement metrics then
      let d := push [SvgHorizRel 8] d in
      let d := push [arc_rel CORNER_RADIUS false
                       CORNER_RADIUS (- CORNER_RADIUS)] d in
      let d := push [SvgVertRel (-8)] d in
      let d := push [NOTCH_PATH_UP] d in
      let d := push [SvgVertRel
                       (-50 + (CORNER_RADIUS * 2) + NOTCH_HEIGHT + 8)] d in
      let d := push [arc_rel CORNER_RADIUS true
                       CORNER_RADIUS (- CORNER_RADIUS)] d in
      let d := push [SvgHorizRel (20 - (CORNER_RADIUS * 2))] d in
      let d := push [arc_rel CORNER_RADIUS true
                       CORNER_RADIUS CORNER_RADIUS] d in
      let d := push [SvgVertRel
                       (50 - (CORNER_RADIUS * 2) - NOTCH_HEIGHT - 8)] d in
      let d := push [NOTCH_PATH_DOWN] d in
      let d := push [SvgVertRel 8] d in
      push [arc_rel CORNER_RADIUS false CORNER_RADIUS CORNER_RADIUS] d
    else d in
  if truthy (nextConnection (blk d))
  then push [SvgHorizAbs (m_width metrics - CORNER_RADIUS)] d
  else push [SvgHorizAbs (m_width metrics - HAT_CORNER_RADIUS)] d.

Definition renderDrawRight_ (connectionsXY : Z * Z) (metrics : Metrics)
    (d : Draw) : Draw :=
  let d :=
    if truthy (nextConnection (blk d))
    then push [arc_rel CORNER_RADIUS false CORNER_RADIUS (- CORNER_RADIUS)] d
    else push [arc_rel HAT_CORNER_RADIUS false
                 HAT_CORNER_RADIUS (- HAT_CORNER_RADIUS)] d in
  let d := push [SvgVertRel (-8)] d in
  match nextConnection (blk d) with
  | Some next =>
      let d := push [NOTCH_PATH_UP] d in
      (* Both arms of the RTL test compute the same abscissa.  Tightening
         the attached block moves that block, not this path. *)
      let connectionX := fst connectionsXY + m_width metrics in
      let connectionY :=
        snd connectionsXY + m_height metrics - CORNER_RADIUS * 2 in
      let d :=
        on_blk (set_nextConnection
                  (Some (moveTo connectionX connectionY next))) d in
      let d := on_blk (fun b => set_height (height b + 4) b) d in
      push [SvgVertAbs CORNER_RADIUS] d
  | None => push [SvgVertAbs HAT_CORNER_RADIUS] d
  end.

Definition renderDrawTop_ (connectionsXY : Z * Z) (metrics : Metrics)
    (d : Draw) : Draw :=
  let d :=
    if truthy (nextConnection (blk d))
    then push [arc_rel CORNER_RADIUS false
                 (- CORNER_RADIUS) (- CORNER_RADIUS)] d
    else push [arc_rel HAT_CORNER_RADIUS false
                 (- HAT_CORNER_RADIUS) (- HAT_CORNER_RADIUS)] d in
  push [SvgClose] d.

(** The outcome of [renderDraw_]: the updated block, the path written to
    the [d] attribute, and every field whose svg root received a
    [transform], with the translation it was given. *)
Record Drawn : Type := mkDrawn {
  drawn_block : Block;
  pathString : list PathCmd;
  positioned : list (Field * (Z * Z))
}.

Definition renderDraw_ (connectionsXY : Z * Z) (metrics : Metrics)
    (b : Block) : Drawn :=
  let d := {| blk := b; steps := [] |} in
  let d := renderDrawLeft_ connectionsXY metrics d in
  let d := renderDrawBottom_ connectionsXY metrics d in
  let d := renderDrawRight_ connectionsXY metrics d in
  let d := renderDrawTop_ connectionsXY metrics d in
  {| drawn_block := blk d;
     pathString := steps d;
     positioned :=
       match icon metrics with
       | Some ic =>
           [(ic, (m_width metrics - size_width (getSize ic) - SEP_SPACE_X / 2,
                  SEP_SPACE_Y))]
       | None => []
       end |}.

(** [render]: the block is flagged rendered, measured and drawn.  Bubbling
    to the parent re-runs the same function on another block and does not
    alter this block's path. *)
Definition render (connectionsXY : Z * Z) (b : Block) : Drawn :=
  let b := set_rendered true b in
  let metrics := renderCompute_ b in
  renderDraw_ connectionsXY metrics b.

(** *** Reading a path: the pen of the SVG path grammar *)

Record Pen : Type := mkPen {
  cur : Z * Z;            (* current point *)
  sub : Z * Z;            (* initial point of the current subpath *)
  movetos : nat;          (* subpaths opened so far *)
  closes : nat            (* subpaths closed so far *)
}.

Definition pen0 : Pen := {| cur := (0, 0); sub := (0, 0); movetos := 0; closes := 0 |}.

Definition go (p : Z * Z) (pen : Pen) : Pen :=
  {| cur := p; sub := sub pen; movetos := movetos pen; closes := closes pen |}.

Definition shift (p : Z * Z) (d : Z * Z) : Z * Z := (fst p + fst d, snd p + snd d).

Definition exec (pen : Pen) (c : PathCmd) : Pen :=
  match c with
  | SvgMoveRel dx dy =>
      let p := shift (cur pen) (dx, dy) in
      {| cur := p; sub := p; movetos := S (movetos pen); closes := closes pen |}
  | SvgArcAbs _ _ _ _ _ x y => go (x, y) pen
  | SvgArcRel _ _ _ _ _ dx dy => go (shift (cur pen) (dx, dy)) pen
  | SvgVertAbs y => go (fst (cur pen), y) pen
  | SvgVertRel dy => go (shift (cur pen) (0, dy)) pen
  | SvgHorizAbs x => go (x, snd (cur pen)) pen
  | SvgHorizRel dx => go (shift (cur pen) (dx, 0)) pen
  | SvgLineRel pts => go (fold_left shift pts (cur pen)) pen
  | SvgClose =>
      {| cur := sub pen; sub := sub pen; movetos := movetos pen;
         closes := S (closes pen) |}
  end.

Definition trace_path (cs : list PathCmd) : Pen := fold_left exec cs pen0.

(** The point where the contour starts: where the leading moveto lands. *)
Definition start_point (cs : list PathCmd) : Z * Z :=
  match cs with
  | c :: _ => cur (exec pen0 c)
  | [] => (0, 0)
  end.

(** The point reached once every command has been drawn. *)
Definition end_point (cs : list PathCmd) : Z * Z := cur (trace_path cs).

(** A command that draws: neither a moveto nor a closepath. *)
Definition drawing (c : PathCmd) : bool :=
  match c with
  | SvgMoveRel _ _ | SvgClose => false
  | _ => true
  end.

Definition is_close (c : PathCmd) : bool :=
  match c with SvgClose => true | _ => false end.

(** One subpath only: a leading moveto, drawing commands, a final
    closepath. *)
Definition single_subpath (cs : list PathCmd) : bool :=
  match cs with
  | SvgMoveRel _ _ :: rest =>
      forallb drawing (removelast rest) &&
      match last rest with Some c => is_close c | None => false end
  | _ => false
  end.

(** The displacement a command applies to the pen, and their sum. *)
Definition displacement (pen : Pen) (c : PathCmd) : Z * Z :=
  (fst (cur (exec pen c)) - fst (cur pen), snd (cur (exec pen c)) - snd (cur pen)).

Fixpoint cumulative_displacement (pen : Pen) (cs : list PathCmd) : Z * Z :=
  match cs with
  | [] => (0, 0)
  | c :: cs' => shift (displacement pen c) (cumulative_displacement (exec pen c) cs')
  end.

(** The image fields of a block in input/field order. *)
Definition image_fields (b : Block) : list Field :=
  filter (fun f => instanceof_FieldImage f = true)
         (concat (map fieldRow (inputList b))).

(** A block whose single input row declares two image fields. *)
Definition flag_icon : Field := mkField "flag" FieldImage (mkSize 40 40).
Definition arrow_icon : Field := mkField "arrow" FieldImage (mkSize 24 24).
Definition two_icons : Block :=
  mkBlock None None [mkInput DUMMY_INPUT [flag_icon; arrow_icon]] 0 false.

(** *** Properties of the outline *)

Lemma trace_path_app (cs1 cs2 : list PathCmd) :
  trace_path (cs1 ++ cs2) = fold_left exec cs2 (trace_path cs1).
Proof. unfold trace_path. apply fold_left_app. Qed.

(** Summing the displacements is the same as following the pen. *)
Lemma cumulative_displacement_spec (cs : list PathCmd) (pen : Pen) :
  shift (cur pen) (cumulative_displacement pen cs) = cur (fold_left exec cs pen).
Proof.
  revert pen. induction cs as [|c cs IH]; intros pen; simpl.
  - unfold shift. destruct (cur pen); simpl. f_equal; lia.
  - rewrite <- IH. unfold shift, displacement; simpl.
    destruct (cur pen), (cur (exec pen c)); simpl. f_equal; lia.
Qed.

Lemma cumulative_displacement_zero (c : PathCmd) (cs : list PathCmd) :
  end_point (c :: cs) = start_point (c :: cs) ->
  cumulative_displacement (exec pen0 c) cs = (0, 0).
Proof.
  unfold end_point, start_point, trace_path. simpl. intros E.
  pose proof (cumulative_displacement_spec cs (exec pen0 c)) as S.
  rewrite E in S. unfold shift in S.
  destruct (cumulative_displacement (exec pen0 c) cs) as [a b].
  destruct (cur (exec pen0 c)) as [x y]. simpl in S.
  inversion S. f_equal; lia.
Qed.

Ltac outline_cases b m :=
  destruct b as [[?|] [?|] ? ? ?]; destruct m as [[|] ? ? ?];
  cbv [pathString renderDraw_ renderDrawLeft_ renderDrawBottom_
       renderDrawRight_ renderDrawTop_ push on_blk blk steps truthy
       previousConnection nextConnection hasStatement set_height
       set_previousConnection set_nextConnection app m_height m_width].

(** Whatever the metrics, the four passes emit one subpath whose pen comes
    back to where the moveto put it. *)
Lemma renderDraw_closed (xy : Z * Z) (m : Metrics) (b : Block) :
  let cs := pathString (renderDraw_ xy m b) in
  single_subpath cs = true /\ end_point cs = start_point cs.
Proof.
  outline_cases b m; split; reflexivity.
Qed.

(** Before the closepath the pen is on the top edge, one corner radius
    short of the right side; the contour starts on the same edge, one
    corner radius from the left side.  The closing segment is therefore
    the flat top of the block. *)
Lemma renderDraw_top_edge (xy : Z * Z) (m : Metrics) (b : Block) :
  let cs := pathString (renderDraw_ xy m b) in
  end_point (removelast cs) =
    (m_width m - (if truthy (nextConnection b) then CORNER_RADIUS
                  else HAT_CORNER_RADIUS), 0) /\
  start_point cs =
    (if truthy (previousConnection b) then CORNER_RADIUS
     else HAT_CORNER_RADIUS, 0).
Proof.
  outline_cases b m; (split; [|reflexivity]);
    cbv [end_point trace_path removelast fold_left exec cur go shift fst snd
         pen0 arc_rel NOTCH_PATH_UP NOTCH_PATH_DOWN TOP_LEFT_CORNER
         TOP_LEFT_CORNER_START HAT_TOP_LEFT_CORNER HAT_TOP_LEFT_CORNER_START
         CORNER_RADIUS HAT_CORNER_RADIUS NOTCH_HEIGHT];
    f_equal; lia.
Qed.

(** The bottom recess of a statement input is a detour of fixed size: it
    advances the pen by 36 units along the bottom edge and nothing else. *)
Lemma statement_recess_detour (xy : Z * Z) (ic : option Field) (w h : Z)
    (b : Block) :
  let plain := renderDrawBottom_ xy (mkMetrics false ic w h) (mkDraw b []) in
  let recess := renderDrawBottom_ xy (mkMetrics true ic w h) (mkDraw b []) in
  forall pen,
    cur (fold_left exec (removelast (steps recess)) pen) =
    shift (cur (fold_left exec (removelast (steps plain)) pen)) (36, 0).
Proof.
  intros plain recess pen. subst plain recess.
  destruct b as [[?|] [?|] ? ? ?]; destruct pen as [[x y] ? ? ?];
    cbv [renderDrawBottom_ push blk steps truthy previousConnection
         nextConnection hasStatement app m_width removelast fold_left exec
         cur go shift fst snd arc_rel NOTCH_PATH_UP NOTCH_PATH_DOWN
         CORNER_RADIUS HAT_CORNER_RADIUS NOTCH_HEIGHT];
    f_equal; lia.
Qed.

(** The metrics depend on the inputs of the block alone; the flag that
    [render] sets first does not change them. *)
Lemma renderCompute_set_rendered (v : bool) (b : Block) :
  renderCompute_ (set_rendered v b) = renderCompute_ b.
Proof. destruct b; reflexivity. Qed.

(** C1.  For every block, the outline that [render] assembles (left,
    bottom, right and top pass, in that order) is a single closed contour:
    one moveto, drawing commands, one closepath.  The moveto puts the pen
    on the top edge, one corner radius from the left side; the drawing
    commands take it round the block and leave it on the top edge again,
    one corner radius short of the right side, so that their displacements
    sum to a purely horizontal one; the closepath is the flat top that is
    left, and with it the displacements of the commands that follow the
    moveto sum to zero: the pen is back on the starting point.  This holds
    for each combination of previous connection or hat corner, next
    connection or none, statement recess or none. *)
Theorem render_outline_closed (xy : Z * Z) (b : Block) :
  let cs := pathString (render xy b) in
  let m := renderCompute_ b in
  let left :=
    if truthy (previousConnection b) then CORNER_RADIUS
    else HAT_CORNER_RADIUS in
  let right :=
    if truthy (nextConnection b) then CORNER_RADIUS else HAT_CORNER_RADIUS in
  single_subpath cs = true /\
  start_point cs = (left, 0) /\
  end_point (removelast cs) = (m_width m - right, 0) /\
  cumulative_displacement (exec pen0 (hd SvgClose cs)) (removelast (tl cs))
    = (m_width m - right - left, 0) /\
  end_point cs = start_point cs /\
  cumulative_displacement (exec pen0 (hd SvgClose cs)) (tl cs) = (0, 0).
Proof.
  intros cs m left right. subst cs m left right. unfold render.
  rewrite renderCompute_set_rendered.
  replace (previousConnection b) with (previousConnection (set_rendered true b))
    by (destruct b; reflexivity).
  replace (nextConnection b) with (nextConnection (set_rendered true b))
    by (destruct b; reflexivity).
  generalize (renderCompute_ b) as m. generalize (set_rendered true b) as b'.
  clear b. intros b m.
  destruct (renderDraw_closed xy m b) as [S E].
  assert (start_point (pathString (renderDraw_ xy m b)) =
            (if truthy (previousConnection b) then CORNER_RADIUS
             else HAT_CORNER_RADIUS, 0) /\
          end_point (removelast (pathString (renderDraw_ xy m b))) =
            (m_width m - (if truthy (nextConnection b) then CORNER_RADIUS
                          else HAT_CORNER_RADIUS), 0)) as [Hs He].
  { outline_cases b m; (split; [reflexivity|]);
      cbv [end_point trace_path removelast fold_left exec cur go shift fst snd
           pen0 arc_rel NOTCH_PATH_UP NOTCH_PATH_DOWN TOP_LEFT_CORNER
           TOP_LEFT_CORNER_START HAT_TOP_LEFT_CORNER HAT_TOP_LEFT_CORNER_START
           CORNER_RADIUS HAT_CORNER_RADIUS NOTCH_HEIGHT];
      f_equal; lia. }
  split; [exact S|]. split; [exact Hs|]. split; [exact He|].
  destruct (pathString (renderDraw_ xy m b)) as [|c cs] eqn:P;
    [discriminate S|].
  destruct cs as [|c' cs']; [destruct c; discriminate S|].
  set (cs := c' :: cs') in *.
  cbn [hd tl]. split; [|split; [exact E|]].
  - pose proof (cumulative_displacement_spec (removelast cs) (exec pen0 c)) as D.
    assert (cur (fold_left exec (removelast cs) (exec pen0 c)) =
            end_point (removelast (c :: cs))) as Hcur.
    { unfold end_point, trace_path.
      change (removelast (c :: cs)) with (c :: removelast cs).
      reflexivity. }
    rewrite Hcur, He in D.
    change (cur (exec pen0 c)) with (start_point (c :: cs)) in D.
    rewrite Hs in D. unfold shift in D.
    destruct (cumulative_displacement (exec pen0 c) (removelast cs)) as [dx dy].
    cbn [fst snd] in D. injection D as Dx Dy. f_equal; lia.
  - apply cumulative_displacement_zero. exact E.
Qed.

(** *** The icon of a block *)

Lemma findIcon_last (row : list Field) (ic : option Field) :
  findIcon ic row =
  match last (filter (fun f => instanceof_FieldImage f = true) row) with
  | Some f => Some f
  | None => ic
  end.
Proof.
  revert ic. induction row as [|f row IH] using rev_ind; intros ic.
  - reflexivity.
  - unfold findIcon in *. rewrite fold_left_app. simpl.
    rewrite filter_app, filter_cons, filter_nil.
    destruct (instanceof_FieldImage f) eqn:I.
    + rewrite decide_True by reflexivity. now rewrite last_snoc.
    + rewrite decide_False by discriminate. rewrite app_nil_r. apply IH.
Qed.

Lemma scanInputs_icon (inputs : list Input) :
  snd (scanInputs inputs) =
  last (filter (fun f => instanceof_FieldImage f = true)
               (concat (map fieldRow inputs))).
Proof.
  unfold scanInputs.
  induction inputs as [|i inputs IH] using rev_ind.
  - reflexivity.
  - rewrite fold_left_app. simpl. rewrite IH, findIcon_last.
    rewrite map_app, concat_app, filter_app. simpl. rewrite app_nil_r.
    destruct (filter _ (fieldRow i)) as [|f fs] eqn:F using rev_ind.
    + now rewrite app_nil_r.
    + now rewrite app_assoc, !last_snoc.
Qed.

Lemma scanInputs_hasStatement (inputs : list Input) :
  fst (scanInputs inputs) =
  existsb (fun i => is_NEXT_STATEMENT (input_type i)) inputs.
Proof.
  unfold scanInputs.
  induction inputs as [|i inputs IH] using rev_ind.
  - reflexivity.
  - rewrite fold_left_app, existsb_app. simpl. rewrite IH.
    destruct (is_NEXT_STATEMENT (input_type i)); simpl.
    + now rewrite orb_true_r.
    + now rewrite !orb_false_r.
Qed.

(** C8, as stated, fails: with two image fields declared, the icon that the
    geometry pass keeps is not the first one in input/field order. *)
Lemma renderCompute_first_icon_counterexample :
  image_fields two_icons = [flag_icon; arrow_icon] /\
  icon (renderCompute_ two_icons) <> head (image_fields two_icons).
Proof. split; [reflexivity | discriminate]. Qed.

(** C8, amended.  The icon kept by the geometry pass is the last image
    field in input/field order (every later match overwrites the earlier
    one), and the draw pass positions that field and no other, at the fixed
    offset (12, 8). *)
Theorem renderCompute_icon_last (xy : Z * Z) (b : Block) :
  icon (renderCompute_ b) = last (image_fields b) /\
  positioned (renderDraw_ xy (renderCompute_ b) b) =
    match last (image_fields b) with
    | Some f => [(f, (12, 8))]
    | None => []
    end.
Proof.
  pose proof (scanInputs_icon (inputList b)) as I.
  unfold renderCompute_, image_fields.
  destruct (scanInputs (inputList b)) as [stmt ic]. simpl in I. subst ic.
  split; [reflexivity|].
  unfold renderDraw_. cbn [positioned icon m_width].
  destruct (last _) as [f|]; [|reflexivity].
  unfold SEP_SPACE_X, SEP_SPACE_Y. do 3 f_equal.
  change (8 / 2) with 4. lia.
Qed.

End Geometry.

(** ** Footprint of a stack: [getHeightWidth] *)

Module Footprint.

(** A block as the footprint query sees it.  The next connection, when the
    block has one, carries the block attached to it ([targetBlock()]), so
    that the chain below a block is part of the block value. *)
#[local] Set Warnings "-register-all".

Inductive Block : Type := mkBlock {
  height : Z;
  width : Z;
  previousConnection : bool;
  outputConnection : bool;
  nextConnection : option (option Block)
}.

Record HeightWidth : Type := mkHeightWidth { hw_height : Z; hw_width : Z }.

(** Modelled from the spec: the accessor of the base block class for the
    block chained below, [this.nextConnection &&
    this.nextConnection.targetBlock()]. *)
Definition getNextBlock (b : Block) : option Block :=
  match nextConnection b with
  | Some target => target
  | None => None
  end.

Definition truthy {A : Type} (o : option A) : bool :=
  match o with Some _ => true | None => false end.

(** The recursion descends through the next connection to its target
    block; [getHeightWidth_eq] below restates the body with
    [getNextBlock], as the source has it. *)
Fixpoint getHeightWidth (b : Block) : HeightWidth :=
  let height0 := height b in
  let width0 := width b in
  match nextConnection b with
  | Some (Some nextBlock) =>
      let nextHeightWidth := getHeightWidth nextBlock in
      {| hw_height := height0 + (hw_height nextHeightWidth - 4);
         hw_width := Z.max width0 (hw_width nextHeightWidth) |}
  | _ =>
      if negb (truthy (nextConnection b)) && negb (outputConnection b)
      then {| hw_height := height0 + 2; hw_width := width0 |}
      else {| hw_height := height0; hw_width := width0 |}
  end.

(** The blocks of a stack, from a block down to the last one chained
    below it. *)
Fixpoint stack (b : Block) : list Block :=
  b :: match nextConnection b with
       | Some (Some nextBlock) => stack nextBlock
       | _ => []
       end.

Definition sumZ (l : list Z) : Z := fold_right Z.add 0 l.
Definition maxZ (l : list Z) : Z := fold_right Z.max 0 l.

(** The margin that the last block of a stack contributes. *)
Definition bottom_margin (b : Block) : Z :=
  if negb (truthy (nextConnection b)) && negb (outputConnection b)
  then 2 else 0.

(** A stack of two blocks. *)
Definition bottom_block : Block := mkBlock 56 0 true false (Some None).
Definition top_block : Block :=
  mkBlock 60 0 false false (Some (Some bottom_block)).

(** Two single blocks without a chained next block: a cap (previous
    connection only) and a reporter (output connection only). *)
Definition cap_block : Block := mkBlock 56 0 true false None.
Definition reporter_block : Block := mkBlock 56 0 false true None.

Lemma getHeightWidth_eq (b : Block) :
  getHeightWidth b =
  match getNextBlock b with
  | Some nextBlock =>
      {| hw_height := height b + (hw_height (getHeightWidth nextBlock) - 4);
         hw_width := Z.max (width b) (hw_width (getHeightWidth nextBlock)) |}
  | None =>
      {| hw_height := height b + bottom_margin b; hw_width := width b |}
  end.
Proof.
  destruct b as [h w p o [[nb|]|]]; unfold bottom_margin; simpl;
    try reflexivity; destruct o; simpl; f_equal; lia.
Qed.

(** C6.  When a next block is chained, the footprint is the block's own
    size combined with the footprint of the chain below: the height is the
    block's height plus the chained footprint's height minus 4, the width
    is the larger of the block's width and the chained footprint's
    width. *)
Theorem getHeightWidth_chained (b nextBlock : Block) :
  getNextBlock b = Some nextBlock ->
  hw_height (getHeightWidth b) =
    height b + hw_height (getHeightWidth nextBlock) - 4 /\
  hw_width (getHeightWidth b) =
    Z.max (width b) (hw_width (getHeightWidth nextBlock)).
Proof.
  intros N. rewrite getHeightWidth_eq, N. simpl. split; [lia | reflexivity].
Qed.

Lemma getHeightWidth_chained_witness :
  hw_height (getHeightWidth top_block) =
    height top_block + hw_height (getHeightWidth bottom_block) - 4 /\
  hw_width (getHeightWidth top_block) =
    Z.max (width top_block) (hw_width (getHeightWidth bottom_block)).
Proof. apply (getHeightWidth_chained top_block bottom_block). reflexivity. Defined.

(** Blocks of a stack other than the first all hang on a next
    connection; unfolding the recursion over the whole stack, every joint
    between two blocks takes 4 units off the sum of the heights. *)
Lemma getHeightWidth_stack (b : Block) :
  hw_height (getHeightWidth b) =
    sumZ (map height (stack b)) - 4 * (Z.of_nat (length (stack b)) - 1)
    + match last (stack b) with Some l => bottom_margin l | None => 0 end.
Proof.
  induction b as [h w p o next IH] using
    (fix ind (P : Block -> Prop)
         (step : forall h w p o next,
             (forall nb, next = Some (Some nb) -> P nb) ->
             P (mkBlock h w p o next))
         (b : Block) {struct b} : P b :=
       match b with
       | mkBlock h w p o next =>
           step h w p o next
             (fun nb E =>
                match next as n return n = Some (Some nb) -> P nb with
                | Some (Some nb') =>
                    fun E' =>
                      eq_ind nb' P (ind P step nb') nb
                        (f_equal (fun x => match x with
                                           | Some (Some y) => y
                                           | _ => nb'
                                           end) E')
                | _ => fun E' => match E' with
                                 | eq_refl => I
                                 end
                end E)
       end).
  rewrite getHeightWidth_eq.
  destruct next as [[nb|]|]; simpl.
  - specialize (IH nb eq_refl). rewrite IH.
    destruct (stack nb) as [|x xs] eqn:S; [destruct nb; discriminate|].
    rewrite <- S. unfold sumZ. simpl. fold (sumZ (map height (stack nb))).
    rewrite S. simpl length. rewrite <- S.
    replace (last (mkBlock h w p o (Some (Some nb)) :: stack nb))
      with (last (stack nb)) by (rewrite S; reflexivity).
    rewrite S. simpl length. lia.
  - unfold sumZ; simpl. lia.
  - unfold sumZ; simpl. lia.
Qed.

(** C7, as stated, fails in both directions: a block that has a previous
    connection does receive the margin, and a block with neither a previous
    nor a next connection does not receive it when it has an output
    connection. *)
Lemma getHeightWidth_margin_counterexample :
  (previousConnection cap_block = true /\
   hw_height (getHeightWidth cap_block) = height cap_block + 2) /\
  (previousConnection reporter_block = false /\
   nextConnection reporter_block = None /\
   hw_height (getHeightWidth reporter_block) = height reporter_block).
Proof. repeat split. Qed.

(** C7, amended.  A block with no block chained below it receives the
    bottom margin, 2 units of height, exactly when it has neither a next
    connection nor an output connection; whether it has a previous
    connection plays no part, and the width is left alone. *)
Theorem getHeightWidth_margin (b : Block) :
  getNextBlock b = None ->
  hw_height (getHeightWidth b) =
    height b + (if negb (truthy (nextConnection b)) && negb (outputConnection b)
                then 2 else 0) /\
  hw_width (getHeightWidth b) = width b.
Proof.
  intros N. rewrite getHeightWidth_eq, N. split; reflexivity.
Qed.

Lemma getHeightWidth_margin_witness :
  hw_height (getHeightWidth cap_block) = height cap_block + 2 /\
  hw_width (getHeightWidth cap_block) = width cap_block.
Proof. apply (getHeightWidth_margin cap_block). reflexivity. Defined.

End Footprint.

(** ** Moving blocks: [moveBy], [moveConnections_] and [snapToGrid] *)

Module Move.

Local Open Scope Q_scope.

(** [Math.round]: the nearest integer, ties towards +infinity. *)
Definition Math_round (x : Q) : Q := inject_Z (Qfloor (x + (1 # 2))).

Record Connection : Type := mkConnection { x_ : Q; y_ : Q }.

(** Modelled from the spec: a connection is repositioned by adding the
    offset to its absolute position ([Connection.moveBy]). *)
Definition Connection_moveBy (dx dy : Q) (c : Connection) : Connection :=
  {| x_ := x_ c + dx; y_ := y_ c + dy |}.

Record GridOptions : Type := mkGridOptions { snap : bool; spacing : Q }.
Record Options : Type := mkOptions { gridOptions : option GridOptions }.
Record Workspace : Type := mkWorkspace { options : Options }.

#[local] Set Warnings "-register-all".

(** A block with the blocks attached under it.  [translate] is the
    translation held by the [transform] attribute of the block's svg root;
    [connections] are the block's own connections, which is what
    [getConnections_(false)] returns on a rendered block. *)
Inductive Block : Type := mkBlock {
  workspace : option Workspace;
  parentBlock_ : option string;
  isInFlyout : bool;
  rendered : bool;
  translate : Q * Q;
  connections : list Connection;
  childBlocks_ : list Block
}.

Definition truthy {A : Type} (o : option A) : bool :=
  match o with Some _ => true | None => false end.

Definition getParent (b : Block) : option string := parentBlock_ b.

(** The walk from the block's svg root up to the canvas adds the
    translation of each element; [up] lists those of the elements strictly
    between the root and the canvas, and is empty for a block that sits
    directly on the canvas. *)
Definition getRelativeToSurfaceXY (up : list (Q * Q)) (b : Block) : Q * Q :=
  fold_left (fun xy e => (fst xy + fst e, snd xy + snd e)) up (translate b).

Fixpoint moveConnections_ (dx dy : Q) (b : Block) : Block :=
  match b with
  | mkBlock ws parent flyout rendered0 tr myConnections children =>
      if negb rendered0 then b
      else
        mkBlock ws parent flyout rendered0 tr
          (map (Connection_moveBy dx dy) myConnections)
          (map (moveConnections_ dx dy) children)
  end.

Definition set_translate (t : Q * Q) (b : Block) : Block :=
  mkBlock (workspace b) (parentBlock_ b) (isInFlyout b) (rendered b) t
    (connections b) (childBlocks_ b).

Definition moveBy (up : list (Q * Q)) (dx dy : Q) (b : Block) : Block :=
  let xy := getRelativeToSurfaceXY up b in
  let b := set_translate (fst xy + dx, snd xy + dy) b in
  moveConnections_ dx dy b.

(** A whole number. *)
Definition whole (q : Q) : bool := Qeq_bool q (inject_Z (Qfloor q)).

Definition whole_xy (p : Q * Q) : bool := whole (fst p) && whole (snd p).

(** The numbers of the source are doubles.  When the grid spacing is a
    positive whole number and the translations that add up to the surface
    position are whole numbers, as pixel coordinates are, [snapToGrid]
    computes on doubles what exact arithmetic gives: the halving, the
    sums and the product are exact, and the quotient, which is rounded,
    has the nearest integer of the exact quotient.  There the rationals
    of this model compute what the code computes.  Elsewhere the doubles
    round, or give NaN for a spacing of 0, and exact rationals do not
    follow them. *)
Definition exact_grid (spacing : Q) (ps : list (Q * Q)) : bool :=
  whole spacing && negb (Qle_bool spacing 0) && forallb whole_xy ps.

(** What a call of [snapToGrid] gives in the model: the block as the call
    leaves it, or no answer on numbers outside [exact_grid], where the
    model does not follow the doubles. *)
Inductive Outcome : Type :=
| Returns (b : Block)
| Inexact.

(** [dragMode_] is the global drag mode: 0 none, 1 sticky, 2 free. *)
Definition snapToGrid (dragMode_ : Z) (up : list (Q * Q)) (b : Block)
    : Outcome :=
  match workspace b with
  | None => Returns b                          (* Deleted block. *)
  | Some ws =>
      if negb (dragMode_ =? 0)%Z then Returns b
                                               (* Don't bump during a drag. *)
      else if truthy (getParent b) then Returns b
                                               (* Only snap top-level blocks. *)
      else if isInFlyout b then Returns b
      else
        match gridOptions (options ws) with
        | None => Returns b
        | Some grid =>
            if negb (snap grid) then Returns b (* Config says no snapping. *)
            else
              let spacing := spacing grid in
              if negb (exact_grid spacing (translate b :: up)) then Inexact
              else
              let half := spacing / 2 in
              let xy := getRelativeToSurfaceXY up b in
              let dx :=
                Math_round ((fst xy - half) / spacing) * spacing + half - fst xy in
              let dy :=
                Math_round ((snd xy - half) / spacing) * spacing + half - snd xy in
              let dx := Math_round dx in
              let dy := Math_round dy in
              if negb (Qeq_bool dx 0) || negb (Qeq_bool dy 0)
              then Returns (moveBy up dx dy b)
              else Returns b
        end
  end.

(** Every connection of a block and of the blocks attached under it. *)
Fixpoint all_connections (b : Block) : list Connection :=
  match b with
  | mkBlock _ _ _ _ _ myConnections children =>
      myConnections ++ flat_map all_connections children
  end.

(** The block and all the blocks attached under it are rendered. *)
Fixpoint all_rendered (b : Block) : bool :=
  match b with
  | mkBlock _ _ _ rendered0 _ _ children =>
      rendered0 && forallb all_rendered children
  end.

(** An unrendered block with one connection, and a rendered block that
    carries it as a child. *)
Definition hidden_block : Block :=
  mkBlock (Some (mkWorkspace (mkOptions None))) None false false (0, 0)
    [mkConnection 5 7] [].
Definition holder_block : Block :=
  mkBlock (Some (mkWorkspace (mkOptions None))) None false true (0, 0)
    [mkConnection 1 1] [hidden_block].

(** A rendered stack of two blocks. *)
Definition leaf_block : Block :=
  mkBlock (Some (mkWorkspace (mkOptions None))) (Some "stack"%string) false
    true (0, 56) [mkConnection 0 108] [].
Definition stack_block : Block :=
  mkBlock (Some (mkWorkspace (mkOptions None))) None false true (20, 20)
    [mkConnection 20 72; mkConnection 76 72] [leaf_block].

(** A loose block in a workspace that snaps to a grid of 20. *)
Definition grid20 : Workspace :=
  mkWorkspace (mkOptions (Some (mkGridOptions true 20))).
Definition loose_block : Block :=
  mkBlock (Some grid20) None false true (33, 58) [mkConnection 33 110] [].


Section Block_induction.
Variable P : Block -> Prop.
Hypothesis step :
  forall ws parent flyout r tr cs children,
    Forall P children -> P (mkBlock ws parent flyout r tr cs children).

Fixpoint Block_tree_ind (b : Block) : P b :=
  match b with
  | mkBlock ws parent flyout r tr cs children =>
      step ws parent flyout r tr cs children
        ((fix all (l : list Block) : Forall P l :=
            match l with
            | [] => @List.Forall_nil Block P
            | c :: l' => @List.Forall_cons Block P c l' (Block_tree_ind c) (all l')
            end) children)
  end.
End Block_induction.

Lemma moveConnections_rendered (dx dy : Q) (b : Block) :
  all_rendered b = true ->
  all_connections (moveConnections_ dx dy b) =
  map (Connection_moveBy dx dy) (all_connections b).
Proof.
  induction b as [ws parent flyout r tr cs children IH] using Block_tree_ind.
  simpl. intros R. apply andb_true_iff in R as [R1 R2]. subst r. simpl.
  rewrite map_app. f_equal.
  induction children as [|c children IHc]; [reflexivity|].
  simpl in *. apply andb_true_iff in R2 as [Rc Rcs].
  inversion IH as [|? ? Hc Hcs]; subst.
  rewrite map_app, (Hc Rc), (IHc Hcs Rcs). reflexivity.
Qed.

Lemma moveConnections_unrendered (dx dy : Q) (b : Block) :
  rendered b = false -> moveConnections_ dx dy b = b.
Proof. destruct b; simpl; intros ->; reflexivity. Qed.

Lemma all_connections_set_translate (t : Q * Q) (b : Block) :
  all_connections (set_translate t b) = all_connections b.
Proof. destruct b; reflexivity. Qed.

Lemma all_rendered_set_translate (t : Q * Q) (b : Block) :
  all_rendered (set_translate t b) = all_rendered b.
Proof. destruct b; reflexivity. Qed.

(** C5, as stated, fails: [moveConnections_] returns at once on a block
    that is not rendered, so neither the connection of such a block nor
    that of such a descendant is translated. *)
Lemma moveBy_unrendered_counterexample :
  all_connections (moveBy [] 10 0 hidden_block) = [mkConnection 5 7] /\
  all_connections (moveBy [] 10 0 holder_block) =
    [Connection_moveBy 10 0 (mkConnection 1 1); mkConnection 5 7] /\
  all_connections (moveBy [] 10 0 hidden_block) <>
    map (Connection_moveBy 10 0) (all_connections hidden_block).
Proof. repeat split. discriminate. Qed.

(** C5, amended.  For every block that is rendered together with all its
    descendants, and every offset, after [moveBy] each connection of the
    block and of each descendant is where it was before, translated by
    exactly the offset; the connections of a block that is not rendered
    stay where they are, with those of its whole subtree. *)
Theorem moveBy_translates_connections (up : list (Q * Q)) (dx dy : Q)
    (b : Block) :
  (all_rendered b = true ->
   all_connections (moveBy up dx dy b) =
   map (fun c => {| x_ := x_ c + dx; y_ := y_ c + dy |}) (all_connections b)) /\
  (rendered b = false ->
   all_connections (moveBy up dx dy b) = all_connections b).
Proof.
  unfold moveBy. split; intros R.
  - rewrite moveConnections_rendered
      by (rewrite all_rendered_set_translate; exact R).
    now rewrite all_connections_set_translate.
  - rewrite moveConnections_unrendered by (destruct b; exact R).
    apply all_connections_set_translate.
Qed.

Lemma moveBy_translates_connections_witness :
  all_connections (moveBy [] 3 (-2) stack_block) =
  map (fun c => {| x_ := x_ c + 3; y_ := y_ c + (-2) |})
      (all_connections stack_block).
Proof.
  apply (proj1 (moveBy_translates_connections [] 3 (-2) stack_block)).
  reflexivity.
Defined.

Lemma translate_moveConnections_ (dx dy : Q) (b : Block) :
  translate (moveConnections_ dx dy b) = translate b.
Proof. destruct b as [? ? ? [|] ? ? ?]; reflexivity. Qed.

Lemma surfaceXY_moveBy (dx dy : Q) (b : Block) :
  getRelativeToSurfaceXY [] (moveBy [] dx dy b) =
  (fst (getRelativeToSurfaceXY [] b) + dx, snd (getRelativeToSurfaceXY [] b) + dy).
Proof.
  unfold moveBy, getRelativeToSurfaceXY. cbn [fold_left].
  rewrite translate_moveConnections_. destruct b; reflexivity.
Qed.


(** A deleted block (no workspace) is left alone as well, which makes the
    deferred snap scheduled at the end of a drag harmless once the block
    is gone. *)
Lemma snapToGrid_deleted (dragMode_ : Z) (up : list (Q * Q)) (b : Block) :
  workspace b = None -> snapToGrid dragMode_ up b = Returns b.
Proof. intros W. unfold snapToGrid. now rewrite W. Qed.

(** The same holds when the configuration does not ask for snapping. *)
Lemma snapToGrid_disabled (dragMode_ : Z) (up : list (Q * Q)) (b : Block)
    (ws : Workspace) :
  workspace b = Some ws ->
  match gridOptions (options ws) with
  | Some grid => snap grid = false
  | None => True
  end ->
  snapToGrid dragMode_ up b = Returns b.
Proof.
  intros W G. unfold snapToGrid. rewrite W.
  destruct (negb (dragMode_ =? 0)%Z); [reflexivity|].
  destruct (truthy (getParent b)); [reflexivity|].
  destruct (isInFlyout b); [reflexivity|].
  destruct (gridOptions (options ws)) as [grid|]; [|reflexivity].
  now rewrite G.
Qed.

Lemma whole_inject_Z (z : Z) : whole (inject_Z z) = true.
Proof. unfold whole. rewrite Qfloor_Z. apply Qeq_bool_iff. reflexivity. Qed.

Lemma exact_grid_pixels (S : positive) (X Y : Z) :
  exact_grid (inject_Z (Zpos S)) [(inject_Z X, inject_Z Y)] = true.
Proof.
  unfold exact_grid, whole_xy. cbn [forallb fst snd].
  now rewrite !whole_inject_Z.
Qed.

(** Past its guards, [snapToGrid] leaves a top-level block that sits on
    whole pixels at its old surface position plus the rounded offset. *)
Lemma snapToGrid_position (b : Block) (ws : Workspace) (grid : GridOptions)
    (X Y : Z) (S : positive) :
  workspace b = Some ws ->
  gridOptions (options ws) = Some grid ->
  snap grid = true ->
  getParent b = None ->
  isInFlyout b = false ->
  translate b = (inject_Z X, inject_Z Y) ->
  spacing grid = inject_Z (Zpos S) ->
  exists b',
    snapToGrid 0 [] b = Returns b' /\
    let s := inject_Z (Zpos S) in
    let x := inject_Z X in
    let y := inject_Z Y in
    let q := getRelativeToSurfaceXY [] b' in
    fst q == x + Math_round (Math_round ((x - s / 2) / s) * s + s / 2 - x) /\
    snd q == y + Math_round (Math_round ((y - s / 2) / s) * s + s / 2 - y).
Proof.
  intros W G Sn Pn F T Sp. unfold snapToGrid.
  rewrite W, Pn, F, G, Sn, Sp, T, exact_grid_pixels.
  cbn [Z.eqb negb truthy].
  assert (getRelativeToSurfaceXY [] b = (inject_Z X, inject_Z Y)) as ->
    by (unfold getRelativeToSurfaceXY; cbn [fold_left]; exact T).
  cbn [fst snd].
  set (s := inject_Z (Zpos S)). set (x := inject_Z X). set (y := inject_Z Y).
  set (dx := Math_round (Math_round ((x - s / 2) / s) * s + s / 2 - x)).
  set (dy := Math_round (Math_round ((y - s / 2) / s) * s + s / 2 - y)).
  destruct (Qeq_bool dx 0) eqn:Ex; destruct (Qeq_bool dy 0) eqn:Ey;
    cbn [negb orb];
    try (eexists; split; [reflexivity|]; rewrite surfaceXY_moveBy;
         unfold getRelativeToSurfaceXY; cbn [fold_left]; rewrite T;
         cbn [fst snd]; split; reflexivity).
  apply Qeq_bool_eq in Ex, Ey. exists b. split; [reflexivity|].
  unfold getRelativeToSurfaceXY. cbn [fold_left]. rewrite T. cbn [fst snd].
  clearbody dx dy. subst x y. rewrite Ex, Ey. split; ring.
Qed.

Lemma Qfloor_unique (x : Q) (z : Z) :
  inject_Z z <= x -> x < inject_Z (z + 1) -> Qfloor x = z.
Proof.
  intros L U. apply Z.le_antisymm.
  - apply Z.lt_succ_r. unfold Z.succ. rewrite Zlt_Qlt.
    eapply Qle_lt_trans; [apply Qfloor_le | exact U].
  - rewrite <- (Qfloor_Z z). now apply Qfloor_resp_le.
Qed.

Lemma Math_round_inject_Z (z : Z) : Math_round (inject_Z z) == inject_Z z.
Proof.
  unfold Math_round. rewrite (Qfloor_unique _ z); [reflexivity| |].
  - rewrite <- (Qplus_0_r (inject_Z z)) at 1.
    apply Qplus_le_r. discriminate.
  - rewrite inject_Z_plus. apply Qplus_lt_r. reflexivity.
Qed.

Lemma Qfloor_div (P : Z) (S : positive) :
  Qfloor (inject_Z P / inject_Z (Zpos S)) = (P / Zpos S)%Z.
Proof.
  unfold Qdiv, Qinv, inject_Z, Qmult, Qfloor. simpl.
  now rewrite Z.mul_1_r.
Qed.

Lemma Math_round_grid_cell (P : Z) (S : positive) :
  Math_round ((inject_Z P - inject_Z (Zpos S) / 2) / inject_Z (Zpos S)) ==
  inject_Z (P / Zpos S).
Proof.
  unfold Math_round. rewrite <- (Qfloor_div P S).
  apply inject_Z_injective. 
  apply Qfloor_comp. field. discriminate.
Qed.

#[local] Instance Math_round_comp : Proper (Qeq ==> Qeq) Math_round.
Proof.
  intros x y E. unfold Math_round.
  apply inject_Z_injective, Qfloor_comp. now rewrite E.
Qed.

Lemma snap_offset_integer (P : Z) (k : positive) :
  let s := inject_Z (Zpos k~0) in
  inject_Z P +
  Math_round (Math_round ((inject_Z P - s / 2) / s) * s + s / 2 - inject_Z P) ==
  inject_Z (P / Zpos k~0 * Zpos k~0 + Zpos k).
Proof.
  intros s. subst s. rewrite Math_round_grid_cell.
  assert (inject_Z (P / Zpos k~0) * inject_Z (Zpos k~0)
          + inject_Z (Zpos k~0) / 2 - inject_Z P ==
          inject_Z (P / Zpos k~0 * Zpos k~0 + Zpos k - P)) as ->.
  { unfold Z.sub. rewrite !inject_Z_plus, inject_Z_mult, inject_Z_opp.
    change (Zpos k~0) with (2 * Zpos k)%Z. rewrite (inject_Z_mult 2).
    field. }
  rewrite Math_round_inject_Z, <- inject_Z_plus.
  apply inject_Z_injective. lia.
Qed.

(** With an integer position and an even spacing the rounded offset is
    exact: the block lands on the centre of its grid cell. *)
Lemma snapToGrid_on_grid (b : Block) (ws : Workspace) (grid : GridOptions)
    (X Y : Z) (k : positive) :
  workspace b = Some ws ->
  gridOptions (options ws) = Some grid ->
  snap grid = true ->
  getParent b = None ->
  isInFlyout b = false ->
  translate b = (inject_Z X, inject_Z Y) ->
  spacing grid = inject_Z (Zpos k~0) ->
  exists b',
    snapToGrid 0 [] b = Returns b' /\
    let q := getRelativeToSurfaceXY [] b' in
    fst q == inject_Z (X / Zpos k~0 * Zpos k~0 + Zpos k) /\
    snd q == inject_Z (Y / Zpos k~0 * Zpos k~0 + Zpos k).
Proof.
  intros W G S Pn F T Sp.
  destruct (snapToGrid_position b ws grid X Y (k~0) W G S Pn F T Sp)
    as (b' & E & Hx & Hy).
  exists b'. split; [exact E|]. cbv zeta.
  rewrite Hx, Hy. split; apply snap_offset_integer.
Qed.



End Move.

(** ** Drag controller: pointer handlers, disposal and the proximity scan *)

Module Drag.

Abbreviation BlockId := string.

(** Modelled from the spec: the five kinds of connection of the data
    model.  An input-statement, an input-value and a next connection hold
    the block attached to them and are the superior side of a pair; a
    previous and an output connection are the inferior side. *)
Inductive ConnectionKind : Type :=
| PREVIOUS | NEXT | INPUT_VALUE | INPUT_STATEMENT | OUTPUT.

(** A connection object.  [conn_id] stands for the identity of the object,
    which is what [==] and [!=] compare. *)
Record Connection : Type := mkConnection {
  conn_id : nat;
  kind : ConnectionKind;
  sourceBlock_ : BlockId;
  x_ : Z;
  y_ : Z;
  targetConnection : option nat
}.

(** Modelled from the spec: [isSuperior], the kinds on the holding side of
    a pair. *)
Definition isSuperior (c : Connection) : bool :=
  match kind c with
  | NEXT | INPUT_VALUE | INPUT_STATEMENT => true
  | PREVIOUS | OUTPUT => false
  end.

(** Modelled from the spec: a connection's target is always of the
    complementary kind. *)
Definition complementary (a b : ConnectionKind) : bool :=
  match a, b with
  | PREVIOUS, (NEXT | INPUT_STATEMENT) => true
  | (NEXT | INPUT_STATEMENT), PREVIOUS => true
  | OUTPUT, INPUT_VALUE => true
  | INPUT_VALUE, OUTPUT => true
  | _, _ => false
  end.

#[export] Instance ConnectionKind_eq_dec : EqDecision ConnectionKind.
Proof. solve_decision. Defined.

#[export] Instance Connection_eq_dec : EqDecision Connection.
Proof. solve_decision. Defined.

(** [a != b] on references to connection objects, either of which may be
    null.  Two distinct objects differ in [conn_id]. *)
Definition differs (a b : option Connection) : bool :=
  negb (bool_decide (a = b)).

(** A whole number of pixels as a double.  The conversion is exact up to
    2^53 in magnitude, far above any pixel coordinate or sum of squares of
    pixel distances. *)
Definition to_double (z : Z) : PrimFloat.float :=
  match z with
  | Z0 => PrimFloat.zero
  | Zpos _ => PrimFloat.of_uint63 (Uint63.of_Z z)
  | Zneg p => PrimFloat.opp (PrimFloat.of_uint63 (Uint63.of_Z (Zpos p)))
  end.

Record Workspace : Type := mkWorkspace {
  trashcan : bool;          (* the workspace has a trash can *)
  scale : PrimFloat.float   (* current zoom *)
}.

(** The fields of a block that the drag controller reads or writes.
    [svgGroup_] tells whether the svg root is still there; [surfaceXY] is
    what [getRelativeToSurfaceXY] returns. *)
Record BlockSvg : Type := mkBlockSvg {
  workspace : option Workspace;
  parentBlock_ : option BlockId;
  rendered : bool;
  svgGroup_ : bool;
  isInFlyout : bool;
  movable : bool;
  deletable : bool;
  dragStartXY_ : option (Z * Z);
  surfaceXY : Z * Z;
  connections : list Connection      (* getConnections_(false) *)
}.

#[export] Instance BlockSvg_inhabited : Inhabited BlockSvg :=
  populate (mkBlockSvg None None false false false false false None (0, 0) []).

(** What the handlers read off a pointer event: the button, whether the
    event has the signature of the rogue touch events, the position that
    [workspace.moveDrag(e)] computes for the block, and the outcome of
    [workspace.isDeleteArea(e)]. *)
Record MouseEvent : Type := mkMouseEvent {
  isRightButton : bool;
  rogue : bool;
  moveDrag : Z * Z;
  isDeleteArea : bool
}.

(** Calls that leave the file, in the order they are made. *)
Inductive Effect : Type :=
| Connect (localConnection highlighted : Connection)
| PlayAudio (block : BlockId) (name : string)
| Ripple (block : BlockId)
| Wiggle (block : BlockId)
| TrashcanClose
| TrashcanCloseLater
| Highlight (c : Connection)
| Unhighlight (c : Connection)
| SetCursorOpen
| SetCursorClosed
| MoveConnections (block : BlockId) (dx dy : Z)
| Render (block : BlockId)
| CallOnce_snapToGrid (block : BlockId)
| CallOnce_bumpNeighbours (block : BlockId)
| FireResize
| FireChangeEvent
| Unplug (block : BlockId) (healStack : bool)
| DisposeUiEffect (block : BlockId)
| ShowContextMenu (block : BlockId)
| StartDrag (block : BlockId)
| RecordDeleteAreas
| ShowDeleteArea
| StopPropagation.

(** The globals of the [Blockly] namespace that the handlers share, the
    store of block objects, the registry of connections, and the trace of
    outgoing calls.  [onMouseUpWrapper_] and [onMouseMoveWrapper_] name
    the block whose handler is bound to the document, if any. *)
Record Globals : Type := mkGlobals {
  selected : option BlockId;
  dragMode_ : Z;
  highlightedConnection_ : option Connection;
  localConnection_ : option Connection;
  onMouseUpWrapper_ : option BlockId;
  onMouseMoveWrapper_ : option BlockId;
  SNAP_RADIUS : Z;
  DRAG_RADIUS : Z;
  blocks : gmap string BlockSvg;
  connectionDB : list Connection;
  effects : list Effect
}.

Definition set_selected (v : option BlockId) (g : Globals) : Globals :=
  mkGlobals v (dragMode_ g) (highlightedConnection_ g) (localConnection_ g)
    (onMouseUpWrapper_ g) (onMouseMoveWrapper_ g) (SNAP_RADIUS g)
    (DRAG_RADIUS g) (blocks g) (connectionDB g) (effects g).

Definition set_dragMode_ (v : Z) (g : Globals) : Globals :=
  mkGlobals (selected g) v (highlightedConnection_ g) (localConnection_ g)
    (onMouseUpWrapper_ g) (onMouseMoveWrapper_ g) (SNAP_RADIUS g)
    (DRAG_RADIUS g) (blocks g) (connectionDB g) (effects g).

Definition set_highlightedConnection_ (v : option Connection) (g : Globals)
    : Globals :=
  mkGlobals (selected g) (dragMode_ g) v (localConnection_ g)
    (onMouseUpWrapper_ g) (onMouseMoveWrapper_ g) (SNAP_RADIUS g)
    (DRAG_RADIUS g) (blocks g) (connectionDB g) (effects g).

Definition set_localConnection_ (v : option Connection) (g : Globals)
    : Globals :=
  mkGlobals (selected g) (dragMode_ g) (highlightedConnection_ g) v
    (onMouseUpWrapper_ g) (onMouseMoveWrapper_ g) (SNAP_RADIUS g)
    (DRAG_RADIUS g) (blocks g) (connectionDB g) (effects g).

Definition set_onMouseUpWrapper_ (v : option BlockId) (g : Globals)
    : Globals :=
  mkGlobals (selected g) (dragMode_ g) (highlightedConnection_ g)
    (localConnection_ g) v (onMouseMoveWrapper_ g) (SNAP_RADIUS g)
    (DRAG_RADIUS g) (blocks g) (connectionDB g) (effects g).

Definition set_onMouseMoveWrapper_ (v : option BlockId) (g : Globals)
    : Globals :=
  mkGlobals (selected g) (dragMode_ g) (highlightedConnection_ g)
    (localConnection_ g) (onMouseUpWrapper_ g) v (SNAP_RADIUS g)
    (DRAG_RADIUS g) (blocks g) (connectionDB g) (effects g).

Definition set_blocks (v : gmap string BlockSvg) (g : Globals) : Globals :=
  mkGlobals (selected g) (dragMode_ g) (highlightedConnection_ g)
    (localConnection_ g) (onMouseUpWrapper_ g) (onMouseMoveWrapper_ g)
    (SNAP_RADIUS g) (DRAG_RADIUS g) v (connectionDB g) (effects g).

Definition emit (e : Effect) (g : Globals) : Globals :=
  mkGlobals (selected g) (dragMode_ g) (highlightedConnection_ g)
    (localConnection_ g) (onMouseUpWrapper_ g) (onMouseMoveWrapper_ g)
    (SNAP_RADIUS g) (DRAG_RADIUS g) (blocks g) (connectionDB g)
    (effects g ++ [e]).

(** The block object behind a reference. *)
Definition block (g : Globals) (b : BlockId) : BlockSvg := blocks g !!! b.

Definition update_block (b : BlockId) (f : BlockSvg -> BlockSvg)
    (g : Globals) : Globals :=
  set_blocks (<[b := f (block g b)]> (blocks g)) g.

Definition with_rendered (v : bool) (b : BlockSvg) : BlockSvg :=
  mkBlockSvg (workspace b) (parentBlock_ b) v (svgGroup_ b) (isInFlyout b)
    (movable b) (deletable b) (dragStartXY_ b) (surfaceXY b) (connections b).

Definition with_dragStartXY_ (v : option (Z * Z)) (b : BlockSvg) : BlockSvg :=
  mkBlockSvg (workspace b) (parentBlock_ b) (rendered b) (svgGroup_ b)
    (isInFlyout b) (movable b) (deletable b) v (surfaceXY b) (connections b).

Definition with_surfaceXY (v : Z * Z) (b : BlockSvg) : BlockSvg :=
  mkBlockSvg (workspace b) (parentBlock_ b) (rendered b) (svgGroup_ b)
    (isInFlyout b) (movable b) (deletable b) (dragStartXY_ b) v
    (connections b).

Definition with_parentBlock_ (v : option BlockId) (b : BlockSvg) : BlockSvg :=
  mkBlockSvg (workspace b) v (rendered b) (svgGroup_ b) (isInFlyout b)
    (movable b) (deletable b) (dragStartXY_ b) (surfaceXY b) (connections b).

Definition with_workspace (v : option Workspace) (b : BlockSvg) : BlockSvg :=
  mkBlockSvg v (parentBlock_ b) (rendered b) (svgGroup_ b) (isInFlyout b)
    (movable b) (deletable b) (dragStartXY_ b) (surfaceXY b) (connections b).

Definition with_svgGroup_ (v : bool) (b : BlockSvg) : BlockSvg :=
  mkBlockSvg (workspace b) (parentBlock_ b) (rendered b) v (isInFlyout b)
    (movable b) (deletable b) (dragStartXY_ b) (surfaceXY b) (connections b).

Definition truthy {A : Type} (o : option A) : bool :=
  match o with Some _ => true | None => false end.

(** Reading a property of [null] throws a TypeError.  A handler returns
    [None] when it throws and [Some] of the new globals otherwise. *)
Definition deref {A : Type} (o : option A) : option A := o.

(** An operation on the svg root of a block throws once the root is gone. *)
Definition need_svg (b : BlockSvg) : option unit :=
  if svgGroup_ b then Some tt else None.

(** [BlockSvg.terminateDrag_].  [disconnectUiStop_] only stops the wiggle
    animation and is left out. *)
Definition BlockSvg_terminateDrag_ (g : Globals) : option Globals :=
  let g := set_onMouseUpWrapper_ None g in
  let g := set_onMouseMoveWrapper_ None g in
  g ← (if (dragMode_ g =? 2)%Z then
         match selected g with
         | Some sel =>
             let b := block g sel in
             let xy := surfaceXY b in
             start ← deref (dragStartXY_ b);
             let g :=
               if rendered b
               then emit (MoveConnections sel (fst xy - fst start)
                            (snd xy - snd start)) g
               else g in
             _ ← need_svg b;                    (* setDragging_(false) *)
             let g := update_block sel (with_rendered true) g in
             let g := emit (Render sel) g in
             let g := emit (CallOnce_snapToGrid sel) g in
             let g := emit (CallOnce_bumpNeighbours sel) g in
             let g := emit FireResize g in
             _ ← deref (workspace b);
             Some (emit FireChangeEvent g)
         | None => Some g
         end
       else Some g);
  let g := set_dragMode_ 0 g in
  Some (emit SetCursorOpen g).

(** [Blockly.terminateDrag_] ends the drag of a block and that of the
    flyout; the flyout keeps its state outside this file. *)
Definition Blockly_terminateDrag_ (g : Globals) : option Globals :=
  BlockSvg_terminateDrag_ g.

Definition unselect (this : BlockId) (g : Globals) : option Globals :=
  let g := set_selected None g in
  _ ← need_svg (block g this);                  (* removeSelect *)
  _ ← deref (workspace (block g this));         (* workspace.getCanvas() *)
  Some g.

Definition select (this : BlockId) (g : Globals) : option Globals :=
  g ← match selected g with
      | Some old => unselect old g
      | None => Some g
      end;
  let g := set_selected (Some this) g in
  _ ← need_svg (block g this);                  (* addSelect *)
  _ ← deref (workspace (block g this));
  Some g.

(** Modelled from the spec: disposal in the base block class severs the
    hierarchy links of the block, the reference to its parent and the
    reference to its workspace. *)
Definition Block_dispose (this : BlockId) (healStack : bool) (g : Globals)
    : Globals :=
  update_block this
    (fun b => with_workspace None (with_parentBlock_ None b)) g.

Definition disposeUiEffect (this : BlockId) (g : Globals) : option Globals :=
  _ ← deref (workspace (block g this));         (* workspace.playAudio *)
  let g := emit (PlayAudio this "delete") g in
  _ ← need_svg (block g this);                  (* svgGroup_.cloneNode *)
  Some (emit (DisposeUiEffect this) g).

(** [dispose].  The field cache, the onchange binding, the context menu
    and the icons have no part in the drag state and are left out. *)
Definition dispose (this : BlockId) (healStack animate : bool) (g : Globals)
    : option Globals :=
  (* If this block is being dragged, unlink the mouse events. *)
  g ← (if bool_decide (selected g = Some this)
       then Blockly_terminateDrag_ g else Some g);
  g ← (if animate && rendered (block g this)
       then disposeUiEffect this (emit (Unplug this healStack) g)
       else Some g);
  (* Stop rerendering. *)
  let g := update_block this (with_rendered false) g in
  let g := Block_dispose this healStack g in
  (* Sever JavaScript to DOM connections. *)
  Some (update_block this (with_svgGroup_ false) g).

Definition connectionUiEffect (this : BlockId) (g : Globals) : option Globals :=
  ws ← deref (workspace (block g this));
  let g := emit (PlayAudio this "click") g in
  if PrimFloat.ltb (scale ws) PrimFloat.one
  then Some g                       (* Too small to care about visual effects. *)
  else
    _ ← need_svg (block g this);
    Some (emit (Ripple this) g).

Definition onMouseDown_ (this : BlockId) (e : MouseEvent) (g : Globals)
    : option Globals :=
  if isInFlyout (block g this) then Some (emit StopPropagation g)
  else
    _ ← deref (workspace (block g this));       (* workspace.markFocused() *)
    g ← Blockly_terminateDrag_ g;
    g ← select this g;
    if isRightButton e then
      Some (emit StopPropagation (emit (ShowContextMenu this) g))
    else if negb (movable (block g this)) then Some g
    else
      let g := emit SetCursorClosed g in
      let xy := surfaceXY (block g this) in
      let g := update_block this (with_dragStartXY_ (Some xy)) g in
      let g := emit (StartDrag this) g in
      let g := set_dragMode_ 1 g in
      let g := set_onMouseUpWrapper_ (Some this) g in
      let g := set_onMouseMoveWrapper_ (Some this) g in
      Some (emit StopPropagation g).

Definition onMouseUp_ (this : BlockId) (e : MouseEvent) (g : Globals)
    : option Globals :=
  g ← Blockly_terminateDrag_ g;
  g ← (if truthy (selected g) && truthy (highlightedConnection_ g) then
         (* Connect two blocks together. *)
         l ← deref (localConnection_ g);
         h ← highlightedConnection_ g;
         let g := emit (Connect l h) g in
         g ← (if rendered (block g this) then
                let inferiorConnection := if isSuperior l then h else l in
                connectionUiEffect (sourceBlock_ inferiorConnection) g
              else Some g);
         ws ← deref (workspace (block g this));
         Some (if trashcan ws then emit TrashcanClose g else g)
       else if negb (truthy (parentBlock_ (block g this))) then
         sel ← deref (selected g);
         if deletable (block g sel) then
           ws ← deref (workspace (block g this));
           if isDeleteArea e then
             let g := if trashcan ws then emit TrashcanCloseLater g else g in
             g ← dispose sel false true g;
             Some (emit FireResize g)
           else Some g
         else Some g
       else Some g);
  let g :=
    match highlightedConnection_ g with
    | Some h => set_highlightedConnection_ None (emit (Unhighlight h) g)
    | None => g
    end in
  Some (emit SetCursorOpen g).

(** A pointer-up on the document runs the handler that is bound, if one
    is. *)
Definition mouseup (e : MouseEvent) (g : Globals) : option Globals :=
  match onMouseUpWrapper_ g with
  | Some this => onMouseUp_ this e g
  | None => Some g
  end.

(** *** The proximity scan of [onMouseMove_] *)

(** Squared Euclidean distance between a connection of the dragged block,
    displaced by the trial offset, and another connection.  Radii are
    carried as squares throughout: squaring keeps the order of distances,
    so every comparison of the scan is decided exactly. *)
Definition dist2 (my c : Connection) (dx dy : Z) : Z :=
  let ddx := (x_ my + dx) - x_ c in
  let ddy := (y_ my + dy) - y_ c in
  ddx * ddx + ddy * ddy.

(** Modelled from the spec: what may be offered to a connection is a
    connection of the complementary kind on another block, both ends being
    unconnected. *)
Definition candidate (my c : Connection) : bool :=
  complementary (kind my) (kind c)
  && negb (truthy (targetConnection my))
  && negb (truthy (targetConnection c))
  && negb (String.eqb (sourceBlock_ my) (sourceBlock_ c)).

Record Neighbour : Type := mkNeighbour {
  connection : option Connection;
  radius : Z
}.

(** Modelled from the spec: [closest] scans the registry in iteration
    order and returns the nearest candidate strictly within the radius
    with its distance, or null with the radius it was given; between two
    candidates at the same distance the first one met is kept. *)
Definition closest (db : list Connection) (my : Connection) (maxLimit : Z)
    (dx dy : Z) : Neighbour :=
  fold_left
    (fun best c =>
       if candidate my c && (dist2 my c dx dy <? radius best)%Z
       then {| connection := Some c; radius := dist2 my c dx dy |}
       else best)
    db {| connection := None; radius := maxLimit |}.

Record Scan : Type := mkScan {
  closestConnection : option Connection;
  scan_localConnection : option Connection;
  radiusConnection : Z
}.

(** One turn of the loop over [myConnections], for any implementation of
    [closest]. *)
Definition scan_step (closest_ : Connection -> Z -> Z -> Z -> Neighbour)
    (dx dy : Z) (st : Scan) (myConnection : Connection) : Scan :=
  let neighbour := closest_ myConnection (radiusConnection st) dx dy in
  match connection neighbour with
  | Some c =>
      {| closestConnection := Some c;
         scan_localConnection := Some myConnection;
         radiusConnection := radius neighbour |}
  | None => st
  end.

Definition proximity_scan (closest_ : Connection -> Z -> Z -> Z -> Neighbour)
    (myConnections : list Connection) (snap : Z) (dx dy : Z) : Scan :=
  fold_left (scan_step closest_ dx dy) myConnections
    {| closestConnection := None; scan_localConnection := None;
       radiusConnection := snap |}.

(** The two updates of the highlighted pair that follow the scan. *)
Definition update_highlight (sc : Scan) (g : Globals) : Globals :=
  let g :=
    match highlightedConnection_ g with
    | Some old =>
        if differs (Some old) (closestConnection sc)
        then set_localConnection_ None
               (set_highlightedConnection_ None (emit (Unhighlight old) g))
        else g
    | None => g
    end in
  match closestConnection sc with
  | Some c =>
      if differs (Some c) (highlightedConnection_ g)
      then set_localConnection_ (scan_localConnection sc)
             (set_highlightedConnection_ (Some c) (emit (Highlight c) g))
      else g
  | None => g
  end.

Definition disconnectUiEffect (this : BlockId) (g : Globals) : option Globals :=
  ws ← deref (workspace (block g this));
  let g := emit (PlayAudio this "disconnect") g in
  if PrimFloat.ltb (scale ws) PrimFloat.one then Some g
  else Some (emit (Wiggle this) g).

(** [goog.math.Coordinate.distance]: the square root, as a double, of
    the sum of the squares of the two differences. *)
Definition Coordinate_distance (a b : Z * Z) : PrimFloat.float :=
  let dx := (fst a - fst b)%Z in
  let dy := (snd a - snd b)%Z in
  PrimFloat.sqrt (to_double (dx * dx + dy * dy)).

(** [dr > Blockly.DRAG_RADIUS] for [dr] the distance from [oldXY] to
    [newXY] times the scale, in the arithmetic of doubles. *)
Definition beyond_drag_radius (oldXY newXY : Z * Z) (scale0 : PrimFloat.float)
    (drag_radius : Z) : bool :=
  let dr := PrimFloat.mul (Coordinate_distance oldXY newXY) scale0 in
  PrimFloat.ltb (to_double drag_radius) dr.

(** The offset of the block since the drag began, as the free-drag branch
    computes it from the position the block had before this move. *)
Definition drag_offset (b : BlockSvg) : option (Z * Z) :=
  start ← deref (dragStartXY_ b);
  Some (fst (surfaceXY b) - fst start, snd (surfaceXY b) - snd start).

Definition onMouseMove_ (this : BlockId) (e : MouseEvent) (g : Globals)
    : option Globals :=
  if rogue e then Some (emit StopPropagation g)
  else
    let oldXY := surfaceXY (block g this) in
    ws ← deref (workspace (block g this));      (* workspace.moveDrag(e) *)
    let newXY := moveDrag e in
    g ← (if (dragMode_ g =? 1)%Z then
           (* Still dragging within the sticky DRAG_RADIUS. *)
           if beyond_drag_radius oldXY newXY (scale ws) (DRAG_RADIUS g) then
             (* Switch to unrestricted dragging. *)
             let g := set_dragMode_ 2 g in
             _ ← need_svg (block g this);
             g ← (if truthy (parentBlock_ (block g this)) then
                    (* Push this block to the very top of the stack. *)
                    disconnectUiEffect this
                      (update_block this (with_parentBlock_ None) g)
                  else Some g);
             Some (emit RecordDeleteAreas g)
           else Some g
         else Some g);
    g ← (if (dragMode_ g =? 2)%Z then
           (* Unrestricted dragging. *)
           d ← drag_offset (block g this);
           _ ← need_svg (block g this);
           let myConnections := connections (block g this) in
           let g := update_block this (with_surfaceXY newXY) g in
           let sc :=
             proximity_scan (closest (connectionDB g)) myConnections
               (SNAP_RADIUS g * SNAP_RADIUS g) (fst d) (snd d) in
           let g := update_highlight sc g in
           Some (if deletable (block g this) then emit ShowDeleteArea g else g)
         else Some g);
    Some (emit StopPropagation g).

(** A pointer-move on the document, likewise. *)
Definition mousemove (e : MouseEvent) (g : Globals) : option Globals :=
  match onMouseMoveWrapper_ g with
  | Some this => onMouseMove_ this e g
  | None => Some g
  end.

(** The events of a trace that matter to a connection: the connect
    operations, the click cues of the connect feedback, its ripples. *)
Definition connects (evs : list Effect) : list (Connection * Connection) :=
  omap (fun ev => match ev with Connect l h => Some (l, h) | _ => None end) evs.

Definition clicks (evs : list Effect) : list BlockId :=
  omap (fun ev =>
          match ev with
          | PlayAudio b name => if String.eqb name "click" then Some b else None
          | _ => None
          end) evs.

Definition ripples (evs : list Effect) : list BlockId :=
  omap (fun ev => match ev with Ripple b => Some b | _ => None end) evs.

(** The state of a drag session on [this], as [onMouseDown_] sets it up:
    the block is the selected one, both handlers are bound to it, it
    remembers where the drag began and it is still in its workspace. *)
Record InSession (g : Globals) (this : BlockId) : Prop := mkInSession {
  session_selected : selected g = Some this;
  session_up : onMouseUpWrapper_ g = Some this;
  session_move : onMouseMoveWrapper_ g = Some this;
  session_start : is_Some (dragStartXY_ (block g this));
  session_svg : svgGroup_ (block g this) = true;
  session_workspace : is_Some (workspace (block g this))
}.

(** What the loop over [myConnections] has established once it has been
    through [seen], for a relation [offered] that tells which connections
    are on offer to which. *)
Definition scan_inv (offered : Connection -> Connection -> Prop) (dx dy : Z)
    (r0 : Z) (seen : list Connection) (st : Scan) : Prop :=
  match closestConnection st with
  | Some c =>
      exists my,
        scan_localConnection st = Some my /\ my ∈ seen /\ offered my c /\
        radiusConnection st = dist2 my c dx dy /\
        (radiusConnection st < r0)%Z /\
        forall my' c', my' ∈ seen -> offered my' c' ->
                       (radiusConnection st <= dist2 my' c' dx dy)%Z
  | None =>
      radiusConnection st = r0 /\
      forall my' c', my' ∈ seen -> offered my' c' ->
                     (r0 <= dist2 my' c' dx dy)%Z
  end.

(** The candidates that the registry holds for a connection. *)
Definition offered_in (db : list Connection) (my c : Connection) : Prop :=
  c ∈ db /\ candidate my c = true.

(** [g1] has the blocks of [g], except that blocks may have become
    rendered. *)
Definition keeps_blocks (g g1 : Globals) : Prop :=
  forall b,
    workspace (block g1 b) = workspace (block g b) /\
    parentBlock_ (block g1 b) = parentBlock_ (block g b) /\
    svgGroup_ (block g1 b) = svgGroup_ (block g b) /\
    deletable (block g1 b) = deletable (block g b) /\
    dragStartXY_ (block g1 b) = dragStartXY_ (block g b) /\
    (rendered (block g b) = true -> rendered (block g1 b) = true) /\
    movable (block g1 b) = movable (block g b) /\
    surfaceXY (block g1 b) = surfaceXY (block g b).

(** *** A workspace with two blocks *)

(** Block A ends in a previous connection; block B, at the origin, offers
    a next connection.  A has been dragged from (200, 100) to (65, 2),
    which brings its connection within 6 units of B's. *)
Definition a_prev : Connection := mkConnection 1 PREVIOUS "A" 200 148 None.
Definition b_next : Connection := mkConnection 2 NEXT "B" 60 48 None.
Definition c_next : Connection := mkConnection 3 NEXT "C" 400 400 None.

Definition two_blocks (ws : Workspace) (a_rendered : bool)
    (a_start : option (Z * Z)) (a_xy : Z * Z) : gmap string BlockSvg :=
  <["A" := mkBlockSvg (Some ws) None a_rendered true false true true
             a_start a_xy [a_prev]]>
  (<["B" := mkBlockSvg (Some ws) None true true false true true
              None (0, 0) [b_next]]> ∅).

Definition free_drag (ws : Workspace) : Globals :=
  mkGlobals (Some "A") 2 None None (Some "A") (Some "A") 20 5
    (two_blocks ws true (Some (200, 100)) (65, 2)) [c_next; b_next; a_prev] [].

Definition over_candidate (ws : Workspace) : Globals :=
  mkGlobals (Some "A") 2 (Some b_next) (Some a_prev) (Some "A") (Some "A")
    20 5 (two_blocks ws true (Some (200, 100)) (65, 2))
    [c_next; b_next; a_prev] [].

(** A sticky session on a block that has not been rendered, with a pair
    left highlighted. *)
Definition unrendered_release (ws : Workspace) : Globals :=
  mkGlobals (Some "A") 1 (Some b_next) (Some a_prev) (Some "A") (Some "A")
    20 5 (two_blocks ws false (Some (200, 100)) (200, 100))
    [c_next; b_next; a_prev] [].

Definition idle (ws : Workspace) : Globals :=
  mkGlobals None 0 None None None None 20 5
    (two_blocks ws true None (200, 100)) [c_next; b_next; a_prev] [].

Definition zoom1 : Workspace := mkWorkspace true PrimFloat.one.
Definition zoom_half : Workspace :=
  mkWorkspace true (PrimFloat.div PrimFloat.one PrimFloat.two).

Definition left_press : MouseEvent := mkMouseEvent false false (200, 100) false.
Definition move_near : MouseEvent := mkMouseEvent false false (65, 2) false.
Definition move_to : MouseEvent := mkMouseEvent false false (66, 2) false.
Definition release : MouseEvent := mkMouseEvent false false (66, 2) false.

(** *** The proximity scan keeps the nearest candidate within the radius *)

Section ProximityScan.

(** Any [closest] will do that honours the contract of the registry: a
    hit is a candidate of the connection, strictly within the radius
    given, no farther than any other candidate, and returned with its
    distance; a miss returns the radius unchanged and means that no
    candidate is strictly within it. *)
Variable closest_ : Connection -> Z -> Z -> Z -> Neighbour.
Variable offered : Connection -> Connection -> Prop.
Variables dx dy : Z.

Hypothesis closest_hit : forall my r c,
  connection (closest_ my r dx dy) = Some c ->
  offered my c /\
  radius (closest_ my r dx dy) = dist2 my c dx dy /\
  (dist2 my c dx dy < r)%Z /\
  forall c', offered my c' -> (dist2 my c dx dy <= dist2 my c' dx dy)%Z.

Hypothesis closest_miss : forall my r,
  connection (closest_ my r dx dy) = None ->
  radius (closest_ my r dx dy) = r /\
  forall c', offered my c' -> (r <= dist2 my c' dx dy)%Z.

Lemma scan_inv_radius (r0 : Z) (seen : list Connection) (st : Scan) :
  scan_inv offered dx dy r0 seen st ->
  (radiusConnection st <= r0)%Z /\
  forall my' c', my' ∈ seen -> offered my' c' ->
                 (radiusConnection st <= dist2 my' c' dx dy)%Z.
Proof.
  unfold scan_inv. destruct (closestConnection st) as [c|].
  - intros (my & _ & _ & _ & _ & Hlt & Hmin). split; [lia | exact Hmin].
  - intros [-> Hmin]. split; [lia | exact Hmin].
Qed.

Lemma scan_step_inv (r0 : Z) (seen : list Connection) (st : Scan)
    (my : Connection) :
  scan_inv offered dx dy r0 seen st ->
  scan_inv offered dx dy r0 (seen ++ [my]) (scan_step closest_ dx dy st my).
Proof.
  intros Inv. destruct (scan_inv_radius _ _ _ Inv) as [Hr Hmin].
  unfold scan_step.
  destruct (connection (closest_ my (radiusConnection st) dx dy))
    as [c|] eqn:Hc.
  - destruct (closest_hit _ _ _ Hc) as (Hoff & Hrad & Hlt & Hbest).
    unfold scan_inv. cbn [closestConnection scan_localConnection radiusConnection].
    exists my. rewrite Hrad.
    split; [reflexivity|].
    split; [apply elem_of_app; right; now apply list_elem_of_singleton|].
    split; [exact Hoff|].
    split; [reflexivity|]. split; [lia|].
    intros my' c' Hin Hoff'. apply elem_of_app in Hin as [Hin|Hin].
    + specialize (Hmin my' c' Hin Hoff'). lia.
    + apply list_elem_of_singleton in Hin as ->. now apply Hbest.
  - destruct (closest_miss _ _ Hc) as [_ Hnone].
    unfold scan_inv in *. destruct (closestConnection st) as [c0|].
    + destruct Inv as (my0 & Hl & Hin0 & Hoff0 & Hrad0 & Hlt0 & Hmin0).
      exists my0. repeat split; try assumption;
        [apply elem_of_app; now left|].
      intros my' c' Hin Hoff'. apply elem_of_app in Hin as [Hin|Hin].
      * now apply Hmin0.
      * apply list_elem_of_singleton in Hin as ->. now apply Hnone.
    + destruct Inv as [Hrad0 Hmin0]. split; [assumption|].
      intros my' c' Hin Hoff'. apply elem_of_app in Hin as [Hin|Hin].
      * now apply Hmin0.
      * apply list_elem_of_singleton in Hin as ->.
        rewrite <- Hrad0. now apply Hnone.
Qed.

Lemma proximity_scan_inv (r0 : Z) (myConnections : list Connection) :
  scan_inv offered dx dy r0 myConnections (proximity_scan closest_ myConnections r0 dx dy).
Proof.
  unfold proximity_scan.
  induction myConnections as [|my mys IH] using rev_ind.
  - simpl. split; [reflexivity|]. intros my' c' Hin. inversion Hin.
  - rewrite fold_left_app. simpl. now apply scan_step_inv.
Qed.

End ProximityScan.

(** The registry scan modelled above honours that contract, for the
    candidates found in the registry. *)
Lemma closest_inv (db : list Connection) (my : Connection) (r dx dy : Z) :
  let n := closest db my r dx dy in
  match connection n with
  | Some c =>
      offered_in db my c /\ radius n = dist2 my c dx dy /\
      (radius n < r)%Z /\
      forall c', offered_in db my c' -> (radius n <= dist2 my c' dx dy)%Z
  | None =>
      radius n = r /\
      forall c', offered_in db my c' -> (r <= dist2 my c' dx dy)%Z
  end.
Proof.
  unfold closest, offered_in.
  induction db as [|x db IH] using rev_ind.
  - simpl. split; [reflexivity|]. intros c' [Hin _]. inversion Hin.
  - rewrite fold_left_app. cbn [fold_left].
    set (best := fold_left _ db _) in *. cbv zeta in IH.
    destruct (candidate my x) eqn:Hx; cbn [andb].
    + destruct (Z.ltb_spec (dist2 my x dx dy) (radius best)) as [Hlt|Hge].
      * cbn [connection radius].
        split; [split; [apply elem_of_app; right; now apply list_elem_of_singleton | exact Hx]|]. split; [reflexivity|].
        destruct (connection best) as [c|].
        -- destruct IH as (_ & _ & Hr & Hmin). split; [lia|].
           intros c' [Hin Hc']. apply elem_of_app in Hin as [Hin|Hin].
           ++ specialize (Hmin c' (conj Hin Hc')). lia.
           ++ apply list_elem_of_singleton in Hin as ->. lia.
        -- destruct IH as [Hr Hmin]. split; [lia|].
           intros c' [Hin Hc']. apply elem_of_app in Hin as [Hin|Hin].
           ++ specialize (Hmin c' (conj Hin Hc')). lia.
           ++ apply list_elem_of_singleton in Hin as ->. lia.
      * destruct (connection best) as [c|].
        -- destruct IH as ([Hin Hc] & Hrad & Hr & Hmin).
           split; [split; [apply elem_of_app; now left | exact Hc]|].
           split; [exact Hrad|]. split; [exact Hr|].
           intros c' [Hin' Hc']. apply elem_of_app in Hin' as [Hin'|Hin'].
           ++ now apply Hmin.
           ++ apply list_elem_of_singleton in Hin' as ->. lia.
        -- destruct IH as [Hr Hmin]. split; [exact Hr|].
           intros c' [Hin' Hc']. apply elem_of_app in Hin' as [Hin'|Hin'].
           ++ now apply Hmin.
           ++ apply list_elem_of_singleton in Hin' as ->. lia.
    + destruct (connection best) as [c|].
      * destruct IH as ([Hin Hc] & Hrad & Hr & Hmin).
        split; [split; [apply elem_of_app; now left | exact Hc]|].
        split; [exact Hrad|]. split; [exact Hr|].
        intros c' [Hin' Hc']. apply elem_of_app in Hin' as [Hin'|Hin'].
        -- now apply Hmin.
        -- apply list_elem_of_singleton in Hin' as ->. congruence.
      * destruct IH as [Hr Hmin]. split; [exact Hr|].
        intros c' [Hin' Hc']. apply elem_of_app in Hin' as [Hin'|Hin'].
        -- now apply Hmin.
        -- apply list_elem_of_singleton in Hin' as ->. congruence.
Qed.

Lemma closest_hit_db (db : list Connection) (dx dy : Z) (my : Connection)
    (r : Z) (c : Connection) :
  connection (closest db my r dx dy) = Some c ->
  offered_in db my c /\
  radius (closest db my r dx dy) = dist2 my c dx dy /\
  (dist2 my c dx dy < r)%Z /\
  forall c', offered_in db my c' -> (dist2 my c dx dy <= dist2 my c' dx dy)%Z.
Proof.
  intros Hc. pose proof (closest_inv db my r dx dy) as H. cbv zeta in H.
  rewrite Hc in H. destruct H as (Ho & Hrad & Hr & Hmin).
  rewrite Hrad in Hr, Hmin. auto.
Qed.

Lemma closest_miss_db (db : list Connection) (dx dy : Z) (my : Connection)
    (r : Z) :
  connection (closest db my r dx dy) = None ->
  radius (closest db my r dx dy) = r /\
  forall c', offered_in db my c' -> (r <= dist2 my c' dx dy)%Z.
Proof.
  intros Hc. pose proof (closest_inv db my r dx dy) as H. cbv zeta in H.
  now rewrite Hc in H.
Qed.

(** After the two updates the highlighted connection is the one that the
    scan kept, or none if it kept none. *)
Lemma update_highlight_result (sc : Scan) (g : Globals) :
  highlightedConnection_ (update_highlight sc g) = closestConnection sc.
Proof.
  unfold update_highlight, differs.
  destruct (highlightedConnection_ g) as [old|] eqn:Hh;
    destruct (closestConnection sc) as [c|] eqn:Hc.
  - destruct (decide (Some old = Some c)) as [E|E].
    + rewrite (bool_decide_eq_true_2 _ E). cbn [negb]. rewrite Hh.
      rewrite bool_decide_eq_true_2 by congruence. cbn [negb]. congruence.
    + rewrite (bool_decide_eq_false_2 _ E). cbn [negb].
      cbn [highlightedConnection_ set_localConnection_ set_highlightedConnection_ emit].
      rewrite bool_decide_eq_false_2 by discriminate. reflexivity.
  - rewrite bool_decide_eq_false_2 by discriminate. reflexivity.
  - rewrite Hh. rewrite bool_decide_eq_false_2 by discriminate. reflexivity.
  - exact Hh.
Qed.

(** Once the radius is an integer, a squared distance is below its square
    exactly when the integer part of the distance is below the radius,
    which is when the distance itself is. *)
Lemma within_radius_sqrt (d2 r : Z) :
  (0 <= d2)%Z -> (0 <= r)%Z -> (d2 < r * r)%Z <-> (Z.sqrt d2 < r)%Z.
Proof.
  intros Hd Hr. destruct (Z.eq_dec r 0) as [->|Hne].
  - pose proof (Z.sqrt_nonneg d2). split; lia.
  - apply Z.sqrt_lt_square; lia.
Qed.

Lemma dist2_nonneg (my c : Connection) (dx dy : Z) : (0 <= dist2 my c dx dy)%Z.
Proof. unfold dist2. apply Z.add_nonneg_nonneg; apply Z.square_nonneg. Qed.

(** C4.  During free dragging, the connection that a pointer move leaves
    highlighted is a candidate of one of the dragged block's own
    connections whose distance, after the trial offset, is strictly within
    SNAP_RADIUS, and no pair of an own connection and a candidate is
    nearer; when no candidate is strictly within the radius, the scan
    yields null and nothing is highlighted. *)
Theorem onMouseMove_highlights_nearest (g : Globals) (this : BlockId)
    (e : MouseEvent) :
  InSession g this ->
  dragMode_ g = 2%Z ->
  rogue e = false ->
  exists g' d,
    onMouseMove_ this e g = Some g' /\
    drag_offset (block g this) = Some d /\
    let mine := connections (block g this) in
    let db := connectionDB g in
    let snap2 := (SNAP_RADIUS g * SNAP_RADIUS g)%Z in
    match highlightedConnection_ g' with
    | Some c =>
        exists my,
          my ∈ mine /\ offered_in db my c /\
          (dist2 my c (fst d) (snd d) < snap2)%Z /\
          forall my' c', my' ∈ mine -> offered_in db my' c' ->
            (dist2 my c (fst d) (snd d) <= dist2 my' c' (fst d) (snd d))%Z
    | None =>
        forall my' c', my' ∈ mine -> offered_in db my' c' ->
          (snap2 <= dist2 my' c' (fst d) (snd d))%Z
    end.
Proof.
  intros [_ _ _ [start Hstart] Hsvg [ws Hws]] Hmode Hrogue.
  unfold onMouseMove_. rewrite Hrogue, Hws, Hmode.
  cbn [deref mbind option_bind Z.eqb Pos.eqb]. rewrite Hmode.
  unfold drag_offset, need_svg. rewrite Hstart, Hsvg.
  cbn [deref mbind option_bind Z.eqb Pos.eqb].
  set (d := ((fst (surfaceXY (block g this)) - fst start)%Z,
             (snd (surfaceXY (block g this)) - snd start)%Z)).
  eexists _, d. split; [reflexivity|]. split; [reflexivity|].
  cbv zeta.
  set (g1 := update_block this (with_surfaceXY (moveDrag e)) g).
  set (sc := proximity_scan _ _ _ _ _).
  assert (highlightedConnection_
            (emit StopPropagation
               (if deletable (block (update_highlight sc g1) this)
                then emit ShowDeleteArea (update_highlight sc g1)
                else update_highlight sc g1))
          = closestConnection sc) as ->.
  { destruct (deletable _); cbn [highlightedConnection_ emit];
      apply update_highlight_result. }
  pose proof (proximity_scan_inv (closest (connectionDB g1))
                (offered_in (connectionDB g1)) (fst d) (snd d)
                (closest_hit_db (connectionDB g1) (fst d) (snd d))
                (closest_miss_db (connectionDB g1) (fst d) (snd d))
                (SNAP_RADIUS g1 * SNAP_RADIUS g1)%Z
                (connections (block g this))) as Inv.
  fold sc in Inv. unfold scan_inv in Inv.
  change (connectionDB g1) with (connectionDB g) in Inv.
  change (SNAP_RADIUS g1) with (SNAP_RADIUS g) in Inv.
  destruct (closestConnection sc) as [c|].
  - destruct Inv as (my & _ & Hin & Hoff & Hrad & Hlt & Hmin).
    exists my. rewrite Hrad in Hlt, Hmin. auto.
  - destruct Inv as [_ Hmin]. exact Hmin.
Qed.

(** *** Frame lemmas for the store and the trace *)

Lemma block_update_block_eq (b : BlockId) (f : BlockSvg -> BlockSvg)
    (g : Globals) :
  block (update_block b f g) b = f (block g b).
Proof. unfold block, update_block. cbn [blocks set_blocks]. apply lookup_total_insert_eq. Qed.

Lemma block_update_block_ne (b b' : BlockId) (f : BlockSvg -> BlockSvg)
    (g : Globals) :
  b <> b' -> block (update_block b f g) b' = block g b'.
Proof.
  intros Hne. unfold block, update_block. cbn [blocks set_blocks].
  now apply lookup_total_insert_ne.
Qed.

Lemma keeps_blocks_refl (g : Globals) : keeps_blocks g g.
Proof. intros b. repeat split. auto. Qed.

Lemma keeps_blocks_rendered (sel : BlockId) (g : Globals) :
  keeps_blocks g (update_block sel (with_rendered true) g).
Proof.
  intros b. destruct (decide (sel = b)) as [->|Hne].
  - rewrite block_update_block_eq. repeat split.
  - rewrite block_update_block_ne by assumption. repeat split. auto.
Qed.

(** Whenever it returns, [terminateDrag_] has unbound the handlers and
    reset the drag mode, and has left the selection and the blocks
    alone. *)
Lemma terminateDrag_frame (g g1 : Globals) :
  Blockly_terminateDrag_ g = Some g1 ->
  selected g1 = selected g /\
  onMouseUpWrapper_ g1 = None /\ onMouseMoveWrapper_ g1 = None /\
  dragMode_ g1 = 0%Z /\ keeps_blocks g g1 /\
  highlightedConnection_ g1 = highlightedConnection_ g /\
  localConnection_ g1 = localConnection_ g.
Proof.
  unfold Blockly_terminateDrag_, BlockSvg_terminateDrag_.
  cbn [dragMode_ set_onMouseMoveWrapper_ set_onMouseUpWrapper_ selected].
  destruct (dragMode_ g =? 2)%Z.
  - destruct (selected g) as [sel|] eqn:Hsel.
    + change (block (set_onMouseMoveWrapper_ None (set_onMouseUpWrapper_ None g)) sel)
        with (block g sel).
      destruct (dragStartXY_ (block g sel)) as [start|];
        [|discriminate]. cbn [deref mbind option_bind].
      destruct (need_svg (block g sel)); [|discriminate].
      cbn [mbind option_bind].
      destruct (workspace (block g sel)); [|discriminate].
      cbn [mbind option_bind]. intros [= <-].
      destruct (rendered (block g sel)); repeat apply conj;
        first [ exact Hsel | reflexivity | exact (keeps_blocks_rendered sel g) ].
    + cbn [mbind option_bind]. intros [= <-]. repeat apply conj;
        first [ exact Hsel | reflexivity | exact (keeps_blocks_refl g) ].
  - cbn [mbind option_bind]. intros [= <-]. repeat apply conj;
      first [ reflexivity | exact (keeps_blocks_refl g) ].
Qed.

Lemma unselect_frame (this : BlockId) (g g1 : Globals) :
  unselect this g = Some g1 -> g1 = set_selected None g.
Proof.
  unfold unselect.
  destruct (need_svg _); [|discriminate]. cbn [mbind option_bind].
  destruct (deref _); [|discriminate]. cbn [mbind option_bind].
  now intros [= <-].
Qed.

Lemma select_frame (this : BlockId) (g g1 : Globals) :
  select this g = Some g1 ->
  g1 = set_selected (Some this) g /\
  svgGroup_ (block g this) = true /\ is_Some (workspace (block g this)).
Proof.
  unfold select.
  assert (forall g0, blocks g0 = blocks g ->
            (let g := set_selected (Some this) g0 in
             _ ← need_svg (block g this);
             _ ← deref (workspace (block g this)); Some g) = Some g1 ->
            g1 = set_selected (Some this) g0 /\
            svgGroup_ (block g this) = true /\
            is_Some (workspace (block g this))) as K.
  { intros g0 E. cbv zeta. unfold need_svg, block.
    cbn [blocks set_selected]. rewrite E.
    destruct (svgGroup_ _); [|discriminate]. cbn [mbind option_bind deref].
    destruct (workspace _) eqn:W; [|discriminate].
    cbn [mbind option_bind deref]. intros [= <-]. eauto. }
  destruct (selected g) as [old|].
  - destruct (unselect old g) as [g0|] eqn:U; [|discriminate].
    cbn [mbind option_bind]. apply unselect_frame in U. subst g0.
    intros H. apply K in H; [|reflexivity].
    destruct H as (-> & ? & ?). auto.
  - cbn [mbind option_bind]. intros H. now apply K in H.
Qed.

(** A press of the left button on a movable block outside the flyout
    opens a drag session on it, in sticky mode. *)
Lemma onMouseDown_starts_session (g g' : Globals) (this : BlockId)
    (e : MouseEvent) :
  isInFlyout (block g this) = false ->
  isRightButton e = false ->
  movable (block g this) = true ->
  onMouseDown_ this e g = Some g' ->
  InSession g' this /\ dragMode_ g' = 1%Z /\
  highlightedConnection_ g' = highlightedConnection_ g.
Proof.
  intros Hf Hb Hm. unfold onMouseDown_. rewrite Hf, Hb.
  destruct (deref (workspace (block g this))); [|discriminate].
  cbn [mbind option_bind].
  destruct (Blockly_terminateDrag_ g) as [g1|] eqn:T; [|discriminate].
  cbn [mbind option_bind].
  apply terminateDrag_frame in T as (_ & _ & _ & _ & Hk & Hh & _).
  destruct (select this g1) as [g2|] eqn:S; [|discriminate].
  cbn [mbind option_bind].
  apply select_frame in S as (-> & Hsvg & Hws).
  change (block (set_selected (Some this) g1) this) with (block g1 this).
  destruct (Hk this) as (_ & _ & _ & _ & _ & _ & Hmov & _).
  rewrite Hmov, Hm. cbn [negb]. intros [= <-].
  split; [|split; [reflexivity | exact Hh]].
  constructor; try reflexivity.
  - unfold block.
    cbn [blocks emit set_onMouseMoveWrapper_ set_onMouseUpWrapper_
         set_dragMode_ update_block set_blocks].
    rewrite lookup_total_insert_eq. cbn [dragStartXY_ with_dragStartXY_]. eauto.
  - unfold block.
    cbn [blocks emit set_onMouseMoveWrapper_ set_onMouseUpWrapper_
         set_dragMode_ update_block set_blocks].
    rewrite lookup_total_insert_eq. exact Hsvg.
  - unfold block.
    cbn [blocks emit set_onMouseMoveWrapper_ set_onMouseUpWrapper_
         set_dragMode_ update_block set_blocks].
    rewrite lookup_total_insert_eq. exact Hws.
Qed.

Lemma connects_emit (ev : Effect) (g : Globals) :
  connects (effects (emit ev g)) = connects (effects g) ++ connects [ev].
Proof. unfold connects. cbn [effects emit]. apply omap_app. Qed.

Lemma clicks_emit (ev : Effect) (g : Globals) :
  clicks (effects (emit ev g)) = clicks (effects g) ++ clicks [ev].
Proof. unfold clicks. cbn [effects emit]. apply omap_app. Qed.

Lemma ripples_emit (ev : Effect) (g : Globals) :
  ripples (effects (emit ev g)) = ripples (effects g) ++ ripples [ev].
Proof. unfold ripples. cbn [effects emit]. apply omap_app. Qed.

(** Ending the drag of a session always succeeds: it unbinds both
    handlers and resets the drag mode, keeps the selection and the
    highlighted pair, and neither connects nor plays connect feedback. *)
Lemma terminateDrag_in_session (g : Globals) (this : BlockId) :
  InSession g this ->
  exists g1,
    Blockly_terminateDrag_ g = Some g1 /\
    selected g1 = selected g /\
    highlightedConnection_ g1 = highlightedConnection_ g /\
    localConnection_ g1 = localConnection_ g /\
    onMouseUpWrapper_ g1 = None /\
    onMouseMoveWrapper_ g1 = None /\
    dragMode_ g1 = 0%Z /\
    keeps_blocks g g1 /\
    connects (effects g1) = connects (effects g) /\
    clicks (effects g1) = clicks (effects g) /\
    ripples (effects g1) = ripples (effects g) /\
    rendered (block g1 this) =
      rendered (block g this) || (dragMode_ g =? 2)%Z.
Proof.
  intros [Hsel _ _ [start Hstart] Hsvg [ws Hws]].
  unfold Blockly_terminateDrag_, BlockSvg_terminateDrag_.
  cbn [dragMode_ set_onMouseMoveWrapper_ set_onMouseUpWrapper_ selected].
  destruct (Z.eqb_spec (dragMode_ g) 2) as [Hm|Hm].
  - rewrite Hsel.
    change (block (set_onMouseMoveWrapper_ None (set_onMouseUpWrapper_ None g)) this)
      with (block g this).
    unfold need_svg. rewrite Hstart, Hsvg, Hws.
    cbn [deref mbind option_bind].
    eexists. split; [reflexivity|].
    destruct (rendered (block g this)) eqn:Hr; repeat apply conj;
      first
        [ exact Hsel
        | reflexivity
        | exact (keeps_blocks_rendered this g)
        | unfold block, update_block;
          cbn [blocks emit set_dragMode_ set_blocks];
          rewrite lookup_total_insert_eq; cbn [rendered with_rendered];
          now rewrite ?orb_true_r
        | unfold connects, clicks, ripples;
          cbn [effects emit set_dragMode_ update_block set_blocks
               set_onMouseMoveWrapper_ set_onMouseUpWrapper_];
          rewrite ?omap_app; cbn [omap list_omap app];
          rewrite ?app_nil_r; reflexivity ].
  - cbn [mbind option_bind]. eexists. split; [reflexivity|].
    repeat apply conj;
      first
        [ reflexivity
        | exact (keeps_blocks_refl g)
        | now rewrite orb_false_r
        | unfold connects, clicks, ripples;
          cbn [effects emit set_dragMode_ set_onMouseMoveWrapper_
               set_onMouseUpWrapper_];
          rewrite ?omap_app; cbn [omap list_omap app];
          rewrite ?app_nil_r; reflexivity ].
Qed.

Ltac trace_events :=
  unfold connects, clicks, ripples;
  cbn [effects emit set_dragMode_ set_highlightedConnection_
       set_localConnection_ set_selected set_blocks update_block
       set_onMouseMoveWrapper_ set_onMouseUpWrapper_];
  rewrite ?omap_app;
  cbn [omap list_omap app String.eqb Ascii.eqb Bool.eqb];
  rewrite ?app_nil_r.

(** Of two connections of complementary kinds exactly one is superior, so
    the one that [onMouseUp_] picks is the inferior one. *)
Lemma inferior_not_superior (l h : Connection) :
  complementary (kind l) (kind h) = true ->
  isSuperior (if isSuperior l then h else l) = false.
Proof.
  unfold isSuperior, complementary.
  destruct (kind l) eqn:Kl, (kind h) eqn:Kh; intros C;
    try discriminate C; rewrite ?Kl, ?Kh; reflexivity.
Qed.

(** The effect played on a live block: the click cue, and the ripple
    unless the workspace is zoomed out below 1. *)
Lemma connectionUiEffect_live (src : BlockId) (g : Globals) (ws : Workspace) :
  workspace (block g src) = Some ws ->
  svgGroup_ (block g src) = true ->
  connectionUiEffect src g =
  Some (if PrimFloat.ltb (scale ws) PrimFloat.one
        then emit (PlayAudio src "click") g
        else emit (Ripple src) (emit (PlayAudio src "click") g)).
Proof.
  intros Hws Hsvg. unfold connectionUiEffect, need_svg.
  rewrite Hws. cbn [deref mbind option_bind].
  change (block (emit (PlayAudio src "click") g) src) with (block g src).
  rewrite Hsvg. now destruct (PrimFloat.ltb (scale ws) PrimFloat.one).
Qed.

(** C3, amended.  When the pointer is released in a drag session while a
    highlighted candidate exists, exactly one connect operation is
    committed, of the local connection to the highlighted one.  If the
    released block is rendered, as it is once a free drag has been
    terminated, the connect feedback is played exactly once, on the source
    block of whichever of the two connections is not superior: one click
    cue, and one ripple animation provided the workspace scale is at
    least 1.  On a block that is not rendered there is no feedback, and
    below scale 1 no animation is drawn. *)
Theorem onMouseUp_commits_connection (g : Globals) (this : BlockId)
    (e : MouseEvent) (l h : Connection) (ws' : Workspace) :
  InSession g this ->
  highlightedConnection_ g = Some h ->
  localConnection_ g = Some l ->
  complementary (kind l) (kind h) = true ->
  let inferior := if isSuperior l then h else l in
  workspace (block g (sourceBlock_ inferior)) = Some ws' ->
  svgGroup_ (block g (sourceBlock_ inferior)) = true ->
  let fed := rendered (block g this) || (dragMode_ g =? 2)%Z in
  exists g',
    onMouseUp_ this e g = Some g' /\
    connects (effects g') = connects (effects g) ++ [(l, h)] /\
    isSuperior inferior = false /\
    clicks (effects g') =
      clicks (effects g) ++ (if fed then [sourceBlock_ inferior] else []) /\
    ripples (effects g') =
      ripples (effects g) ++
      (if fed && negb (PrimFloat.ltb (scale ws') PrimFloat.one)
       then [sourceBlock_ inferior] else []) /\
    highlightedConnection_ g' = None.
Proof.
  intros Hs Hh Hl Hc inferior Hws' Hsvg' fed.
  destruct (terminateDrag_in_session g this Hs)
    as (g1 & Ht & Hsel1 & Hh1 & Hl1 & _ & _ & _ & Hk & Hc1 & Hk1 & Hr1 & Hfed).
  destruct Hs as [Hsel _ _ _ _ [ws Hws]].
  unfold connects in Hc1. unfold clicks in Hk1. unfold ripples in Hr1.
  destruct (Hk this) as (Hw1 & _).
  destruct (Hk (sourceBlock_ inferior)) as (Hw2 & _ & Hs2 & _).
  unfold onMouseUp_. rewrite Ht. cbn [mbind option_bind].
  rewrite Hsel1, Hsel, Hh1, Hh, Hl1, Hl.
  cbn [truthy andb deref mbind option_bind].
  change (block (emit (Connect l h) g1) this) with (block g1 this).
  rewrite Hfed. fold fed. fold inferior.
  assert (forall gx, blocks gx = blocks g1 ->
                     workspace (block gx this) = Some ws) as Hwx.
  { intros gx E. unfold block. rewrite E. fold (block g1 this). congruence. }
  destruct fed.
  - rewrite (connectionUiEffect_live (sourceBlock_ inferior) _ ws')
      by (change (block (emit (Connect l h) g1) (sourceBlock_ inferior))
            with (block g1 (sourceBlock_ inferior)); congruence).
    cbn [mbind option_bind].
    destruct (PrimFloat.ltb (scale ws') PrimFloat.one);
      (rewrite Hwx by reflexivity); cbn [deref mbind option_bind andb];
      destruct (trashcan ws);
      cbn [highlightedConnection_ emit]; rewrite Hh1, Hh;
      (eexists; split; [reflexivity|]);
      (split; [trace_events; now rewrite Hc1|]);
      (split; [now apply inferior_not_superior|]);
      (split; [trace_events; now rewrite Hk1|]);
      (split; [trace_events; now rewrite Hr1|]);
      reflexivity.
  - cbn [mbind option_bind].
    (rewrite Hwx by reflexivity); cbn [deref mbind option_bind andb];
      destruct (trashcan ws);
      cbn [highlightedConnection_ emit]; rewrite Hh1, Hh;
      (eexists; split; [reflexivity|]);
      (split; [trace_events; now rewrite Hc1|]);
      (split; [now apply inferior_not_superior|]);
      (split; [trace_events; now rewrite Hk1|]);
      (split; [trace_events; now rewrite Hr1|]);
      reflexivity.
Qed.

(** Disposing of the block of a drag session ends the session on the
    spot: both pointer handlers are unbound and the drag
    mode is reset before the block is torn down, so that the pointer-up
    and pointer-move that follow reach no handler and leave every global
    as it was. *)
Lemma dispose_ends_session (g : Globals) (this : BlockId)
    (healStack animate : bool) :
  InSession g this ->
  exists g',
    dispose this healStack animate g = Some g' /\
    onMouseUpWrapper_ g' = None /\
    onMouseMoveWrapper_ g' = None /\
    dragMode_ g' = 0%Z /\
    workspace (block g' this) = None /\
    svgGroup_ (block g' this) = false /\
    forall e, mouseup e g' = Some g' /\ mousemove e g' = Some g'.
Proof.
  intros Hs.
  destruct (terminateDrag_in_session g this Hs)
    as (g1 & Ht & _ & _ & _ & Hup & Hmove & Hmode & Hk & _).
  destruct Hs as [Hsel _ _ _ Hsvg [ws Hws]].
  destruct (Hk this) as (Hw1 & _ & Hs1 & _).
  unfold dispose. rewrite (bool_decide_eq_true_2 _ Hsel), Ht.
  cbn [mbind option_bind].
  assert (exists g2,
             (if animate && rendered (block g1 this)
              then disposeUiEffect this (emit (Unplug this healStack) g1)
              else Some g1) = Some g2 /\
             onMouseUpWrapper_ g2 = None /\ onMouseMoveWrapper_ g2 = None /\
             dragMode_ g2 = 0%Z) as (g2 & -> & Hup2 & Hmove2 & Hmode2).
  { destruct (animate && rendered (block g1 this)).
    - unfold disposeUiEffect, need_svg.
      change (block (emit (Unplug this healStack) g1) this) with (block g1 this).
      rewrite Hw1, Hws. cbn [deref mbind option_bind].
      change (block (emit _ (emit _ g1)) this) with (block g1 this).
      rewrite Hs1, Hsvg. eexists. split; [reflexivity|]. auto.
    - eexists. split; [reflexivity|]. auto. }
  cbn [mbind option_bind]. eexists. split; [reflexivity|].
  split; [exact Hup2|]. split; [exact Hmove2|]. split; [exact Hmode2|].
  split; [|split].
  - rewrite block_update_block_eq. unfold Block_dispose.
    cbn [workspace with_svgGroup_]. rewrite block_update_block_eq. reflexivity.
  - rewrite block_update_block_eq. reflexivity.
  - intros e. unfold mouseup, mousemove.
    cbn [onMouseUpWrapper_ onMouseMoveWrapper_ update_block set_blocks
         Block_dispose].
    rewrite Hup2, Hmove2. split; reflexivity.
Qed.

(** The store is out of reach of the highlight update. *)
Lemma update_highlight_frame (sc : Scan) (g : Globals) :
  blocks (update_highlight sc g) = blocks g /\
  selected (update_highlight sc g) = selected g /\
  onMouseUpWrapper_ (update_highlight sc g) = onMouseUpWrapper_ g /\
  onMouseMoveWrapper_ (update_highlight sc g) = onMouseMoveWrapper_ g /\
  dragMode_ (update_highlight sc g) = dragMode_ g.
Proof.
  unfold update_highlight.
  destruct (highlightedConnection_ g) as [old|] eqn:Hh.
  - destruct (differs (Some old) (closestConnection sc));
      destruct (closestConnection sc) as [c|];
      cbn [highlightedConnection_ set_localConnection_
           set_highlightedConnection_ emit];
      try rewrite Hh;
      try destruct (differs _ _); repeat split.
  - destruct (closestConnection sc) as [c|]; rewrite ?Hh;
      try destruct (differs _ _); repeat split.
Qed.

(** A session stays a session under pointer moves: the handlers, the
    selection, the start of the drag and the block itself are kept from
    one move to the next. *)
Lemma onMouseMove_keeps_session (g g' : Globals) (this : BlockId)
    (e : MouseEvent) :
  InSession g this ->
  onMouseMove_ this e g = Some g' ->
  InSession g' this.
Proof.
  intros [Hsel Hup Hmove Hstart Hsvg Hws]. unfold onMouseMove_.
  destruct (rogue e); [intros [= <-]; now constructor|].
  destruct Hws as [ws Hws]. rewrite Hws. cbn [deref mbind option_bind].
  assert (is_Some (workspace (block g this))) as Hws' by eauto.
  set (step1 := if (dragMode_ g =? 1)%Z then _ else _).
  assert (forall g1, step1 = Some g1 ->
            InSession g1 this /\ True) as K1.
  { intros g1. subst step1.
    destruct (dragMode_ g =? 1)%Z;
      [|intros [= <-]; split; [now constructor|exact I]].
    destruct (beyond_drag_radius _ _ _ _);
      [|intros [= <-]; split; [now constructor|exact I]].
    change (block (set_dragMode_ 2 g) this) with (block g this).
    unfold need_svg. rewrite Hsvg. cbn [mbind option_bind].
    destruct (truthy (parentBlock_ (block g this))).
    - unfold disconnectUiEffect.
      rewrite block_update_block_eq. cbn [workspace with_parentBlock_].
      change (block (set_dragMode_ 2 g) this) with (block g this).
      rewrite Hws. cbn [deref mbind option_bind].
      destruct (PrimFloat.ltb (scale ws) PrimFloat.one); cbn [mbind option_bind];
        intros [= <-]; (split; [|exact I]); constructor; try assumption;
        unfold block;
        cbn [blocks emit set_dragMode_ update_block set_blocks];
        rewrite lookup_total_insert_eq; assumption.
    - cbn [mbind option_bind]. intros [= <-]. split; [now constructor|exact I]. }
  destruct step1 as [g1|]; [|discriminate].
  destruct (K1 g1 eq_refl) as [[Hsel1 Hup1 Hmove1 Hstart1 Hsvg1 Hws1] _].
  cbn [mbind option_bind].
  destruct (dragMode_ g1 =? 2)%Z.
  - destruct (drag_offset (block g1 this)) as [d|]; [|discriminate].
    cbn [mbind option_bind]. unfold need_svg. rewrite Hsvg1.
    cbn [mbind option_bind].
    set (g2 := update_block this (with_surfaceXY (moveDrag e)) g1).
    set (sc := proximity_scan _ _ _ _ _).
    destruct (update_highlight_frame sc g2) as (Hb & Hs & Hu & Hm & _).
    assert (block (update_highlight sc g2) this
            = with_surfaceXY (moveDrag e) (block g1 this)) as Hblk.
    { unfold block at 1. rewrite Hb. apply block_update_block_eq. }
    intros [= <-].
    assert (InSession (update_highlight sc g2) this) as Hin.
    { constructor; rewrite ?Hs, ?Hu, ?Hm, ?Hblk; assumption. }
    destruct (deletable _); destruct Hin; now constructor.
  - cbn [mbind option_bind]. intros [= <-]. now constructor.
Qed.

(** A whole session from the idle state: press on A, drag it next to B in
    two moves, release.  The first move leaves the sticky mode, the second
    one highlights B's connection, the release connects the pair and plays
    the feedback on A, whose connection is the inferior one. *)
Example session_connects :
  (g0 ← onMouseDown_ "A" left_press (idle zoom1);
   g1 ← mousemove move_near g0;
   g2 ← mousemove move_to g1;
   g3 ← mouseup release g2;
   Some (dragMode_ g1, highlightedConnection_ g1, highlightedConnection_ g2,
         connects (effects g3), clicks (effects g3), ripples (effects g3),
         onMouseUpWrapper_ g3))
  = Some (2%Z, None, Some b_next, [(a_prev, b_next)], ["A"], ["A"], None).
Proof. vm_compute. reflexivity. Qed.

Lemma free_drag_in_session (ws : Workspace) : InSession (free_drag ws) "A".
Proof. constructor; try reflexivity; vm_compute; eauto. Qed.

Lemma over_candidate_in_session (ws : Workspace) :
  InSession (over_candidate ws) "A".
Proof. constructor; try reflexivity; vm_compute; eauto. Qed.

Example free_drag_move :
  highlightedConnection_ <$> onMouseMove_ "A" move_to (free_drag zoom1)
  = Some (Some b_next).
Proof. vm_compute. reflexivity. Qed.

Lemma onMouseMove_highlights_nearest_witness :
  exists g' d,
    onMouseMove_ "A" move_to (free_drag zoom1) = Some g' /\
    drag_offset (block (free_drag zoom1) "A") = Some d /\
    let mine := connections (block (free_drag zoom1) "A") in
    let db := connectionDB (free_drag zoom1) in
    let snap2 := (SNAP_RADIUS (free_drag zoom1) * SNAP_RADIUS (free_drag zoom1))%Z in
    match highlightedConnection_ g' with
    | Some c =>
        exists my,
          my ∈ mine /\ offered_in db my c /\
          (dist2 my c (fst d) (snd d) < snap2)%Z /\
          forall my' c', my' ∈ mine -> offered_in db my' c' ->
            (dist2 my c (fst d) (snd d) <= dist2 my' c' (fst d) (snd d))%Z
    | None =>
        forall my' c', my' ∈ mine -> offered_in db my' c' ->
          (snap2 <= dist2 my' c' (fst d) (snd d))%Z
    end.
Proof.
  apply (onMouseMove_highlights_nearest (free_drag zoom1) "A" move_to).
  - constructor; try reflexivity; vm_compute; eauto.
  - reflexivity.
  - reflexivity.
Defined.

Lemma onMouseUp_commits_connection_witness :
  exists g',
    onMouseUp_ "A" release (over_candidate zoom1) = Some g' /\
    connects (effects g') = [(a_prev, b_next)] /\
    isSuperior a_prev = false /\
    clicks (effects g') = ["A"] /\
    ripples (effects g') = ["A"] /\
    highlightedConnection_ g' = None.
Proof.
  apply (onMouseUp_commits_connection (over_candidate zoom1) "A" release
           a_prev b_next zoom1).
  - constructor; try reflexivity; vm_compute; eauto.
  - reflexivity.
  - reflexivity.
  - reflexivity.
  - reflexivity.
  - reflexivity.
Defined.

(** C3, as stated, fails.  In a workspace zoomed out to one half the
    release connects the pair and plays the click cue, but no ripple is
    drawn; on a block that is not rendered the release connects the pair
    without any feedback; and with the selection dropped the release
    commits no connect at all, it throws on the null selection. *)
Lemma onMouseUp_feedback_counterexample :
  (exists g',
     onMouseUp_ "A" release (over_candidate zoom_half) = Some g' /\
     connects (effects g') = [(a_prev, b_next)] /\
     clicks (effects g') = ["A"] /\
     ripples (effects g') = []) /\
  (exists g',
     onMouseUp_ "A" release (unrendered_release zoom1) = Some g' /\
     connects (effects g') = [(a_prev, b_next)] /\
     clicks (effects g') = [] /\
     ripples (effects g') = []) /\
  highlightedConnection_ (set_selected None (over_candidate zoom1))
    = Some b_next /\
  onMouseUp_ "A" release (set_selected None (over_candidate zoom1)) = None.
Proof.
  split; [|split; [|split; reflexivity]];
    eexists; (split; [vm_compute; reflexivity|]); repeat split.
Qed.

End Drag.

(** ** Deferred warning texts: [setWarningText] and its timeouts *)

Module Warning.

(** The closure handed to [setTimeout]: the block, the text and the id it
    will call [setWarningText] with. *)
Record Task : Type := mkTask {
  task_block : string;
  task_text : option string;
  task_id : string
}.

(** What [setWarningText] reads and writes on a block.  [warning] is the
    warning icon with its texts by warning id, if the block has one. *)
Record BlockSvg : Type := mkBlockSvg {
  workspace : bool;                       (* the block is in a workspace *)
  isInFlyout : bool;
  rendered : bool;
  warning : option (gmap string string)
}.

#[export] Instance BlockSvg_inhabited : Inhabited BlockSvg :=
  populate (mkBlockSvg false false false None).

Inductive Call : Type :=
| Render (block : string)
| BumpNeighbours (block : string).

(** [pid_] is the database of warning PIDs.  It is a property of the
    function object [setWarningText]; every block reaches that function
    through the prototype, so [this.setWarningText.pid_] is one table for
    all blocks, absent until the first call creates it.  [timeouts] holds
    the timeouts of the window that have neither fired nor been cleared,
    and [fresh] is the handle that the next [setTimeout] returns. *)
Record State : Type := mkState {
  dragMode_ : Z;
  pid_ : option (gmap string nat);
  timeouts : gmap nat Task;
  fresh : nat;
  blocks : gmap string BlockSvg;
  calls : list Call
}.

(** [for (var n in pid_) { clearTimeout(pid_[n]); delete pid_[n]; }],
    as far as the timeouts go. *)
Definition clear_all (table : gmap string nat) (ts : gmap nat Task)
    : gmap nat Task :=
  foldr (fun entry ts => delete (snd entry) ts) ts (map_to_list table).

(** Modelled from the spec: the warning icon keeps one text per warning
    id; setting the empty text removes the entry, and [getText] gives the
    texts that remain. *)
Definition Warning_setText (text id : string) (w : gmap string string)
    : gmap string string :=
  if String.eqb text "" then delete id w else <[id := text]> w.

Definition Warning_getText (w : gmap string string) : list string :=
  snd <$> map_to_list w.

Definition with_warning (w : option (gmap string string)) (b : BlockSvg)
    : BlockSvg :=
  mkBlockSvg (workspace b) (isInFlyout b) (rendered b) w.

Definition setWarningText (this : string) (text : option string)
    (opt_id : option string) (st : State) : State :=
  (* Create a database of warning PIDs. *)
  let table := default ∅ (pid_ st) in
  let id := default ""%string opt_id in
  let '(table, pending) :=
    if String.eqb id "" then
      (* Kill all previous pending processes. *)
      (∅, clear_all table (timeouts st))
    else
      match table !! id with
      | Some pid =>
          if negb (Nat.eqb pid 0)
          then (delete id table, delete pid (timeouts st))
          else (table, timeouts st)
      | None => (table, timeouts st)
      end in
  if (dragMode_ st =? 2)%Z then
    (* Don't change the warning text during a drag. *)
    let pid := fresh st in
    mkState (dragMode_ st) (Some (<[id := pid]> table))
      (<[pid := mkTask this text id]> pending) (S pid) (blocks st) (calls st)
  else
    let b := blocks st !!! this in
    let text := if isInFlyout b then None else text in
    let '(w, changedState) :=
      match text with
      | Some s =>
          match warning b with
          | None => (Some (Warning_setText s id ∅), true)
          | Some w => (Some (Warning_setText s id w), false)
          end
      | None =>
          match warning b with
          | Some w =>
              if String.eqb id "" then (None, true)
              else
                let oldText := Warning_getText w in
                let w' := Warning_setText "" id w in
                let newText := Warning_getText w' in
                (match newText with [] => None | _ => Some w' end,
                 bool_decide (oldText = newText))
          | None => (None, false)
          end
      end in
    mkState (dragMode_ st) (Some table) pending (fresh st)
      (<[this := with_warning w b]> (blocks st))
      (if changedState && rendered b
       then calls st ++ [Render this; BumpNeighbours this]
       else calls st).

(** The timeout [pid] fires: its closure runs unless the block has been
    deleted in the meantime. *)
Definition fire (pid : nat) (st : State) : State :=
  match timeouts st !! pid with
  | None => st
  | Some task =>
      let st :=
        mkState (dragMode_ st) (pid_ st) (delete pid (timeouts st))
          (fresh st) (blocks st) (calls st) in
      if workspace (blocks st !!! task_block task) then
        let st :=
          mkState (dragMode_ st) (delete (task_id task) <$> pid_ st)
            (timeouts st) (fresh st) (blocks st) (calls st) in
        setWarningText (task_block task) (task_text task)
          (Some (task_id task)) st
      else st
  end.

(** The deferred updates that are outstanding for a block and a warning
    id. *)
Definition outstanding (this id : string) (st : State) : list (nat * Task) :=
  filter (fun entry => task_block (snd entry) = this /\ task_id (snd entry) = id)
         (map_to_list (timeouts st)).

(** Every outstanding timeout is the one that the table holds for its
    warning id, and handles are positive and below the next handle. *)
Definition registered (st : State) : Prop :=
  (0 < fresh st)%nat /\
  forall pid task,
    timeouts st !! pid = Some task ->
    (0 < pid < fresh st)%nat /\
    exists table, pid_ st = Some table /\ table !! task_id task = Some pid.

(** Two blocks in a workspace during a free drag; nothing is scheduled
    yet. *)
Definition dragging : State :=
  mkState 2 None ∅ 1
    (<["A" := mkBlockSvg true false true None]>
     (<["B" := mkBlockSvg true false true None]> ∅)) [].

Definition end_drag (st : State) : State :=
  mkState 0 (pid_ st) (timeouts st) (fresh st) (blocks st) (calls st).

(** *** The timeouts stay registered *)

Lemma clear_all_lookup_list (l : list (string * nat)) (ts : gmap nat Task)
    (pid : nat) :
  foldr (fun entry ts => delete (snd entry) ts) ts l !! pid =
  if bool_decide (pid ∈ (snd <$> l)) then None else ts !! pid.
Proof.
  induction l as [|[k p] l IH]; cbn [foldr fmap list_fmap snd].
  - rewrite bool_decide_eq_false_2; [reflexivity | apply not_elem_of_nil].
  - destruct (decide (p = pid)) as [->|Hne].
    + rewrite lookup_delete_eq, bool_decide_eq_true_2; [reflexivity|].
      apply list_elem_of_here.
    + rewrite lookup_delete_ne, IH by assumption.
      destruct (decide (pid ∈ (snd <$> l))) as [Hin|Hnin].
      * rewrite !bool_decide_eq_true_2; [reflexivity | | assumption].
        now apply list_elem_of_further.
      * rewrite !bool_decide_eq_false_2; [reflexivity | | assumption].
        intros Hc. apply elem_of_cons in Hc as [Hc|Hc]; congruence.
Qed.

Lemma clear_all_registered (table : gmap string nat) (ts : gmap nat Task)
    (pid : nat) (id : string) :
  table !! id = Some pid -> clear_all table ts !! pid = None.
Proof.
  intros Hl. unfold clear_all. rewrite clear_all_lookup_list.
  rewrite bool_decide_eq_true_2; [reflexivity|].
  apply list_elem_of_fmap. exists (id, pid). split; [reflexivity|].
  now apply elem_of_map_to_list.
Qed.

Lemma clear_all_subset (table : gmap string nat) (ts : gmap nat Task)
    (pid : nat) (task : Task) :
  clear_all table ts !! pid = Some task -> ts !! pid = Some task.
Proof.
  unfold clear_all. rewrite clear_all_lookup_list.
  now destruct (bool_decide _).
Qed.

(** What the first half of [setWarningText] leaves of the table and of
    the timeouts: nothing is outstanding for the id of the call, and what
    is outstanding is still registered. *)
Lemma cancel_step (st : State) (id : string) :
  registered st ->
  let table := default ∅ (pid_ st) in
  let res :=
    if String.eqb id "" then (∅, clear_all table (timeouts st))
    else
      match table !! id with
      | Some pid =>
          if negb (Nat.eqb pid 0)
          then (delete id table, delete pid (timeouts st))
          else (table, timeouts st)
      | None => (table, timeouts st)
      end in
  forall pid task,
    snd res !! pid = Some task ->
    timeouts st !! pid = Some task /\
    task_id task <> id /\
    fst res !! task_id task = Some pid.
Proof.
  intros [Hfresh Hreg] table res pid task. subst res.
  destruct (String.eqb_spec id "") as [->|Hid]; cbn [fst snd].
  - intros Hl. pose proof (clear_all_subset _ _ _ _ Hl) as Hl0.
    destruct (Hreg _ _ Hl0) as (_ & tb & Htb & Hin).
    subst table. rewrite Htb in Hl. simpl in Hl.
    now rewrite (clear_all_registered _ _ _ _ Hin) in Hl.
  - destruct (table !! id) as [p0|] eqn:Hp0.
    + destruct (Nat.eqb_spec p0 0) as [->|Hnz]; cbn [negb fst snd].
      * intros Hl. destruct (Hreg _ _ Hl) as ((Hpos & _) & tb & Htb & Hin).
        subst table. rewrite Htb in Hp0. simpl in Hp0.
        split; [assumption|]. rewrite Htb. simpl.
        split; [|assumption]. intros E. rewrite E in Hin.
        rewrite Hin in Hp0. injection Hp0 as ->. lia.
      * intros Hl. apply lookup_delete_Some in Hl as [Hne Hl].
        destruct (Hreg _ _ Hl) as (_ & tb & Htb & Hin).
        subst table. rewrite Htb in Hp0 |- *. simpl in Hp0 |- *.
        assert (task_id task <> id) as Hd.
        { intros E. rewrite E in Hin. congruence. }
        split; [assumption|]. split; [assumption|].
        rewrite lookup_delete_ne by congruence. assumption.
    + cbn [fst snd]. intros Hl.
      destruct (Hreg _ _ Hl) as (_ & tb & Htb & Hin).
      subst table. rewrite Htb in Hp0 |- *. simpl in Hp0 |- *.
      split; [assumption|]. split; [|assumption].
      intros E. rewrite E in Hin. congruence.
Qed.

Lemma setWarningText_registered (this : string) (text opt_id : option string)
    (st : State) :
  registered st -> registered (setWarningText this text opt_id st).
Proof.
  intros Hinv. pose proof (cancel_step st (default ""%string opt_id) Hinv) as Hc.
  cbv zeta in Hc. destruct Hinv as [Hfresh Hreg].
  unfold setWarningText.
  set (id := default ""%string opt_id) in *.
  set (table := default ∅ (pid_ st)) in *.
  destruct (if String.eqb id "" then _ else _) as [table' pending] eqn:Hres.
  cbn [fst snd] in Hc.
  destruct (dragMode_ st =? 2)%Z.
  - split; cbn [fresh timeouts pid_]; [lia|].
    intros pid task Hl.
    destruct (decide (fresh st = pid)) as [<-|Hne].
    + rewrite lookup_insert_eq in Hl. injection Hl as <-.
      split; [lia|]. eexists. split; [reflexivity|].
      cbn [task_id]. apply lookup_insert_eq.
    + rewrite lookup_insert_ne in Hl by assumption.
      destruct (Hc _ _ Hl) as (Hl0 & Hd & Hin).
      destruct (Hreg _ _ Hl0) as (Hb & _).
      split; [lia|]. eexists. split; [reflexivity|].
      rewrite lookup_insert_ne by congruence. assumption.
  - destruct (match (if isInFlyout _ then None else text) with
              | Some _ => _ | None => _ end) as [w changed].
    split; cbn [fresh timeouts pid_]; [assumption|].
    intros pid task Hl. destruct (Hc _ _ Hl) as (Hl0 & Hd & Hin).
    destruct (Hreg _ _ Hl0) as (Hb & _).
    split; [assumption|]. eexists. split; [reflexivity | assumption].
Qed.

Lemma fire_registered (pid : nat) (st : State) :
  registered st -> registered (fire pid st).
Proof.
  intros [Hfresh Hreg]. unfold fire.
  destruct (timeouts st !! pid) as [task|] eqn:Hl; [|split; assumption].
  cbn [blocks]. destruct (Hreg _ _ Hl) as (_ & tb & Htb & Hin).
  assert (forall p t, delete pid (timeouts st) !! p = Some t ->
                      task_id t <> task_id task) as Hother.
  { intros p t Hp E. apply lookup_delete_Some in Hp as [Hne Hp].
    destruct (Hreg _ _ Hp) as (_ & tb' & Htb' & Hin').
    rewrite E in Hin'. congruence. }
  destruct (workspace _).
  - apply setWarningText_registered. split; cbn [fresh timeouts pid_]; [assumption|].
    intros p t Hp. pose proof (Hother _ _ Hp) as Hd.
    apply lookup_delete_Some in Hp as [Hne Hp].
    destruct (Hreg _ _ Hp) as (Hb & tb' & Htb' & Hin').
    split; [assumption|]. rewrite Htb'. cbn [fmap option_fmap option_map].
    eexists. split; [reflexivity|]. now rewrite lookup_delete_ne.
  - split; cbn [fresh timeouts pid_]; [assumption|].
    intros p t Hp. apply lookup_delete_Some in Hp as [Hne Hp].
    now apply Hreg.
Qed.

(** At most one deferred update is outstanding per warning id, and so
    per block and warning id. *)
Lemma outstanding_at_most_one (this id : string) (st : State) :
  registered st -> (length (outstanding this id st) <= 1)%nat.
Proof.
  intros [_ Hreg]. unfold outstanding.
  pose proof (NoDup_fst_map_to_list (timeouts st)) as Hnd.
  assert (forall e, e ∈ map_to_list (timeouts st) -> timeouts st !! fst e = Some (snd e)) as Hall.
  { intros [p t] He. now apply elem_of_map_to_list in He. }
  induction (map_to_list (timeouts st)) as [|[p t] l IH]; [simpl; lia|].
  rewrite filter_cons. cbn [fmap list_fmap fst] in Hnd.
  apply NoDup_cons in Hnd as [Hp Hnd].
  assert (length (filter (fun entry => task_block (snd entry) = this /\ task_id (snd entry) = id) l) <= 1)%nat as IH'.
  { apply IH; [assumption|]. intros e He. apply Hall. now apply list_elem_of_further. }
  destruct (decide _) as [[Hb Hi]|]; [|assumption].
  cbn [length]. cbn [snd] in Hb, Hi.
  destruct (filter _ l) as [|[p' t'] l'] eqn:Hf; [simpl; lia|].
  exfalso.
  assert ((p', t') ∈ filter (fun entry => task_block (snd entry) = this /\ task_id (snd entry) = id) l) as Hin
    by (rewrite Hf; apply list_elem_of_here).
  apply list_elem_of_filter in Hin as [[_ Hi'] Hin]. cbn [snd] in Hi'.
  pose proof (Hall (p, t) (list_elem_of_here _ _)) as H1.
  pose proof (Hall (p', t') (list_elem_of_further _ _ _ Hin)) as H2.
  cbn [fst snd] in H1, H2.
  destruct (Hreg _ _ H1) as (_ & tb & Htb & Hin1).
  destruct (Hreg _ _ H2) as (_ & tb' & Htb' & Hin2).
  rewrite Hi in Hin1. rewrite Hi' in Hin2.
  assert (p = p') as <- by congruence.
  apply Hp. apply list_elem_of_fmap. exists (p, t'). split; [reflexivity | assumption].
Qed.

(** A call with a warning id cancels the update outstanding for that id,
    whichever block it was scheduled for. *)
Lemma setWarningText_cancels_id (this : string) (text : option string)
    (id : string) (st : State) (pid : nat) (task : Task) :
  registered st ->
  timeouts st !! pid = Some task ->
  task_id task = id ->
  timeouts (setWarningText this text (Some id) st) !! pid = None.
Proof.
  intros Hinv Hl Hid. pose proof (cancel_step st id Hinv) as Hc.
  cbv zeta in Hc. destruct Hinv as [Hfresh Hreg].
  destruct (Hreg _ _ Hl) as (Hb & _).
  unfold setWarningText. cbn [default from_option].
  change (from_option (fun x => x) ""%string (Some id)) with id in *.
  destruct (if String.eqb id "" then _ else _) as [table' pending] eqn:Hres.
  cbn [fst snd] in Hc.
  assert (pending !! pid = None) as Hnone.
  { destruct (pending !! pid) as [t|] eqn:Hp; [|reflexivity].
    destruct (Hc _ _ Hp) as (Hl0 & Hd & _). congruence. }
  destruct (dragMode_ st =? 2)%Z.
  - cbn [timeouts]. rewrite lookup_insert_ne by lia. exact Hnone.
  - destruct (match (if isInFlyout _ then None else text) with
              | Some _ => _ | None => _ end) as [w changed].
    exact Hnone.
Qed.

(** C9 at the failing input.  During a drag block A defers a warning text
    under the id "w"; a call on block B with the same id then clears A's
    timeout and leaves B's as the only one.  When the drag is over only
    B receives a warning: A's update is lost. *)
Theorem setWarningText_cancels_other_block :
  let st1 := setWarningText "A" (Some "first"%string) (Some "w"%string) dragging in
  let st2 := setWarningText "B" (Some "second"%string) (Some "w"%string) st1 in
  let st3 := fire 2 (fire 1 (end_drag st2)) in
  outstanding "A" "w" st1 = [(1%nat, mkTask "A" (Some "first"%string) "w")] /\
  outstanding "A" "w" st2 = [] /\
  outstanding "B" "w" st2 = [(2%nat, mkTask "B" (Some "second"%string) "w")] /\
  warning (blocks st3 !!! "A") = None /\
  warning (blocks st3 !!! "B") = Some {["w"%string := "second"%string]}.
Proof. vm_compute. repeat split. Qed.

(** A call without an id on one block kills what another block has
    outstanding under any id. *)
Example setWarningText_no_id_kills_other_block :
  let st1 := setWarningText "A" (Some "first"%string) (Some "w"%string) dragging in
  let st2 := setWarningText "B" None None st1 in
  outstanding "A" "w" st2 = [].
Proof. vm_compute. reflexivity. Qed.

Lemma dragging_registered : registered dragging.
Proof. split; [simpl; lia|]. intros pid task Hl. simpl in Hl. discriminate. Qed.

End Warning.

(** ** More on the geometry: what [render] leaves on the block *)

Module GeometryProps.
Import Geometry.

(** Every point the pen visits, the intermediate points of a polyline
    included. *)
Definition exec_points (pen : Pen) (c : PathCmd) : list (Z * Z) :=
  match c with
  | SvgLineRel pts =>
      snd (fold_left (fun acc d => (shift (fst acc) d, snd acc ++ [shift (fst acc) d]))
                     pts (cur pen, []))
  | _ => [cur (exec pen c)]
  end.

Fixpoint points_from (pen : Pen) (cs : list PathCmd) : list (Z * Z) :=
  match cs with
  | [] => []
  | c :: cs' => exec_points pen c ++ points_from (exec pen c) cs'
  end.

Definition points (cs : list PathCmd) : list (Z * Z) := points_from pen0 cs.

(** The four vertices of the notch on the left edge, met going down, and
    of the notch on the right edge, met going up: on the left they follow
    the moveto and the corner, on the right they are followed by the run
    to the top, the corner and the closepath. *)
Definition left_notch (cs : list PathCmd) : list (Z * Z) :=
  take 4 (drop 2 (points cs)).

Definition right_notch (cs : list PathCmd) : list (Z * Z) :=
  take 4 (drop (length (points cs) - 7) (points cs)).

Definition at_origin (xy : Z * Z) (pts : list (Z * Z)) : list (Z * Z) :=
  map (shift xy) pts.

(** Two blocks that stack: [left_block] offers a next connection,
    [right_block] a previous connection and carries an icon. *)
Definition left_block : Block :=
  mkBlock None (Some (mkConnection 0 0))
    [mkInput NEXT_STATEMENT []] 0 false.
Definition right_block : Block :=
  mkBlock (Some (mkConnection 0 0)) None
    [mkInput DUMMY_INPUT [mkField "icon" FieldImage (mkSize 40 60)]] 0 false.

Lemma renderCompute_inputs (b b' : Block) :
  inputList b = inputList b' -> renderCompute_ b = renderCompute_ b'.
Proof. unfold renderCompute_. now intros ->. Qed.

Lemma renderCompute_height_min (b : Block) :
  NOTCH_HEIGHT + 16 + CORNER_RADIUS * 2 <= m_height (renderCompute_ b).
Proof.
  unfold renderCompute_. destruct (scanInputs (inputList b)) as [stmt ic].
  cbn [m_height]. apply Z.le_max_r.
Qed.

(** X1.  The metrics of a block: a statement slot is reported exactly when
    some input is a statement input; the height is never below 56 and
    leaves 16 units around the icon; the width is the icon's width plus 16;
    without an icon the block measures 16 by 56. *)
Theorem renderCompute_metrics (b : Block) :
  let m := renderCompute_ b in
  hasStatement m = existsb (fun i => is_NEXT_STATEMENT (input_type i)) (inputList b) /\
  56 <= m_height m /\
  match icon m with
  | Some f =>
      m_width m = size_width (getSize f) + 16 /\
      size_height (getSize f) + 16 <= m_height m /\
      (40 <= size_height (getSize f) -> m_height m = size_height (getSize f) + 16)
  | None => m_width m = 16 /\ m_height m = 56
  end.
Proof.
  pose proof (scanInputs_hasStatement (inputList b)) as Hs.
  unfold renderCompute_. destruct (scanInputs (inputList b)) as [stmt ic].
  cbn [fst] in Hs. subst stmt.
  cbn [hasStatement m_height m_width icon].
  unfold SEP_SPACE_X, SEP_SPACE_Y, NOTCH_HEIGHT, CORNER_RADIUS.
  split; [reflexivity|]. split; [lia|].
  destruct ic as [f|]; cbn [size_width size_height]; repeat split; lia.
Qed.

Ltac draw_cases b m :=
  destruct b as [[?|] [?|] ? ? ?]; destruct m as [[|] ? ? ?];
  cbv [drawn_block pathString positioned renderDraw_ renderDrawLeft_
       renderDrawBottom_ renderDrawRight_ renderDrawTop_ push on_blk blk
       steps truthy previousConnection nextConnection set_height
       set_rendered set_previousConnection set_nextConnection inputList
       height rendered moveTo hasStatement m_height m_width icon app
       fmap option_fmap option_map CORNER_RADIUS].

Lemma renderDraw_block (xy : Z * Z) (m : Metrics) (b : Block) :
  let b' := drawn_block (renderDraw_ xy m b) in
  rendered b' = rendered b /\
  inputList b' = inputList b /\
  height b' = m_height m + (if truthy (nextConnection b) then 4 else 0) /\
  previousConnection b' =
    (fun _ => mkConnection (fst xy) (snd xy + m_height m - 8))
      <$> previousConnection b /\
  nextConnection b' =
    (fun _ => mkConnection (fst xy + m_width m) (snd xy + m_height m - 8))
      <$> nextConnection b.
Proof. draw_cases b m; repeat split; try reflexivity; lia. Qed.

Lemma renderDraw_again (xy : Z * Z) (m : Metrics) (b : Block) :
  renderDraw_ xy m (drawn_block (renderDraw_ xy m b)) = renderDraw_ xy m b.
Proof. draw_cases b m; reflexivity. Qed.

(** X2.  What [render] leaves on the block: the block is flagged rendered,
    its height is the measured height, plus 4 when it has a next
    connection; the previous connection is anchored on the left edge and
    the next connection on the right edge, both 8 units above the bottom,
    so that the two sit on one horizontal line, the width apart. *)
Theorem render_places_connections (xy : Z * Z) (b : Block) :
  let m := renderCompute_ b in
  let b' := drawn_block (render xy b) in
  rendered b' = true /\
  inputList b' = inputList b /\
  height b' = m_height m + (if truthy (nextConnection b) then 4 else 0) /\
  previousConnection b' =
    (fun _ => mkConnection (fst xy) (snd xy + m_height m - 8))
      <$> previousConnection b /\
  nextConnection b' =
    (fun _ => mkConnection (fst xy + m_width m) (snd xy + m_height m - 8))
      <$> nextConnection b.
Proof.
  unfold render.
  rewrite (renderCompute_inputs (set_rendered true b) b) by (destruct b; reflexivity).
  cbv zeta.
  destruct (renderDraw_block xy (renderCompute_ b) (set_rendered true b))
    as (Hr & Hi & Hh & Hp & Hn).
  rewrite Hr, Hi, Hh, Hp, Hn. destruct b; repeat split.
Qed.

(** X3.  Rendering is idempotent: a second [render] at the same place
    gives the same path, the same icon placement and the same block; in
    particular the 4 units that the next connection adds to the height do
    not pile up. *)
Theorem render_idempotent (xy : Z * Z) (b : Block) :
  render xy (drawn_block (render xy b)) = render xy b.
Proof.
  unfold render.
  rewrite (renderCompute_inputs (set_rendered true b) b) by (destruct b; reflexivity).
  set (m := renderCompute_ b).
  destruct (renderDraw_block xy m (set_rendered true b)) as (Hr & Hi & _).
  set (b1 := drawn_block (renderDraw_ xy m (set_rendered true b))) in *.
  assert (set_rendered true b1 = b1) as ->
    by (destruct b1; cbn in Hr |- *; destruct b; cbn in Hr; now subst).
  rewrite (renderCompute_inputs b1 b) by (rewrite Hi; destruct b; reflexivity).
  fold m. subst b1. apply renderDraw_again.
Qed.

Ltac outline_points :=
  cbv [points points_from exec_points exec fold_left cur go shift fst snd
       pen0 sub arc_rel NOTCH_PATH_UP NOTCH_PATH_DOWN TOP_LEFT_CORNER
       TOP_LEFT_CORNER_START HAT_TOP_LEFT_CORNER HAT_TOP_LEFT_CORNER_START
       CORNER_RADIUS HAT_CORNER_RADIUS NOTCH_HEIGHT app].

Lemma renderDraw_within_height (xy : Z * Z) (m : Metrics) (b : Block) :
  56 <= m_height m ->
  Forall (fun p => 0 <= snd p <= m_height m)
         (points (pathString (renderDraw_ xy m b))).
Proof.
  intros Hm. draw_cases b m; cbv [m_height] in Hm; outline_points;
    repeat (apply List.Forall_cons; [cbn [snd]; lia|]); apply List.Forall_nil.
Qed.

(** X4.  The outline never leaves the band between the top of the block
    and its measured height: every point that the path visits, the
    vertices of the notches and of the statement recess included, has an
    ordinate between 0 and the height. *)
Theorem render_within_height (xy : Z * Z) (b : Block) :
  Forall (fun p => 0 <= snd p <= m_height (renderCompute_ b))
         (points (pathString (render xy b))).
Proof.
  unfold render.
  rewrite (renderCompute_inputs (set_rendered true b) b) by (destruct b; reflexivity).
  apply renderDraw_within_height.
  pose proof (renderCompute_height_min b) as H.
  unfold NOTCH_HEIGHT, CORNER_RADIUS in H. lia.
Qed.

Lemma left_notch_shape (xy : Z * Z) (m : Metrics) (b : Block) :
  truthy (previousConnection b) = true ->
  left_notch (pathString (renderDraw_ xy m b)) =
  [(0, m_height m - 44); (8, m_height m - 36);
   (8, m_height m - 20); (0, m_height m - 12)].
Proof.
  unfold left_notch. draw_cases b m; intros H; try discriminate H;
    outline_points; cbv [take drop]; repeat (f_equal; try lia).
Qed.

Lemma right_notch_shape (xy : Z * Z) (m : Metrics) (b : Block) :
  truthy (nextConnection b) = true ->
  right_notch (pathString (renderDraw_ xy m b)) =
  [(m_width m, m_height m - 12); (m_width m + 8, m_height m - 20);
   (m_width m + 8, m_height m - 36); (m_width m, m_height m - 44)].
Proof.
  unfold right_notch. draw_cases b m; intros H; try discriminate H;
    outline_points; cbv [take drop length Z.of_nat Nat.sub];
    repeat (f_equal; try lia).
Qed.

(** X5.  Stacked blocks interlock.  When the previous connection of a
    rendered block sits on the next connection of another rendered block,
    the notch cut into the left edge of the one is, vertex for vertex, the
    notch standing out of the right edge of the other, met the other way
    round. *)
Theorem notches_interlock (xy_a xy_b : Z * Z) (a b : Block) :
  is_Some (nextConnection a) ->
  nextConnection (drawn_block (render xy_a a)) =
    previousConnection (drawn_block (render xy_b b)) ->
  at_origin xy_b (left_notch (pathString (render xy_b b))) =
  rev (at_origin xy_a (right_notch (pathString (render xy_a a)))).
Proof.
  intros [n Hn] Hc. unfold render in *.
  rewrite (renderCompute_inputs (set_rendered true a) a) in *
    by (destruct a; reflexivity).
  rewrite (renderCompute_inputs (set_rendered true b) b) in *
    by (destruct b; reflexivity).
  destruct (renderDraw_block xy_a (renderCompute_ a) (set_rendered true a))
    as (_ & _ & _ & _ & Ha).
  destruct (renderDraw_block xy_b (renderCompute_ b) (set_rendered true b))
    as (_ & _ & _ & Hb & _).
  cbv zeta in Ha, Hb. rewrite Ha, Hb in Hc.
  replace (nextConnection (set_rendered true a)) with (nextConnection a) in Hc
    by now destruct a.
  replace (previousConnection (set_rendered true b))
    with (previousConnection b) in Hc by now destruct b.
  rewrite Hn in Hc.
  destruct (previousConnection b) as [p|] eqn:Hp; [|discriminate Hc].
  cbn [fmap option_fmap option_map] in Hc. injection Hc as Hx Hy.
  rewrite left_notch_shape by (destruct b; cbn in Hp |- *; now rewrite Hp).
  rewrite right_notch_shape by (destruct a; cbn in Hn |- *; now rewrite Hn).
  destruct xy_a as [xa ya], xy_b as [xb yb]. cbn [fst snd] in Hx, Hy.
  cbv [at_origin map rev app shift fst snd].
  repeat (f_equal; try lia).
Qed.

Lemma notches_interlock_witness :
  at_origin (16, -20) (left_notch (pathString (render (16, -20) right_block))) =
  rev (at_origin (0, 0) (right_notch (pathString (render (0, 0) left_block)))).
Proof.
  apply (notches_interlock (0, 0) (16, -20) left_block right_block).
  - eexists. reflexivity.
  - reflexivity.
Defined.

End GeometryProps.

(** ** More on the footprint *)

Module FootprintProps.
Import Footprint.

Section Stack_induction.
Variable P : Block -> Prop.
Hypothesis last_case :
  forall h w p o next,
    getNextBlock (mkBlock h w p o next) = None -> P (mkBlock h w p o next).
Hypothesis chained_case :
  forall h w p o nb, P nb -> P (mkBlock h w p o (Some (Some nb))).

Fixpoint stack_ind (b : Block) : P b :=
  match b with
  | mkBlock h w p o next =>
      match next as n return P (mkBlock h w p o n) with
      | Some (Some nb) => chained_case h w p o nb (stack_ind nb)
      | Some None => last_case h w p o (Some None) eq_refl
      | None => last_case h w p o None eq_refl
      end
  end.
End Stack_induction.

(** X9.  The width of a footprint is the width of the widest block of the
    stack: no block of the stack is wider, and one of them is that
    wide. *)
Theorem getHeightWidth_widest (b : Block) :
  (forall x, x ∈ stack b -> width x <= hw_width (getHeightWidth b)) /\
  (exists x, x ∈ stack b /\ width x = hw_width (getHeightWidth b)).
Proof.
  induction b as [h w p o next Hlast | h w p o nb [IHle [x [Hx Hw]]]]
    using stack_ind.
  - rewrite getHeightWidth_eq, Hlast. cbn [hw_width width].
    assert (stack (mkBlock h w p o next) = [mkBlock h w p o next]) as ->
      by (destruct next as [[?|]|]; [discriminate Hlast | reflexivity ..]).
    split.
    + intros x Hx. apply list_elem_of_singleton in Hx as ->. reflexivity.
    + eexists. split; [apply list_elem_of_here | reflexivity].
  - rewrite getHeightWidth_eq. cbn [getNextBlock nextConnection hw_width width].
    change (stack (mkBlock h w p o (Some (Some nb))))
      with (mkBlock h w p o (Some (Some nb)) :: stack nb).
    split.
    + intros y Hy. apply elem_of_cons in Hy as [->|Hy].
      * cbn [width]. lia.
      * specialize (IHle y Hy). lia.
    + destruct (Z.max_spec w (hw_width (getHeightWidth nb))) as [[_ ->]|[_ ->]].
      * exists x. split; [now apply list_elem_of_further | exact Hw].
      * eexists. split; [apply list_elem_of_here | reflexivity].
Qed.

End FootprintProps.

(** ** More on moves and on the grid *)

Module MoveProps.
Import Move.

Local Open Scope Q_scope.

(** Two connections at the same place, as numbers. *)
Definition same_place (c c' : Connection) : Prop :=
  x_ c' == x_ c /\ y_ c' == y_ c.

(** A connection keeps its offset from the block when the block goes from
    [xy] to [xy']. *)
Definition same_offset (xy xy' : Q * Q) (c c' : Connection) : Prop :=
  x_ c' - fst xy' == x_ c - fst xy /\ y_ c' - snd xy' == y_ c - snd xy.

(** A block in the DOM: the block, and the translations of the elements
    met between its svg root and the canvas. *)
Record Placed : Type := mkPlaced { blk : Block; ups : list (Q * Q) }.

Definition surfaceXY (p : Placed) : Q * Q :=
  getRelativeToSurfaceXY (ups p) (blk p).

(** Modelled from the spec: [setParent] of the base class records the new
    parent of the block. *)
Definition Block_setParent (newParent : option string) (b : Block) : Block :=
  mkBlock (workspace b) newParent (isInFlyout b) (rendered b) (translate b)
    (connections b) (childBlocks_ b).

(** [setParent], for a block that has an svg root.  The new parent comes
    with the translations met from its own svg root up to the canvas,
    which are those above the block once its root has been appended to
    the parent's. *)
Definition setParent (newParent : option (string * list (Q * Q)))
    (p : Placed) : Placed :=
  let p :=
    if truthy (parentBlock_ (blk p)) then
      (* Move this block up the DOM.  Keep track of x/y translations. *)
      mkPlaced (set_translate (surfaceXY p) (blk p)) []
    else p in
  let p := mkPlaced (Block_setParent (fst <$> newParent) (blk p)) (ups p) in
  match newParent with
  | Some (_, parentUps) =>
      let oldXY := surfaceXY p in
      let p := mkPlaced (blk p) parentUps in
      let newXY := surfaceXY p in
      (* Move the connections to match the child's new position. *)
      mkPlaced
        (moveConnections_ (fst newXY - fst oldXY) (snd newXY - snd oldXY)
           (blk p))
        (ups p)
  | None => p
  end.

(** The leaf of the stack, below its parent in the DOM, and a block that
    could take it. *)
Definition placed_leaf : Placed := mkPlaced leaf_block [translate stack_block].
Definition other_parent : string * list (Q * Q) := ("other"%string, [(100, 40)]).

(** A block on whole pixels: its translation, the translations above it
    and the coordinates of all its connections are whole numbers.  The
    numbers of the source are doubles; on whole pixels their sums and
    differences are exact, and the rationals of the model compute what
    the code computes. *)
Definition on_pixels (up : list (Q * Q)) (b : Block) : bool :=
  forallb whole_xy (translate b :: up) &&
  forallb (fun c => whole (x_ c) && whole (y_ c)) (all_connections b).

(** What the second argument of [setParent] brings along is on whole
    pixels. *)
Definition parent_on_pixels (newParent : option (string * list (Q * Q)))
    : bool :=
  match newParent with
  | Some (_, parentUps) => forallb whole_xy parentUps
  | None => true
  end.

#[local] Instance Math_round_proper : Proper (Qeq ==> Qeq) Math_round.
Proof.
  intros x y E. unfold Math_round.
  apply inject_Z_injective, Qfloor_comp. now rewrite E.
Qed.

Lemma moveBy_fields (up : list (Q * Q)) (dx dy : Q) (b : Block) :
  workspace (moveBy up dx dy b) = workspace b /\
  parentBlock_ (moveBy up dx dy b) = parentBlock_ b /\
  isInFlyout (moveBy up dx dy b) = isInFlyout b /\
  rendered (moveBy up dx dy b) = rendered b.
Proof. destruct b as [? ? ? [|] ? ? ?]; repeat split. Qed.

Lemma all_rendered_moveConnections_ (dx dy : Q) (b : Block) :
  all_rendered (moveConnections_ dx dy b) = all_rendered b.
Proof.
  induction b as [ws parent flyout r tr cs children IH] using Block_tree_ind.
  destruct r; [|reflexivity]. cbn [moveConnections_ negb all_rendered andb].
  induction children as [|c children IHc]; [reflexivity|].
  inversion IH as [|? ? Hc Hcs]; subst. cbn [map forallb].
  now rewrite Hc, IHc.
Qed.

Lemma all_rendered_moveBy (up : list (Q * Q)) (dx dy : Q) (b : Block) :
  all_rendered (moveBy up dx dy b) = all_rendered b.
Proof.
  unfold moveBy. rewrite all_rendered_moveConnections_.
  apply all_rendered_set_translate.
Qed.

Lemma all_connections_moveBy (up : list (Q * Q)) (dx dy : Q) (b : Block) :
  all_rendered b = true ->
  all_connections (moveBy up dx dy b) =
  map (Connection_moveBy dx dy) (all_connections b).
Proof.
  intros R. unfold moveBy.
  rewrite moveConnections_rendered
    by (rewrite all_rendered_set_translate; exact R).
  now rewrite all_connections_set_translate.
Qed.

(** X10.  Moves of a rendered stack on the canvas by whole pixels compose
    and undo: when the stack is on whole pixels, two moves in a row leave
    the block and every connection where a single move by the sum of the
    offsets leaves them, and a move followed by the opposite move puts the
    block and every connection back. *)
Theorem moveBy_composes (dx1 dy1 dx2 dy2 : Z) (b : Block) :
  all_rendered b = true ->
  on_pixels [] b = true ->
  let move (dx dy : Z) := moveBy [] (inject_Z dx) (inject_Z dy) in
  let twice := move dx2 dy2 (move dx1 dy1 b) in
  let once := move (dx1 + dx2)%Z (dy1 + dy2)%Z b in
  let back := move (- dx1)%Z (- dy1)%Z (move dx1 dy1 b) in
  (fst (getRelativeToSurfaceXY [] twice) == fst (getRelativeToSurfaceXY [] once) /\
   snd (getRelativeToSurfaceXY [] twice) == snd (getRelativeToSurfaceXY [] once) /\
   Forall2 same_place (all_connections once) (all_connections twice)) /\
  (fst (getRelativeToSurfaceXY [] back) == fst (getRelativeToSurfaceXY [] b) /\
   snd (getRelativeToSurfaceXY [] back) == snd (getRelativeToSurfaceXY [] b) /\
   Forall2 same_place (all_connections b) (all_connections back)).
Proof.
  intros R _ move twice once back. subst twice once back move. cbv beta.
  rewrite !surfaceXY_moveBy. cbn [fst snd].
  rewrite !all_connections_moveBy
    by (rewrite ?all_rendered_moveBy; exact R).
  rewrite !map_map, !inject_Z_plus, !inject_Z_opp.
  split; (split; [ring|]); (split; [ring|]).
  - apply Forall2_fmap, Forall_Forall2_diag, Forall_forall.
    intros c _. split; cbn; ring.
  - apply Forall2_fmap_r, Forall_Forall2_diag, Forall_forall.
    intros c _. split; cbn; ring.
Qed.

Lemma moveBy_composes_witness :
  Forall2 same_place (all_connections stack_block)
    (all_connections
       (moveBy [] (inject_Z (- 3)) (inject_Z (- 7))
          (moveBy [] (inject_Z 3) (inject_Z 7) stack_block))).
Proof.
  apply (moveBy_composes 3 7 1 1 stack_block); reflexivity.
Defined.


(** What [snapToGrid] returns is the block itself or the block moved by
    a whole number of pixels each way. *)
Lemma snapToGrid_returns (dragMode_ : Z) (up : list (Q * Q)) (b b' : Block) :
  snapToGrid dragMode_ up b = Returns b' ->
  b' = b \/ exists dx dy : Z, b' = moveBy up (inject_Z dx) (inject_Z dy) b.
Proof.
  unfold snapToGrid.
  destruct (workspace b) as [ws|]; [|intros [= <-]; now left].
  destruct (negb _); [intros [= <-]; now left|].
  destruct (truthy _); [intros [= <-]; now left|].
  destruct (isInFlyout b); [intros [= <-]; now left|].
  destruct (gridOptions (options ws)) as [grid|]; [|intros [= <-]; now left].
  destruct (negb (snap grid)); [intros [= <-]; now left|].
  destruct (negb (exact_grid _ _)); [discriminate|].
  cbv zeta. destruct (_ || _); intros [= <-]; [|now left].
  right. unfold Math_round. eauto.
Qed.



Lemma snapToGrid_fields (dragMode_ : Z) (up : list (Q * Q)) (b b' : Block) :
  snapToGrid dragMode_ up b = Returns b' ->
  workspace b' = workspace b /\
  parentBlock_ b' = parentBlock_ b /\
  isInFlyout b' = isInFlyout b.
Proof.
  intros E.
  destruct (snapToGrid_returns _ _ _ _ E) as [->|(dx & dy & ->)]; [auto|].
  destruct (moveBy_fields up (inject_Z dx) (inject_Z dy) b)
    as (H1 & H2 & H3 & _).
  auto.
Qed.

#[local] Instance whole_proper : Proper (Qeq ==> eq) whole.
Proof.
  intros x y E. unfold whole. rewrite (Qfloor_comp x y E).
  apply eq_true_iff_eq. rewrite !Qeq_bool_iff. now rewrite E.
Qed.

Lemma centre_stays (C : Z) (k : positive) (x : Q) :
  (C mod Zpos k~0 = Zpos k)%Z ->
  x == inject_Z C ->
  let s := inject_Z (Zpos k~0) in
  Math_round (Math_round ((x - s / 2) / s) * s + s / 2 - x) == 0.
Proof.
  intros Hc Hx s. subst s. rewrite Hx.
  pose proof (snap_offset_integer C k) as H. cbv zeta in H.
  assert (C / Zpos k~0 * Zpos k~0 + Zpos k = C)%Z as E.
  { pose proof (Z.div_mod C (Zpos k~0)) as D. lia. }
  rewrite E in H.
  set (r := Math_round _) in *.
  assert (r == inject_Z C + r - inject_Z C) as -> by ring.
  rewrite H. ring.
Qed.

(** X12.  On a grid of even spacing a block at an integer position lands
    on the centre of its grid cell, and there it stays: a second snap
    returns the block unchanged. *)
Theorem snapToGrid_settles (b : Block) (ws : Workspace) (grid : GridOptions)
    (X Y : Z) (k : positive) :
  workspace b = Some ws ->
  gridOptions (options ws) = Some grid ->
  snap grid = true ->
  getParent b = None ->
  isInFlyout b = false ->
  translate b = (inject_Z X, inject_Z Y) ->
  spacing grid = inject_Z (Zpos k~0) ->
  exists b1,
    snapToGrid 0 [] b = Returns b1 /\
    fst (getRelativeToSurfaceXY [] b1) == inject_Z (X / Zpos k~0 * Zpos k~0 + Zpos k) /\
    snd (getRelativeToSurfaceXY [] b1) == inject_Z (Y / Zpos k~0 * Zpos k~0 + Zpos k) /\
    snapToGrid 0 [] b1 = Returns b1.
Proof.
  intros W G S Pn F T Sp.
  destruct (snapToGrid_on_grid b ws grid X Y k W G S Pn F T Sp)
    as (b1 & E & Hx & Hy).
  exists b1. split; [exact E|]. split; [exact Hx|]. split; [exact Hy|].
  destruct (snapToGrid_fields 0 [] b b1 E) as (W1 & P1 & F1).
  unfold snapToGrid. unfold getParent in *.
  rewrite W1, W, P1, Pn, F1, F, G, S, Sp. cbn [Z.eqb negb truthy].
  assert (exact_grid (inject_Z (Zpos k~0)) [translate b1] = true) as ->.
  { unfold exact_grid, whole_xy. cbn [forallb].
    unfold getRelativeToSurfaceXY in Hx, Hy. cbn [fold_left] in Hx, Hy.
    now rewrite Hx, Hy, !whole_inject_Z. }
  cbn [negb].
  assert (forall C, (C / Zpos k~0 * Zpos k~0 + Zpos k) mod Zpos k~0 = Zpos k)%Z as Hmod.
  { intros C. rewrite Z.add_comm, Z.mod_add by lia.
    apply Z.mod_small. lia. }
  cbv zeta.
  set (dx := Math_round (_ - fst _)). set (dy := Math_round (_ - snd _)).
  assert (dx == 0) as Ex by (eapply centre_stays; [apply Hmod | exact Hx]).
  assert (dy == 0) as Ey by (eapply centre_stays; [apply Hmod | exact Hy]).
  now rewrite (proj2 (Qeq_bool_iff dx 0) Ex), (proj2 (Qeq_bool_iff dy 0) Ey).
Qed.

Lemma snapToGrid_settles_witness :
  exists b1,
    snapToGrid 0 [] loose_block = Returns b1 /\
    fst (getRelativeToSurfaceXY [] b1) == inject_Z 30 /\
    snd (getRelativeToSurfaceXY [] b1) == inject_Z 50 /\
    snapToGrid 0 [] b1 = Returns b1.
Proof.
  apply (snapToGrid_settles loose_block grid20 (mkGridOptions true 20) 33 58 10);
    reflexivity.
Defined.

Lemma all_connections_Block_setParent (np : option string) (b : Block) :
  all_connections (Block_setParent np b) = all_connections b.
Proof. now destruct b. Qed.

Lemma all_rendered_Block_setParent (np : option string) (b : Block) :
  all_rendered (Block_setParent np b) = all_rendered b.
Proof. now destruct b. Qed.

(** X13.  Pulling a block out of its parent leaves it where it was: after
    [setParent(null)] the block sits directly on the canvas, at the place
    on the surface that it had under its parent, it has no parent, and
    none of its connections has moved. *)
Theorem setParent_null_keeps_place (p : Placed) :
  let p' := setParent None p in
  surfaceXY p' = surfaceXY p /\
  (truthy (parentBlock_ (blk p)) = true -> ups p' = []) /\
  parentBlock_ (blk p') = None /\
  all_connections (blk p') = all_connections (blk p).
Proof.
  destruct p as [b up]. unfold setParent. cbn [blk ups fmap option_fmap option_map].
  destruct (truthy (parentBlock_ b)); cbn [blk ups].
  - unfold surfaceXY. cbn [blk ups]. repeat split.
    rewrite all_connections_Block_setParent.
    apply all_connections_set_translate.
  - repeat split; [discriminate|]. apply all_connections_Block_setParent.
Qed.

(** X14.  [setParent] takes the connections along.  Whether a rendered
    stack that is on whole pixels is pulled out of its parent, put under
    a new one that is on whole pixels too, or both, every connection of
    the stack keeps its offset from the block: the connections move on
    the surface exactly as the block does. *)
Theorem setParent_keeps_offsets (newParent : option (string * list (Q * Q)))
    (p : Placed) :
  all_rendered (blk p) = true ->
  on_pixels (ups p) (blk p) = true ->
  parent_on_pixels newParent = true ->
  let p' := setParent newParent p in
  Forall2 (same_offset (surfaceXY p) (surfaceXY p'))
          (all_connections (blk p)) (all_connections (blk p')).
Proof.
  intros R _ _ p'. subst p'.
  destruct p as [b up]. cbn [blk] in R. unfold setParent. cbn [blk ups].
  set (p1 := if truthy (parentBlock_ b) then _ else _).
  assert (surfaceXY p1 = surfaceXY (mkPlaced b up) /\
          all_connections (blk p1) = all_connections b /\
          all_rendered (blk p1) = true) as (Hxy & Hcs & Hr).
  { subst p1. destruct (truthy (parentBlock_ b)); [|auto].
    unfold surfaceXY. cbn [blk ups].
    rewrite all_connections_set_translate, all_rendered_set_translate. auto. }
  rewrite <- Hxy, <- Hcs. clearbody p1. clear Hxy Hcs R b up.
  destruct p1 as [b up]. cbn [blk ups] in *.
  set (b1 := Block_setParent _ b).
  assert (all_connections b1 = all_connections b) as Hc1
    by apply all_connections_Block_setParent.
  assert (all_rendered b1 = true) as Hr1
    by (subst b1; now rewrite all_rendered_Block_setParent).
  assert (forall u, getRelativeToSurfaceXY u b1 = getRelativeToSurfaceXY u b)
    as Hx1 by now destruct b.
  destruct newParent as [[name parentUps]|]; cbn [blk ups].
  - unfold surfaceXY. cbn [blk ups].
    rewrite moveConnections_rendered by exact Hr1.
    rewrite Hc1, !Hx1.
    assert (forall dx dy u,
              getRelativeToSurfaceXY u (moveConnections_ dx dy b1)
              = getRelativeToSurfaceXY u b) as ->.
    { intros dx dy u. rewrite <- Hx1. unfold getRelativeToSurfaceXY.
      f_equal. now destruct b1 as [? ? ? [|] ? ? ?]. }
    apply Forall2_fmap_r, Forall_Forall2_diag, Forall_forall.
    intros c _. split; cbn; ring.
  - unfold surfaceXY. cbn [blk ups]. rewrite Hc1, Hx1.
    apply Forall_Forall2_diag, Forall_forall. intros c _. split; reflexivity.
Qed.

Lemma setParent_keeps_offsets_witness :
  Forall2 (same_offset (surfaceXY placed_leaf)
             (surfaceXY (setParent (Some other_parent) placed_leaf)))
          (all_connections (blk placed_leaf))
          (all_connections (blk (setParent (Some other_parent) placed_leaf))).
Proof.
  apply (setParent_keeps_offsets (Some other_parent) placed_leaf); reflexivity.
Defined.

End MoveProps.

(** ** The drag controller: sessions, thresholds and the highlighted pair *)

Module DragProps.
Import Drag.

(** What reaches the controller: a press on a block, a pointer move or a
    release delivered to the document, the disposal of a block. *)
Inductive Event : Type :=
| Press (this : BlockId) (e : MouseEvent)
| Move (e : MouseEvent)
| Release (e : MouseEvent)
| Disposal (this : BlockId) (healStack animate : bool).

Definition handle (ev : Event) (g : Globals) : option Globals :=
  match ev with
  | Press this e => onMouseDown_ this e g
  | Move e => mousemove e g
  | Release e => mouseup e g
  | Disposal this healStack animate => dispose this healStack animate g
  end.

Fixpoint handle_all (evs : list Event) (g : Globals) : option Globals :=
  match evs with
  | [] => Some g
  | ev :: evs => g ← handle ev g; handle_all evs g
  end.

(** The calls of a trace that turn the highlight of a connection on or
    off. *)
Inductive Light : Type := On (c : Connection) | Off (c : Connection).

Definition lights (evs : list Effect) : list Light :=
  omap (fun ev =>
          match ev with
          | Highlight c => Some (On c)
          | Unhighlight c => Some (Off c)
          | _ => None
          end) evs.

(** The connection that a run of highlight calls leaves lit.  The run is
    out of step, [None], if it lights a connection while another one is
    lit or puts out a connection that is not the lit one. *)
Definition light_step (st : option (option Connection)) (l : Light)
    : option (option Connection) :=
  match st, l with
  | Some None, On c => Some (Some c)
  | Some (Some c'), Off c => if bool_decide (c = c') then Some None else None
  | _, _ => None
  end.

Definition lit (evs : list Effect) : option (option Connection) :=
  fold_left light_step (lights evs) (Some None).

(** The connection lit on the screen is the one that the global names. *)
Definition Lit (g : Globals) : Prop :=
  lit (effects g) = Some (highlightedConnection_ g).

(** The disconnect cues of a trace. *)
Definition disconnects (evs : list Effect) : list BlockId :=
  omap (fun ev =>
          match ev with
          | PlayAudio b name =>
              if String.eqb name "disconnect" then Some b else None
          | _ => None
          end) evs.

(** The disposal animations of a trace. *)
Definition deletes (evs : list Effect) : list BlockId :=
  omap (fun ev => match ev with DisposeUiEffect b => Some b | _ => None end) evs.

(** Block A hangs under B. *)
Definition nested (ws : Workspace) : Globals :=
  mkGlobals (Some "A") 1 None None (Some "A") (Some "A") 20 5
    (<["A" := mkBlockSvg (Some ws) (Some "B") true true false true true
               (Some (200, 100)) (200, 100) [a_prev]]>
     (two_blocks ws true None (200, 100)))
    [c_next; b_next; a_prev] [].

Definition sticky (ws : Workspace) : Globals :=
  mkGlobals (Some "A") 1 None None (Some "A") (Some "A") 20 5
    (two_blocks ws true (Some (200, 100)) (200, 100))
    [c_next; b_next; a_prev] [].

Definition right_press : MouseEvent := mkMouseEvent true false (200, 100) false.
Definition nudge : MouseEvent := mkMouseEvent false false (203, 104) false.
Definition pull : MouseEvent := mkMouseEvent false false (203, 105) false.

(** A workspace zoomed out to the double nearest to 5/6, and a move of 6
    units along the x axis: on the screen, in doubles, a distance of 5. *)
Definition zoom_out : Workspace :=
  mkWorkspace true (PrimFloat.div (to_double 5) (to_double 6)).
Definition six_along : MouseEvent := mkMouseEvent false false (206, 100) false.
Definition drop_on_bin : MouseEvent := mkMouseEvent false false (66, 2) true.

Ltac lights_events :=
  unfold lights;
  cbn [effects emit set_dragMode_ set_highlightedConnection_
       set_localConnection_ set_selected set_blocks update_block
       set_onMouseMoveWrapper_ set_onMouseUpWrapper_ Block_dispose];
  rewrite ?omap_app;
  cbn [omap list_omap app];
  rewrite ?app_nil_r.

(** What a step of the controller leaves alone when it touches neither the
    session nor the highlighted pair. *)
Definition same_drag (g g1 : Globals) : Prop :=
  selected g1 = selected g /\
  dragMode_ g1 = dragMode_ g /\
  highlightedConnection_ g1 = highlightedConnection_ g /\
  localConnection_ g1 = localConnection_ g /\
  onMouseUpWrapper_ g1 = onMouseUpWrapper_ g /\
  onMouseMoveWrapper_ g1 = onMouseMoveWrapper_ g /\
  lights (effects g1) = lights (effects g) /\
  connects (effects g1) = connects (effects g).

Lemma same_drag_refl (g : Globals) : same_drag g g.
Proof. repeat split. Qed.

Lemma terminateDrag_lights (g g1 : Globals) :
  Blockly_terminateDrag_ g = Some g1 ->
  lights (effects g1) = lights (effects g) /\
  connects (effects g1) = connects (effects g).
Proof.
  unfold Blockly_terminateDrag_, BlockSvg_terminateDrag_.
  cbn [dragMode_ set_onMouseMoveWrapper_ set_onMouseUpWrapper_ selected].
  destruct (dragMode_ g =? 2)%Z.
  - destruct (selected g) as [sel|].
    + change (block (set_onMouseMoveWrapper_ None (set_onMouseUpWrapper_ None g)) sel)
        with (block g sel).
      destruct (dragStartXY_ (block g sel)) as [start|]; [|discriminate].
      cbn [deref mbind option_bind].
      destruct (need_svg (block g sel)); [|discriminate].
      cbn [mbind option_bind].
      destruct (workspace (block g sel)); [|discriminate].
      cbn [deref mbind option_bind]. intros [= <-].
      destruct (rendered (block g sel)); split;
        first [ now lights_events | now trace_events ].
    + cbn [mbind option_bind]. intros [= <-].
      split; [now lights_events | now trace_events].
  - cbn [mbind option_bind]. intros [= <-].
    split; [now lights_events | now trace_events].
Qed.

Lemma disposeUiEffect_same (this : BlockId) (g g1 : Globals) :
  disposeUiEffect this g = Some g1 -> same_drag g g1 /\ blocks g1 = blocks g.
Proof.
  unfold disposeUiEffect.
  destruct (deref _); [|discriminate]. cbn [mbind option_bind].
  destruct (need_svg _); [|discriminate]. cbn [mbind option_bind].
  intros [= <-]. repeat split; first [now lights_events | now trace_events].
Qed.

Lemma connectionUiEffect_same (this : BlockId) (g g1 : Globals) :
  connectionUiEffect this g = Some g1 -> same_drag g g1 /\ blocks g1 = blocks g.
Proof.
  unfold connectionUiEffect.
  destruct (deref _); [|discriminate]. cbn [mbind option_bind].
  destruct (PrimFloat.ltb _ _).
  - intros [= <-]. repeat split; first [now lights_events | now trace_events].
  - destruct (need_svg _); [|discriminate]. cbn [mbind option_bind].
    intros [= <-]. repeat split; first [now lights_events | now trace_events].
Qed.

Lemma disconnectUiEffect_same (this : BlockId) (g g1 : Globals) :
  disconnectUiEffect this g = Some g1 -> same_drag g g1 /\ blocks g1 = blocks g.
Proof.
  unfold disconnectUiEffect.
  destruct (deref _); [|discriminate]. cbn [mbind option_bind].
  destruct (PrimFloat.ltb _ _); intros [= <-];
    repeat split; first [now lights_events | now trace_events].
Qed.

(** Disposal leaves the highlighted pair alone, and a session that is
    closed stays closed. *)
Lemma dispose_frame (this : BlockId) (healStack animate : bool)
    (g g1 : Globals) :
  dispose this healStack animate g = Some g1 ->
  highlightedConnection_ g1 = highlightedConnection_ g /\
  localConnection_ g1 = localConnection_ g /\
  lights (effects g1) = lights (effects g) /\
  connects (effects g1) = connects (effects g) /\
  (dragMode_ g = 0%Z -> dragMode_ g1 = 0%Z) /\
  (onMouseUpWrapper_ g = None -> onMouseUpWrapper_ g1 = None) /\
  (onMouseMoveWrapper_ g = None -> onMouseMoveWrapper_ g1 = None).
Proof.
  unfold dispose.
  set (t := if bool_decide _ then _ else _).
  assert (forall g0, t = Some g0 ->
            highlightedConnection_ g0 = highlightedConnection_ g /\
            localConnection_ g0 = localConnection_ g /\
            lights (effects g0) = lights (effects g) /\
            connects (effects g0) = connects (effects g) /\
            (dragMode_ g = 0%Z -> dragMode_ g0 = 0%Z) /\
            (onMouseUpWrapper_ g = None -> onMouseUpWrapper_ g0 = None) /\
            (onMouseMoveWrapper_ g = None -> onMouseMoveWrapper_ g0 = None))
    as K.
  { intros g0. subst t. destruct (bool_decide _).
    - intros T. destruct (terminateDrag_lights _ _ T) as [L C].
      apply terminateDrag_frame in T as (_ & U & M & D & _ & H & Lc).
      repeat split; auto.
    - intros [= <-]. repeat split; auto. }
  destruct t as [g0|]; [|discriminate]. cbn [mbind option_bind].
  destruct (K g0 eq_refl) as (H0 & Lc0 & L0 & C0 & D0 & U0 & M0). clear K.
  destruct (animate && rendered (block g0 this)).
  - destruct (disposeUiEffect this (emit (Unplug this healStack) g0))
      as [g2|] eqn:E; [|discriminate].
    cbn [mbind option_bind]. intros [= <-].
    apply disposeUiEffect_same in E
      as ((_ & D & H & Lc & U & M & L & C) & _).
    cbn [highlightedConnection_ localConnection_ dragMode_ onMouseUpWrapper_
         onMouseMoveWrapper_ emit] in D, H, Lc, U, M.
    repeat split;
      cbn [highlightedConnection_ localConnection_ dragMode_
           onMouseUpWrapper_ onMouseMoveWrapper_ update_block set_blocks
           Block_dispose effects]; try congruence.
    + rewrite L. lights_events. exact L0.
    + rewrite C. trace_events. exact C0.
    + intros ?. rewrite D. auto.
    + intros ?. rewrite U. auto.
    + intros ?. rewrite M. auto.
  - cbn [mbind option_bind]. intros [= <-].
    repeat split;
      cbn [highlightedConnection_ localConnection_ dragMode_
           onMouseUpWrapper_ onMouseMoveWrapper_ update_block set_blocks
           Block_dispose effects]; auto.
Qed.

Lemma lit_emit (ev : Effect) (g : Globals) :
  lit (effects (emit ev g)) =
  fold_left light_step (lights [ev]) (lit (effects g)).
Proof.
  unfold lit, lights. cbn [effects emit].
  now rewrite omap_app, fold_left_app.
Qed.

Lemma Lit_same (g g1 : Globals) :
  highlightedConnection_ g1 = highlightedConnection_ g ->
  lights (effects g1) = lights (effects g) ->
  Lit g -> Lit g1.
Proof. unfold Lit, lit. now intros -> ->. Qed.

Lemma Lit_update_highlight (sc : Scan) (g : Globals) :
  Lit g -> Lit (update_highlight sc g).
Proof.
  unfold Lit. intros L. unfold update_highlight, differs.
  destruct (highlightedConnection_ g) as [old|] eqn:Hh;
    destruct (closestConnection sc) as [c|] eqn:Hc.
  - destruct (decide (Some old = Some c)) as [E|E].
    + rewrite (bool_decide_eq_true_2 _ E). cbn [negb]. rewrite Hh.
      rewrite bool_decide_eq_true_2 by congruence. cbn [negb].
      now rewrite Hh.
    + rewrite (bool_decide_eq_false_2 _ E). cbn [negb].
      cbn [highlightedConnection_ set_localConnection_
           set_highlightedConnection_ emit].
      rewrite bool_decide_eq_false_2 by discriminate. cbn [negb].
      change (lit (effects (emit (Highlight c) (emit (Unhighlight old) g)))
              = Some (Some c)).
      rewrite !lit_emit, L. cbn [lights omap list_omap fold_left light_step].
      now rewrite bool_decide_eq_true_2.
  - rewrite bool_decide_eq_false_2 by discriminate. cbn [negb].
    change (lit (effects (emit (Unhighlight old) g)) = Some None).
    rewrite lit_emit, L. cbn [lights omap list_omap fold_left light_step].
    now rewrite bool_decide_eq_true_2.
  - rewrite Hh. rewrite bool_decide_eq_false_2 by discriminate. cbn [negb].
    change (lit (effects (emit (Highlight c) g)) = Some (Some c)).
    now rewrite lit_emit, L.
  - now rewrite Hh.
Qed.

Lemma Lit_onMouseDown_ (this : BlockId) (e : MouseEvent) (g g' : Globals) :
  Lit g -> onMouseDown_ this e g = Some g' -> Lit g'.
Proof.
  intros L. unfold onMouseDown_.
  destruct (isInFlyout _).
  { intros [= <-]. revert L. apply Lit_same; [reflexivity | now lights_events]. }
  destruct (deref _); [|discriminate]. cbn [mbind option_bind].
  destruct (Blockly_terminateDrag_ g) as [g1|] eqn:T; [|discriminate].
  cbn [mbind option_bind].
  destruct (terminateDrag_lights _ _ T) as [L1 _].
  apply terminateDrag_frame in T as (_ & _ & _ & _ & _ & H1 & _).
  destruct (select this g1) as [g2|] eqn:S; [|discriminate].
  cbn [mbind option_bind].
  apply select_frame in S as (-> & _ & _).
  assert (Lit g1) as Lg1 by (revert L; now apply Lit_same).
  destruct (isRightButton e);
    [|destruct (negb _)]; intros [= <-]; revert Lg1;
    (apply Lit_same; [reflexivity | now lights_events]).
Qed.

Lemma Lit_onMouseMove_ (this : BlockId) (e : MouseEvent) (g g' : Globals) :
  Lit g -> onMouseMove_ this e g = Some g' -> Lit g'.
Proof.
  intros L. unfold onMouseMove_.
  destruct (rogue e).
  { intros [= <-]. revert L. apply Lit_same; [reflexivity | now lights_events]. }
  destruct (deref _) as [ws|]; [|discriminate]. cbn [mbind option_bind].
  set (step1 := if (dragMode_ g =? 1)%Z then _ else _).
  assert (forall g1, step1 = Some g1 -> Lit g1) as K1.
  { intros g1. subst step1.
    destruct (dragMode_ g =? 1)%Z; [|now intros [= <-]].
    destruct (beyond_drag_radius _ _ _ _); [|now intros [= <-]].
    destruct (need_svg _); [|discriminate]. cbn [mbind option_bind].
    destruct (truthy _).
    - destruct (disconnectUiEffect _ _) as [g2|] eqn:E; [|discriminate].
      cbn [mbind option_bind]. intros [= <-].
      apply disconnectUiEffect_same in E as ((_ & _ & H & _ & _ & _ & Li & _) & _).
      revert L. apply Lit_same; [exact H|].
      lights_events. exact Li.
    - cbn [mbind option_bind]. intros [= <-].
      revert L. apply Lit_same; [reflexivity | now lights_events]. }
  destruct step1 as [g1|]; [|discriminate]. cbn [mbind option_bind].
  specialize (K1 g1 eq_refl).
  destruct (dragMode_ g1 =? 2)%Z.
  - destruct (drag_offset _) as [d|]; [|discriminate].
    cbn [mbind option_bind].
    destruct (need_svg _); [|discriminate]. cbn [mbind option_bind].
    set (g2 := update_block this (with_surfaceXY (moveDrag e)) g1).
    set (sc := proximity_scan _ _ _ _ _).
    assert (Lit (update_highlight sc g2)) as L2.
    { apply Lit_update_highlight. revert K1.
      apply Lit_same; reflexivity. }
    intros [= <-]. revert L2.
    destruct (deletable _);
      (apply Lit_same; [reflexivity | now lights_events]).
  - cbn [mbind option_bind]. intros [= <-]. revert K1.
    apply Lit_same; [reflexivity | now lights_events].
Qed.

Lemma Lit_dispose (this : BlockId) (healStack animate : bool)
    (g g' : Globals) :
  Lit g -> dispose this healStack animate g = Some g' -> Lit g'.
Proof.
  intros L E. apply dispose_frame in E as (H & _ & Li & _).
  revert L. now apply Lit_same.
Qed.

Lemma Lit_onMouseUp_ (this : BlockId) (e : MouseEvent) (g g' : Globals) :
  Lit g -> onMouseUp_ this e g = Some g' -> Lit g'.
Proof.
  intros L. unfold onMouseUp_.
  destruct (Blockly_terminateDrag_ g) as [g1|] eqn:T; [|discriminate].
  cbn [mbind option_bind].
  destruct (terminateDrag_lights _ _ T) as [L1 _].
  apply terminateDrag_frame in T as (_ & _ & _ & _ & _ & H1 & _).
  assert (Lit g1) as Lg1 by (revert L; now apply Lit_same). clear L L1 H1.
  set (body := if truthy (selected g1) && _ then _ else _).
  assert (forall g2, body = Some g2 -> Lit g2) as K.
  { intros g2. subst body.
    destruct (truthy (selected g1) && truthy (highlightedConnection_ g1)).
    - destruct (deref (localConnection_ g1)) as [l|]; [|discriminate].
      cbn [mbind option_bind].
      destruct (highlightedConnection_ g1) as [h|] eqn:Hh; [|discriminate].
      cbn [mbind option_bind].
      set (fb := if rendered _ then _ else _).
      assert (forall g3, fb = Some g3 -> Lit g3) as K3.
      { intros g3. subst fb. destruct (rendered _).
        - intros E. apply connectionUiEffect_same in E
            as ((_ & _ & H & _ & _ & _ & Li & _) & _).
          revert Lg1. apply Lit_same; [exact H|].
          rewrite Li. now lights_events.
        - intros [= <-]. revert Lg1.
          apply Lit_same; [reflexivity | now lights_events]. }
      destruct fb as [g3|]; [|discriminate]. cbn [mbind option_bind].
      specialize (K3 g3 eq_refl).
      destruct (deref (workspace (block g3 this))) as [ws|]; [|discriminate].
      cbn [mbind option_bind]. intros [= <-].
      destruct (trashcan ws); [|exact K3].
      revert K3. apply Lit_same; [reflexivity | now lights_events].
    - destruct (negb _); [|now intros [= <-]].
      destruct (deref (selected g1)) as [sel|]; [|discriminate].
      cbn [mbind option_bind].
      destruct (deletable (block g1 sel)); [|now intros [= <-]].
      destruct (deref (workspace (block g1 this))) as [ws|]; [|discriminate].
      cbn [mbind option_bind].
      destruct (isDeleteArea e); [|now intros [= <-]].
      destruct (dispose sel false true _) as [g3|] eqn:E; [|discriminate].
      cbn [mbind option_bind]. intros [= <-].
      apply Lit_dispose in E.
      + revert E. apply Lit_same; [reflexivity | now lights_events].
      + destruct (trashcan ws); [|exact Lg1].
        revert Lg1. apply Lit_same; [reflexivity | now lights_events]. }
  destruct body as [g2|]; [|discriminate]. cbn [mbind option_bind].
  specialize (K g2 eq_refl). intros [= <-].
  unfold Lit in *.
  destruct (highlightedConnection_ g2) as [h|] eqn:Hh.
  - change (lit (effects (emit SetCursorOpen (emit (Unhighlight h) g2)))
            = Some None).
    rewrite !lit_emit, K.
    cbn [lights omap list_omap fold_left light_step].
    now rewrite bool_decide_eq_true_2.
  - change (lit (effects (emit SetCursorOpen g2))
            = Some (highlightedConnection_ g2)).
    now rewrite lit_emit, K, Hh.
Qed.

(** Pointer moves never throw in a session, and never fall back from free
    dragging to the sticky mode. *)
Lemma onMouseMove_in_session (g : Globals) (this : BlockId) (e : MouseEvent) :
  InSession g this ->
  exists g',
    onMouseMove_ this e g = Some g' /\
    (dragMode_ g = 2%Z -> dragMode_ g' = 2%Z) /\
    (dragMode_ g = 1%Z -> dragMode_ g' = 1%Z \/ dragMode_ g' = 2%Z).
Proof.
  intros [_ _ _ [start Hstart] Hsvg [ws Hws]]. unfold onMouseMove_.
  destruct (rogue e); [eexists; split; [reflexivity|]; auto|].
  rewrite Hws. cbn [deref mbind option_bind].
  set (step1 := if (dragMode_ g =? 1)%Z then _ else _).
  assert (exists g1, step1 = Some g1 /\
            dragStartXY_ (block g1 this) = Some start /\
            svgGroup_ (block g1 this) = true /\
            (dragMode_ g1 = dragMode_ g \/
             dragMode_ g = 1%Z /\ dragMode_ g1 = 2%Z)) as (g1 & -> & Hs1 & Hv1 & Hm1).
  { subst step1.
    destruct (dragMode_ g =? 1)%Z eqn:M1; [|eexists; split; [reflexivity|]; auto].
    apply Z.eqb_eq in M1.
    destruct (beyond_drag_radius _ _ _ _); [|eexists; split; [reflexivity|]; auto].
    change (block (set_dragMode_ 2 g) this) with (block g this).
    unfold need_svg. rewrite Hsvg. cbn [mbind option_bind].
    destruct (truthy (parentBlock_ (block g this))).
    - unfold disconnectUiEffect.
      rewrite block_update_block_eq. cbn [workspace with_parentBlock_].
      change (block (set_dragMode_ 2 g) this) with (block g this).
      rewrite Hws. cbn [deref mbind option_bind].
      destruct (PrimFloat.ltb (scale ws) PrimFloat.one); cbn [mbind option_bind];
        (eexists; split; [reflexivity|]);
        unfold block;
        cbn [blocks emit set_dragMode_ update_block set_blocks dragMode_];
        rewrite lookup_total_insert_eq;
        cbn [dragStartXY_ svgGroup_ with_parentBlock_]; auto.
    - cbn [mbind option_bind]. eexists. split; [reflexivity|].
      change (block (emit RecordDeleteAreas (set_dragMode_ 2 g)) this)
        with (block g this). auto. }
  cbn [mbind option_bind].
  destruct (dragMode_ g1 =? 2)%Z eqn:M2.
  - apply Z.eqb_eq in M2.
    unfold drag_offset, need_svg. rewrite Hs1, Hv1.
    cbn [deref mbind option_bind].
    set (g2 := update_block this (with_surfaceXY (moveDrag e)) g1).
    set (sc := proximity_scan _ _ _ _ _).
    destruct (update_highlight_frame sc g2) as (_ & _ & _ & _ & Hm2).
    change (dragMode_ g2) with (dragMode_ g1) in Hm2.
    eexists. split; [reflexivity|].
    destruct (deletable _); cbn [dragMode_ emit]; rewrite Hm2, M2; auto.
  - apply Z.eqb_neq in M2. cbn [mbind option_bind].
    eexists. split; [reflexivity|]. cbn [dragMode_ emit].
    destruct Hm1 as [E|[E1 E2]]; [rewrite E; split; [tauto | auto] | tauto].
Qed.

Lemma block_emit (ev : Effect) (g : Globals) (b : BlockId) :
  block (emit ev g) b = block g b.
Proof. reflexivity. Qed.

Lemma terminateDrag_idle (g : Globals) :
  dragMode_ g = 0%Z ->
  onMouseUpWrapper_ g = None ->
  onMouseMoveWrapper_ g = None ->
  Blockly_terminateDrag_ g = Some (emit SetCursorOpen g).
Proof.
  intros D U M.
  unfold Blockly_terminateDrag_, BlockSvg_terminateDrag_.
  cbn [dragMode_ set_onMouseMoveWrapper_ set_onMouseUpWrapper_].
  rewrite D. cbn [Z.eqb mbind option_bind].
  destruct g. cbn in *. subst. reflexivity.
Qed.

(** X15.  A press on a block outside the flyout, whenever it returns,
    has selected the block.  With the left button on a movable block it
    has opened a sticky session that remembers where the block was: drag
    mode 1, both handlers bound to the block.  With the right button, or on
    a block that cannot be moved, no session is open: drag mode 0, no
    handler bound, and no block has changed. *)
Theorem onMouseDown_mode (g g' : Globals) (this : BlockId) (e : MouseEvent) :
  isInFlyout (block g this) = false ->
  onMouseDown_ this e g = Some g' ->
  selected g' = Some this /\
  if negb (isRightButton e) && movable (block g this)
  then dragMode_ g' = 1%Z /\
       onMouseUpWrapper_ g' = Some this /\
       onMouseMoveWrapper_ g' = Some this /\
       dragStartXY_ (block g' this) = Some (surfaceXY (block g this))
  else dragMode_ g' = 0%Z /\
       onMouseUpWrapper_ g' = None /\
       onMouseMoveWrapper_ g' = None /\
       keeps_blocks g g'.
Proof.
  intros Hf. unfold onMouseDown_. rewrite Hf.
  destruct (deref (workspace (block g this))); [|discriminate].
  cbn [mbind option_bind].
  destruct (Blockly_terminateDrag_ g) as [g1|] eqn:T; [|discriminate].
  cbn [mbind option_bind].
  apply terminateDrag_frame in T as (_ & Hup & Hmv & Hmode & Hk & _ & _).
  destruct (select this g1) as [g2|] eqn:S; [|discriminate].
  cbn [mbind option_bind].
  apply select_frame in S as (-> & _ & _).
  change (block (set_selected (Some this) g1) this) with (block g1 this).
  destruct (Hk this) as (_ & _ & _ & _ & _ & _ & Hmov & Hxy).
  rewrite Hmov.
  destruct (isRightButton e); cbn [negb andb].
  - intros [= <-]. split; [reflexivity|]. repeat apply conj;
      first [ exact Hup | exact Hmv | exact Hmode | exact Hk ].
  - destruct (movable (block g this)); cbn [negb].
    + intros [= <-]. split; [reflexivity|].
      repeat apply conj; try reflexivity.
      unfold block at 1.
      cbn [blocks emit set_onMouseMoveWrapper_ set_onMouseUpWrapper_
           set_dragMode_ update_block set_blocks].
      rewrite lookup_total_insert_eq. cbn [dragStartXY_ with_dragStartXY_].
      f_equal. exact Hxy.
    + intros [= <-]. split; [reflexivity|]. repeat apply conj;
        first [ exact Hup | exact Hmv | exact Hmode | exact Hk ].
Qed.

Lemma onMouseDown_mode_witness :
  exists g',
    onMouseDown_ "A" right_press (free_drag zoom1) = Some g' /\
    selected g' = Some "A" /\
    dragMode_ g' = 0%Z /\
    onMouseUpWrapper_ g' = None /\
    onMouseMoveWrapper_ g' = None /\
    keeps_blocks (free_drag zoom1) g'.
Proof.
  eexists. split; [vm_compute; reflexivity|].
  refine (onMouseDown_mode (free_drag zoom1) _ "A" right_press _ _);
    vm_compute; reflexivity.
Defined.

(** X16.  In sticky mode a move that stays within DRAG_RADIUS of the
    place of the block, the distance being taken in screen units as the
    code computes it in doubles, is swallowed: the block is not moved,
    the mode stays 1, nothing is scanned or highlighted; the event is
    only kept from bubbling. *)
Theorem onMouseMove_sticky (g : Globals) (this : BlockId) (e : MouseEvent)
    (ws : Workspace) :
  workspace (block g this) = Some ws ->
  dragMode_ g = 1%Z ->
  rogue e = false ->
  PrimFloat.ltb (to_double (DRAG_RADIUS g))
    (PrimFloat.mul
       (Coordinate_distance (surfaceXY (block g this)) (moveDrag e))
       (scale ws)) = false ->
  onMouseMove_ this e g = Some (emit StopPropagation g).
Proof.
  intros Hws Hmode Hrogue Hnear. unfold onMouseMove_.
  rewrite Hrogue, Hws, Hmode. cbn [deref mbind option_bind Z.eqb Pos.eqb].
  unfold beyond_drag_radius. cbv zeta. rewrite Hnear.
  cbn [mbind option_bind]. rewrite Hmode. reflexivity.
Qed.

Lemma onMouseMove_sticky_witness :
  onMouseMove_ "A" nudge (sticky zoom1)
    = Some (emit StopPropagation (sticky zoom1)) /\
  onMouseMove_ "A" six_along (sticky zoom_out)
    = Some (emit StopPropagation (sticky zoom_out)).
Proof.
  split.
  - apply (onMouseMove_sticky (sticky zoom1) "A" nudge zoom1);
      vm_compute; reflexivity.
  - apply (onMouseMove_sticky (sticky zoom_out) "A" six_along zoom_out);
      vm_compute; reflexivity.
Defined.

(** X17.  In a sticky session the first move that goes beyond
    DRAG_RADIUS, the distance being taken in screen units as the code
    computes it in doubles, sets the block free: the mode becomes 2, the block has no parent any
    more and sits where the move asked for; the disconnect cue is played
    once if the block had a parent, and not at all otherwise. *)
Theorem onMouseMove_breaks_free (g : Globals) (this : BlockId)
    (e : MouseEvent) (ws : Workspace) :
  InSession g this ->
  workspace (block g this) = Some ws ->
  dragMode_ g = 1%Z ->
  rogue e = false ->
  PrimFloat.ltb (to_double (DRAG_RADIUS g))
    (PrimFloat.mul
       (Coordinate_distance (surfaceXY (block g this)) (moveDrag e))
       (scale ws)) = true ->
  exists g',
    onMouseMove_ this e g = Some g' /\
    dragMode_ g' = 2%Z /\
    parentBlock_ (block g' this) = None /\
    surfaceXY (block g' this) = moveDrag e /\
    disconnects (effects g') =
      disconnects (effects g)
      ++ (if truthy (parentBlock_ (block g this)) then [this] else []).
Proof.
  intros [_ _ _ [start Hstart] Hsvg _] Hws Hmode Hrogue Hfar.
  unfold onMouseMove_.
  rewrite Hrogue, Hws, Hmode. cbn [deref mbind option_bind Z.eqb Pos.eqb].
  unfold beyond_drag_radius. cbv zeta. rewrite Hfar.
  change (block (set_dragMode_ 2 g) this) with (block g this).
  assert (need_svg (block g this) = Some tt) as ->
    by (unfold need_svg; now rewrite Hsvg).
  cbn [mbind option_bind].
  assert (forall g1 p,
            blocks g1 = <[this := with_parentBlock_ p (block g this)]> (blocks g) ->
            dragMode_ g1 = 2%Z -> SNAP_RADIUS g1 = SNAP_RADIUS g ->
            exists g',
              (g ← (if (dragMode_ g1 =? 2)%Z then
                      d ← drag_offset (block g1 this);
                      _ ← need_svg (block g1 this);
                      let myConnections := connections (block g1 this) in
                      let g := update_block this (with_surfaceXY (moveDrag e)) g1 in
                      let sc :=
                        proximity_scan (closest (connectionDB g)) myConnections
                          (SNAP_RADIUS g * SNAP_RADIUS g) (fst d) (snd d) in
                      let g := update_highlight sc g in
                      Some (if deletable (block g this)
                            then emit ShowDeleteArea g else g)
                    else Some g1);
               Some (emit StopPropagation g)) = Some g' /\
              dragMode_ g' = 2%Z /\
              parentBlock_ (block g' this) = p /\
              surfaceXY (block g' this) = moveDrag e /\
              disconnects (effects g') = disconnects (effects g1)) as K.
  { intros g1 p Hb Hm _. rewrite Hm. cbn [Z.eqb Pos.eqb].
    assert (block g1 this = with_parentBlock_ p (block g this)) as Hblk.
    { unfold block at 1. rewrite Hb. apply lookup_total_insert_eq. }
    unfold drag_offset, need_svg. rewrite Hblk.
    cbn [dragStartXY_ svgGroup_ with_parentBlock_]. rewrite Hstart, Hsvg.
    cbn [deref mbind option_bind]. cbv zeta.
    set (g2 := update_block this (with_surfaceXY (moveDrag e)) g1).
    set (sc := proximity_scan _ _ _ _ _).
    destruct (update_highlight_frame sc g2) as (Hb2 & _ & _ & _ & Hm2).
    assert (block (update_highlight sc g2) this
            = with_surfaceXY (moveDrag e) (block g1 this)) as Hblk2.
    { unfold block at 1. rewrite Hb2. apply block_update_block_eq. }
    assert (disconnects (effects (update_highlight sc g2))
            = disconnects (effects g1)) as Hd.
    { unfold update_highlight.
      destruct (highlightedConnection_ g2) as [old|] eqn:Hh.
      - destruct (differs (Some old) (closestConnection sc));
          destruct (closestConnection sc) as [c|];
          cbn [highlightedConnection_ set_localConnection_
               set_highlightedConnection_ emit];
          try rewrite Hh; try destruct (differs _ _);
          unfold disconnects;
          cbn [effects emit set_localConnection_ set_highlightedConnection_];
          rewrite ?omap_app; cbn [omap list_omap app];
          rewrite ?app_nil_r; reflexivity.
      - destruct (closestConnection sc) as [c|]; rewrite ?Hh;
          try destruct (differs _ _);
          unfold disconnects;
          cbn [effects emit set_localConnection_ set_highlightedConnection_];
          rewrite ?omap_app; cbn [omap list_omap app];
          rewrite ?app_nil_r; reflexivity. }
    eexists. split; [reflexivity|].
    destruct (deletable (block (update_highlight sc g2) this));
      (split; [cbn [dragMode_ emit]; rewrite Hm2; exact Hm|]);
      change (block (emit StopPropagation (emit ShowDeleteArea (update_highlight sc g2))) this)
        with (block (update_highlight sc g2) this);
      change (block (emit StopPropagation (update_highlight sc g2)) this)
        with (block (update_highlight sc g2) this);
      rewrite Hblk2, Hblk;
      (split; [reflexivity|]); (split; [reflexivity|]);
      unfold disconnects in *; cbn [effects emit];
      rewrite ?omap_app; cbn [omap list_omap app]; rewrite ?app_nil_r;
      exact Hd. }
  destruct (parentBlock_ (block g this)) as [p|] eqn:Hp; cbn [truthy].
  - unfold disconnectUiEffect. rewrite block_update_block_eq.
    cbn [workspace with_parentBlock_].
    change (block (set_dragMode_ 2 g) this) with (block g this).
    rewrite Hws. cbn [deref mbind option_bind].
    destruct (PrimFloat.ltb (scale ws) PrimFloat.one); cbn [mbind option_bind].
    + destruct (K (emit RecordDeleteAreas
                     (emit (PlayAudio this "disconnect")
                        (update_block this (with_parentBlock_ None)
                           (set_dragMode_ 2 g)))) None)
        as (g' & E & Hm' & Hp' & Hxy' & Hd');
        [reflexivity | reflexivity | reflexivity |].
      exists g'. split; [exact E|].
      repeat split; [exact Hm' | exact Hp' | exact Hxy' |].
      rewrite Hd'. unfold disconnects.
      cbn [effects emit update_block set_blocks set_dragMode_].
      rewrite ?omap_app. cbn [omap list_omap app String.eqb Ascii.eqb Bool.eqb].
      now rewrite ?app_nil_r.
    + destruct (K (emit RecordDeleteAreas
                     (emit (Wiggle this)
                        (emit (PlayAudio this "disconnect")
                           (update_block this (with_parentBlock_ None)
                              (set_dragMode_ 2 g))))) None)
        as (g' & E & Hm' & Hp' & Hxy' & Hd');
        [reflexivity | reflexivity | reflexivity |].
      exists g'. split; [exact E|].
      repeat split; [exact Hm' | exact Hp' | exact Hxy' |].
      rewrite Hd'. unfold disconnects.
      cbn [effects emit update_block set_blocks set_dragMode_].
      rewrite ?omap_app. cbn [omap list_omap app String.eqb Ascii.eqb Bool.eqb].
      now rewrite ?app_nil_r.
  - cbn [mbind option_bind].
    edestruct (K (emit RecordDeleteAreas (set_dragMode_ 2 g)) None)
      as (g' & E & Hm' & Hp' & Hxy' & Hd').
    + cbn [blocks emit set_dragMode_]. rewrite <- Hp.
      symmetry. unfold block.
      destruct (blocks g !! this) as [bk|] eqn:L.
      * rewrite (lookup_total_correct _ _ _ L).
        replace (with_parentBlock_ (parentBlock_ bk) bk) with bk
          by now destruct bk.
        now apply insert_id.
      * exfalso. unfold block in Hws.
        rewrite lookup_total_alt, L in Hws. discriminate.
    + reflexivity.
    + reflexivity.
    + exists g'. split; [exact E|].
      repeat split; [exact Hm' | exact Hp' | exact Hxy' |].
      rewrite Hd'. unfold disconnects. cbn [effects emit set_dragMode_].
      rewrite ?omap_app. cbn [omap list_omap app]. reflexivity.
Qed.

Lemma onMouseMove_breaks_free_witness :
  exists g',
    onMouseMove_ "A" pull (nested zoom1) = Some g' /\
    dragMode_ g' = 2%Z /\
    parentBlock_ (block g' "A") = None /\
    surfaceXY (block g' "A") = (203, 105) /\
    disconnects (effects g') = ["A"].
Proof.
  apply (onMouseMove_breaks_free (nested zoom1) "A" pull zoom1);
    try reflexivity.
  constructor; try reflexivity; vm_compute; eauto.
Defined.

(** A release that returns leaves no session and no highlight behind. *)
Lemma onMouseUp_done (g g' : Globals) (this : BlockId) (e : MouseEvent) :
  onMouseUp_ this e g = Some g' ->
  dragMode_ g' = 0%Z /\
  onMouseUpWrapper_ g' = None /\
  onMouseMoveWrapper_ g' = None /\
  highlightedConnection_ g' = None.
Proof.
  unfold onMouseUp_.
  destruct (Blockly_terminateDrag_ g) as [g1|] eqn:T; [|discriminate].
  cbn [mbind option_bind].
  apply terminateDrag_frame in T as (_ & Hup & Hmv & Hmode & _).
  set (body := if truthy (selected g1) && _ then _ else _).
  assert (forall g2, body = Some g2 ->
            dragMode_ g2 = 0%Z /\ onMouseUpWrapper_ g2 = None /\
            onMouseMoveWrapper_ g2 = None) as K.
  { intros g2. subst body.
    destruct (truthy (selected g1) && truthy (highlightedConnection_ g1)).
    - destruct (deref (localConnection_ g1)) as [l|]; [|discriminate].
      cbn [mbind option_bind].
      destruct (highlightedConnection_ g1) as [h|]; [|discriminate].
      cbn [mbind option_bind].
      set (fb := if rendered _ then _ else _).
      assert (forall g3, fb = Some g3 ->
                dragMode_ g3 = 0%Z /\ onMouseUpWrapper_ g3 = None /\
                onMouseMoveWrapper_ g3 = None) as K3.
      { intros g3. subst fb. destruct (rendered _).
        - intros E. apply connectionUiEffect_same in E
            as ((_ & D & _ & _ & U & M & _) & _).
          cbn [dragMode_ onMouseUpWrapper_ onMouseMoveWrapper_ emit] in D, U, M.
          repeat split; congruence.
        - intros [= <-]. auto. }
      destruct fb as [g3|]; [|discriminate]. cbn [mbind option_bind].
      destruct (K3 g3 eq_refl) as (D & U & M).
      destruct (deref (workspace (block g3 this))) as [ws|]; [|discriminate].
      cbn [mbind option_bind]. intros [= <-].
      destruct (trashcan ws); auto.
    - destruct (negb _).
      + destruct (deref (selected g1)) as [sel|]; [|discriminate].
        cbn [mbind option_bind].
        destruct (deletable (block g1 sel)); [|intros [= <-]; auto].
        destruct (deref (workspace (block g1 this))) as [ws|]; [|discriminate].
        cbn [mbind option_bind].
        destruct (isDeleteArea e); [|intros [= <-]; auto].
        destruct (dispose sel false true _) as [g3|] eqn:E; [|discriminate].
        cbn [mbind option_bind]. intros [= <-].
        apply dispose_frame in E as (_ & _ & _ & _ & D & U & M).
        destruct (trashcan ws);
          cbn [dragMode_ onMouseUpWrapper_ onMouseMoveWrapper_ emit] in *; auto.
      + intros [= <-]. auto. }
  destruct body as [g2|]; [|discriminate]. cbn [mbind option_bind].
  destruct (K g2 eq_refl) as (D & U & M). intros [= <-].
  destruct (highlightedConnection_ g2) eqn:H; auto.
Qed.

(** X18.  Whenever a release returns, in whatever state it was called,
    the session is over and nothing is highlighted: drag mode 0, both
    handlers unbound, no highlighted connection. *)
Theorem onMouseUp_resets (g g' : Globals) (this : BlockId) (e : MouseEvent) :
  onMouseUp_ this e g = Some g' ->
  dragMode_ g' = 0%Z /\
  onMouseUpWrapper_ g' = None /\
  onMouseMoveWrapper_ g' = None /\
  highlightedConnection_ g' = None.
Proof. apply onMouseUp_done. Qed.

Lemma onMouseUp_resets_witness :
  exists g',
    onMouseUp_ "A" release (over_candidate zoom1) = Some g' /\
    dragMode_ g' = 0%Z /\
    onMouseUpWrapper_ g' = None /\
    onMouseMoveWrapper_ g' = None /\
    highlightedConnection_ g' = None.
Proof.
  eexists. split; [vm_compute; reflexivity|].
  refine (onMouseUp_resets (over_candidate zoom1) _ "A" release _).
  vm_compute. reflexivity.
Defined.

(** X19.  Ending a drag twice is ending it once: after [terminateDrag_]
    has returned, a second call renders nothing, schedules nothing and
    moves no connection; it only sets the cursor again. *)
Theorem terminateDrag_once (g g1 : Globals) :
  Blockly_terminateDrag_ g = Some g1 ->
  Blockly_terminateDrag_ g1 = Some (emit SetCursorOpen g1).
Proof.
  intros T. apply terminateDrag_frame in T as (_ & U & M & D & _).
  now apply terminateDrag_idle.
Qed.

Lemma terminateDrag_once_witness :
  exists g1,
    Blockly_terminateDrag_ (free_drag zoom1) = Some g1 /\
    Blockly_terminateDrag_ g1 = Some (emit SetCursorOpen g1).
Proof.
  eexists. split; [vm_compute; reflexivity|].
  refine (terminateDrag_once (free_drag zoom1) _ _).
  vm_compute. reflexivity.
Defined.

(** X20.  The local connection follows the highlighted one only when the
    highlight changes.  After the two updates the highlighted connection
    is the one that the scan kept; the local connection is the one of
    the scan if a connection has just been lit, it is null if the
    highlight was put out and nothing lit, and it is left as it was when
    the scan came back to the connection already highlighted, whichever
    own connection the scan reached it from. *)
Theorem update_highlight_local (sc : Scan) (g : Globals) :
  highlightedConnection_ (update_highlight sc g) = closestConnection sc /\
  localConnection_ (update_highlight sc g) =
    match closestConnection sc with
    | Some c =>
        if bool_decide (highlightedConnection_ g = Some c)
        then localConnection_ g else scan_localConnection sc
    | None =>
        if truthy (highlightedConnection_ g) then None else localConnection_ g
    end.
Proof.
  split; [apply update_highlight_result|].
  unfold update_highlight, differs.
  destruct (highlightedConnection_ g) as [old|] eqn:Hh;
    destruct (closestConnection sc) as [c|] eqn:Hc; cbn [truthy].
  - destruct (decide (Some old = Some c)) as [E|E].
    + rewrite (bool_decide_eq_true_2 _ E). cbn [negb]. rewrite Hh.
      rewrite bool_decide_eq_true_2 by congruence. reflexivity.
    + rewrite (bool_decide_eq_false_2 _ E). cbn [negb].
      cbn [highlightedConnection_ set_localConnection_ set_highlightedConnection_ emit].
      rewrite bool_decide_eq_false_2 by discriminate. reflexivity.
  - rewrite bool_decide_eq_false_2 by discriminate. reflexivity.
  - rewrite Hh. rewrite !bool_decide_eq_false_2 by discriminate. reflexivity.
  - reflexivity.
Qed.

(** X21.  At most one connection is highlighted at any time, and it is
    the one that the global names.  If the highlight calls made so far
    are in step with [highlightedConnection_], they still are after any
    run of presses, moves, releases and disposals: no handler lights a
    connection while another one is lit, none puts out a connection that
    is not the lit one, and none changes the global without the call. *)
Theorem one_highlight_at_a_time (evs : list Event) (g g' : Globals) :
  Lit g -> handle_all evs g = Some g' -> Lit g'.
Proof.
  revert g. induction evs as [|ev evs IH]; intros g L.
  - now intros [= <-].
  - cbn [handle_all].
    destruct (handle ev g) as [g1|] eqn:E; [|discriminate].
    cbn [mbind option_bind]. apply IH.
    destruct ev as [this e|e|e|this h a]; cbn [handle] in E.
    + exact (Lit_onMouseDown_ this e g g1 L E).
    + unfold mousemove in E. destruct (onMouseMoveWrapper_ g) as [this|].
      * exact (Lit_onMouseMove_ this e g g1 L E).
      * now injection E as <-.
    + unfold mouseup in E. destruct (onMouseUpWrapper_ g) as [this|].
      * exact (Lit_onMouseUp_ this e g g1 L E).
      * now injection E as <-.
    + exact (Lit_dispose this h a g g1 L E).
Qed.

Lemma one_highlight_at_a_time_witness :
  exists g',
    handle_all [Press "A" left_press; Move move_near; Move move_to;
                Move pull; Release release] (idle zoom1) = Some g' /\
    lights (effects g') = [On b_next; Off b_next] /\
    Lit g'.
Proof.
  eexists. split; [vm_compute; reflexivity|]. split; [reflexivity|].
  refine (one_highlight_at_a_time
            [Press "A" left_press; Move move_near; Move move_to;
             Move pull; Release release] (idle zoom1) _ _ _);
    vm_compute; reflexivity.
Defined.

(** X22.  A session lives through any run of pointer moves: no move
    throws, each one leaves the session as a session on the same block,
    and once the drag is free it stays free. *)
Theorem moves_in_session (es : list MouseEvent) (g : Globals)
    (this : BlockId) :
  InSession g this ->
  exists g',
    handle_all (map Move es) g = Some g' /\
    InSession g' this /\
    (dragMode_ g = 2%Z -> dragMode_ g' = 2%Z).
Proof.
  revert g. induction es as [|e es IH]; intros g S.
  - exists g. auto.
  - cbn [map handle_all handle]. unfold mousemove.
    rewrite (session_move g this S).
    destruct (onMouseMove_in_session g this e S) as (g1 & E & M & _).
    rewrite E. cbn [mbind option_bind].
    destruct (IH g1 (onMouseMove_keeps_session g g1 this e S E))
      as (g' & E' & S' & M').
    exists g'. auto.
Qed.

Lemma moves_in_session_witness :
  exists g',
    handle_all (map Move [nudge; pull; move_near; move_to]) (sticky zoom1)
      = Some g' /\
    InSession g' "A" /\
    (dragMode_ (sticky zoom1) = 2%Z -> dragMode_ g' = 2%Z).
Proof.
  apply (moves_in_session [nudge; pull; move_near; move_to] (sticky zoom1) "A").
  constructor; try reflexivity; vm_compute; eauto.
Defined.

(** X23.  A release with nothing highlighted, over the delete area, of
    a top-level block that may be deleted, disposes of it: the block is
    no longer rendered and has lost its svg root, nothing has been
    connected, and the disposal animation has been played once if the
    block was rendered once its drag was ended, and not otherwise.  The
    same release anywhere else leaves every block in place. *)
Theorem onMouseUp_bin (g : Globals) (this : BlockId) (e : MouseEvent) :
  InSession g this ->
  highlightedConnection_ g = None ->
  parentBlock_ (block g this) = None ->
  deletable (block g this) = true ->
  exists g',
    onMouseUp_ this e g = Some g' /\
    connects (effects g') = connects (effects g) /\
    if isDeleteArea e
    then rendered (block g' this) = false /\
         svgGroup_ (block g' this) = false /\
         deletes (effects g') =
           deletes (effects g)
           ++ (if rendered (block g this) || (dragMode_ g =? 2)%Z
               then [this] else [])
    else keeps_blocks g g' /\ deletes (effects g') = deletes (effects g).
Proof.
  intros Hs Hh Hp Hd.
  destruct (terminateDrag_in_session g this Hs)
    as (g1 & Ht & Hsel1 & Hh1 & _ & Hu1 & Hm1 & Hmode1 & Hk & Hc1 & _ & _ & Hr1).
  assert (deletes (effects g1) = deletes (effects g)) as Hdel1.
  { clear -Ht. revert Ht.
    unfold Blockly_terminateDrag_, BlockSvg_terminateDrag_.
    cbn [dragMode_ set_onMouseMoveWrapper_ set_onMouseUpWrapper_ selected].
    destruct (dragMode_ g =? 2)%Z.
    - destruct (selected g) as [sel|].
      + change (block (set_onMouseMoveWrapper_ None (set_onMouseUpWrapper_ None g)) sel)
          with (block g sel).
        destruct (dragStartXY_ (block g sel)); [|discriminate].
        cbn [deref mbind option_bind].
        destruct (need_svg (block g sel)); [|discriminate].
        cbn [mbind option_bind].
        destruct (workspace (block g sel)); [|discriminate].
        cbn [deref mbind option_bind]. intros [= <-].
        destruct (rendered (block g sel)); unfold deletes;
          cbn [effects emit set_dragMode_ update_block set_blocks
               set_onMouseMoveWrapper_ set_onMouseUpWrapper_];
          rewrite ?omap_app; cbn [omap list_omap app];
          now rewrite ?app_nil_r.
      + cbn [mbind option_bind]. intros [= <-]. unfold deletes.
        cbn [effects emit set_dragMode_ set_onMouseMoveWrapper_
             set_onMouseUpWrapper_].
        rewrite ?omap_app. cbn [omap list_omap app]. now rewrite ?app_nil_r.
    - cbn [mbind option_bind]. intros [= <-]. unfold deletes.
      cbn [effects emit set_dragMode_ set_onMouseMoveWrapper_
           set_onMouseUpWrapper_].
      rewrite ?omap_app. cbn [omap list_omap app]. now rewrite ?app_nil_r. }
  destruct Hs as [Hsel _ _ _ Hsvg [ws Hws]].
  destruct (Hk this) as (Hw1 & Hp1 & Hs1 & Hd1 & _).
  unfold onMouseUp_. rewrite Ht. cbn [mbind option_bind].
  rewrite Hsel1, Hsel, Hh1, Hh, Hp1, Hp.
  cbn [truthy andb negb deref mbind option_bind].
  rewrite Hd1, Hd, Hw1, Hws. cbn [deref mbind option_bind].
  destruct (isDeleteArea e).
  - set (g2 := if trashcan ws then emit TrashcanCloseLater g1 else g1).
    assert (blocks g2 = blocks g1 /\ selected g2 = Some this /\
            dragMode_ g2 = 0%Z /\ onMouseUpWrapper_ g2 = None /\
            onMouseMoveWrapper_ g2 = None /\
            highlightedConnection_ g2 = None /\
            connects (effects g2) = connects (effects g) /\
            deletes (effects g2) = deletes (effects g))
      as (Hb2 & Hsel2 & Hmode2 & Hu2 & Hm2 & Hh2 & Hc2 & Hdel2).
    { subst g2. destruct (trashcan ws); repeat apply conj;
        cbn [selected dragMode_ onMouseUpWrapper_ onMouseMoveWrapper_
             highlightedConnection_ blocks emit];
        first [ reflexivity | congruence
              | trace_events; exact Hc1
              | unfold deletes in *; cbn [effects emit]; rewrite omap_app;
                cbn [omap list_omap]; now rewrite app_nil_r ]. }
    clearbody g2. unfold connects in Hc2.
    unfold dispose. rewrite (bool_decide_eq_true_2 _ Hsel2).
    rewrite (terminateDrag_idle g2 Hmode2 Hu2 Hm2).
    cbn [mbind option_bind andb].
    assert (block (emit SetCursorOpen g2) this = block g1 this) as Hblk.
    { unfold block. cbn [blocks emit]. now rewrite Hb2. }
    rewrite Hblk, Hr1.
    destruct (rendered (block g this) || (dragMode_ g =? 2)%Z).
    + unfold disposeUiEffect, need_svg.
      change (block (emit (Unplug this false) (emit SetCursorOpen g2)) this)
        with (block (emit SetCursorOpen g2) this).
      rewrite Hblk, Hw1, Hws. cbn [deref mbind option_bind].
      change (block (emit (PlayAudio this "delete")
                       (emit (Unplug this false) (emit SetCursorOpen g2))) this)
        with (block (emit SetCursorOpen g2) this).
      rewrite Hblk, Hs1, Hsvg. cbn [mbind option_bind].
      cbn [highlightedConnection_ emit update_block set_blocks Block_dispose].
      rewrite Hh2. unfold Block_dispose.
      eexists. split; [reflexivity|].
      split; [trace_events; exact Hc2|].
      split; [|split].
      * rewrite !block_emit, !block_update_block_eq. reflexivity.
      * rewrite !block_emit, !block_update_block_eq. reflexivity.
      * unfold deletes in *. cbn [effects emit set_blocks update_block].
        rewrite ?omap_app. cbn [omap list_omap app].
        rewrite ?app_nil_r. now rewrite Hdel2.
    + cbn [mbind option_bind].
      cbn [highlightedConnection_ emit update_block set_blocks Block_dispose].
      rewrite Hh2. unfold Block_dispose.
      eexists. split; [reflexivity|].
      split; [trace_events; exact Hc2|].
      split; [|split].
      * rewrite !block_emit, !block_update_block_eq. reflexivity.
      * rewrite !block_emit, !block_update_block_eq. reflexivity.
      * unfold deletes in *. cbn [effects emit set_blocks update_block].
        rewrite ?omap_app. cbn [omap list_omap app].
        rewrite ?app_nil_r. now rewrite Hdel2.
  - cbn [mbind option_bind]. rewrite Hh1, Hh. unfold connects in Hc1.
    eexists. split; [reflexivity|].
    split; [trace_events; exact Hc1|].
    split; [exact Hk|].
    unfold deletes in *. cbn [effects emit]. rewrite omap_app.
    cbn [omap list_omap]. now rewrite app_nil_r.
Qed.

Lemma onMouseUp_bin_witness :
  exists g',
    onMouseUp_ "A" drop_on_bin (free_drag zoom1) = Some g' /\
    connects (effects g') = [] /\
    rendered (block g' "A") = false /\
    svgGroup_ (block g' "A") = false /\
    deletes (effects g') = ["A"].
Proof.
  apply (onMouseUp_bin (free_drag zoom1) "A" drop_on_bin);
    try reflexivity.
  constructor; try reflexivity; vm_compute; eauto.
Defined.

(** *** Disposal in the middle of a drag *)

(** No session is open: neither pointer handler is bound. *)
Definition Idle (g : Globals) : Prop :=
  onMouseUpWrapper_ g = None /\ onMouseMoveWrapper_ g = None.

(** What the controller keeps true from one event to the next: a pointer
    handler is bound only in a drag session. *)
Definition Sound (g : Globals) : Prop :=
  Idle g \/ exists this, InSession g this.

Lemma InSession_emit (ev : Effect) (g : Globals) (this : BlockId) :
  InSession g this -> InSession (emit ev g) this.
Proof. intros [? ? ? ? ? ?]. now constructor. Qed.

Lemma Sound_emit (ev : Effect) (g : Globals) : Sound g -> Sound (emit ev g).
Proof.
  intros [[U M]|[this Hs]]; [left; now split|].
  right. exists this. now apply InSession_emit.
Qed.

(** Disposing of a block that is not the selected one leaves the session
    and every other block alone. *)
Lemma dispose_other (this : BlockId) (healStack animate : bool)
    (g g1 : Globals) :
  selected g <> Some this ->
  dispose this healStack animate g = Some g1 ->
  selected g1 = selected g /\
  onMouseUpWrapper_ g1 = onMouseUpWrapper_ g /\
  onMouseMoveWrapper_ g1 = onMouseMoveWrapper_ g /\
  forall b, b <> this -> block g1 b = block g b.
Proof.
  intros Hsel. unfold dispose.
  rewrite (bool_decide_eq_false_2 _ Hsel). cbn [mbind option_bind].
  assert (forall g2 : Globals,
            let g3 :=
              update_block this (with_svgGroup_ false)
                (Block_dispose this healStack
                   (update_block this (with_rendered false) g2)) in
            selected g3 = selected g2 /\
            onMouseUpWrapper_ g3 = onMouseUpWrapper_ g2 /\
            onMouseMoveWrapper_ g3 = onMouseMoveWrapper_ g2 /\
            forall b, b <> this -> block g3 b = block g2 b) as K.
  { intros g2 g3. subst g3. repeat split.
    intros b Hb. unfold Block_dispose.
    now rewrite !block_update_block_ne by congruence. }
  destruct (animate && rendered (block g this)).
  - destruct (disposeUiEffect this (emit (Unplug this healStack) g))
      as [g2|] eqn:E; [|discriminate].
    cbn [mbind option_bind]. intros [= <-].
    apply disposeUiEffect_same in E as ((S & _ & _ & _ & U & M & _) & B).
    cbn [selected onMouseUpWrapper_ onMouseMoveWrapper_ blocks emit]
      in S, U, M, B.
    destruct (K g2) as (S2 & U2 & M2 & B2).
    split; [congruence|]. split; [congruence|]. split; [congruence|].
    intros b Hb. rewrite (B2 b Hb). unfold block. now rewrite B.
  - cbn [mbind option_bind]. intros [= <-]. apply K.
Qed.

Lemma Sound_onMouseDown_ (this : BlockId) (e : MouseEvent) (g g' : Globals) :
  Sound g -> onMouseDown_ this e g = Some g' -> Sound g'.
Proof.
  intros Hg E.
  destruct (isInFlyout (block g this)) eqn:Hf.
  { unfold onMouseDown_ in E. rewrite Hf in E. injection E as <-.
    now apply Sound_emit. }
  destruct (isRightButton e) eqn:Hb;
    [|destruct (movable (block g this)) eqn:Hm;
      [right; exists this;
       exact (proj1 (onMouseDown_starts_session g g' this e Hf Hb Hm E))|]];
    unfold onMouseDown_ in E; rewrite Hf, Hb in E;
    (destruct (deref (workspace (block g this))); [|discriminate]);
    cbn [mbind option_bind] in E;
    (destruct (Blockly_terminateDrag_ g) as [g1|] eqn:T; [|discriminate]);
    cbn [mbind option_bind] in E;
    apply terminateDrag_frame in T as (_ & U & M & _ & Hk & _);
    (destruct (select this g1) as [g2|] eqn:S; [|discriminate]);
    cbn [mbind option_bind] in E;
    apply select_frame in S as (-> & _).
  - injection E as <-. left. split; assumption.
  - change (block (set_selected (Some this) g1) this) with (block g1 this) in E.
    destruct (Hk this) as (_ & _ & _ & _ & _ & _ & Hmov & _).
    rewrite Hmov, Hm in E. cbn [negb] in E. injection E as <-.
    left. split; assumption.
Qed.

Lemma Sound_mousemove (e : MouseEvent) (g g' : Globals) :
  Sound g -> mousemove e g = Some g' -> Sound g'.
Proof.
  unfold mousemove. intros Hg.
  destruct (onMouseMoveWrapper_ g) as [this|] eqn:M;
    [|intros [= <-]; exact Hg].
  destruct Hg as [[_ M0]|[this0 Hs]]; [congruence|].
  assert (this0 = this) as -> by (destruct Hs; congruence).
  intros E. right. exists this.
  exact (onMouseMove_keeps_session g g' this e Hs E).
Qed.

Lemma Sound_mouseup (e : MouseEvent) (g g' : Globals) :
  Sound g -> mouseup e g = Some g' -> Sound g'.
Proof.
  unfold mouseup. intros Hg.
  destruct (onMouseUpWrapper_ g) as [this|]; [|intros [= <-]; exact Hg].
  intros E. apply onMouseUp_done in E as (_ & U & M & _).
  left. split; assumption.
Qed.

Lemma Sound_dispose (this : BlockId) (healStack animate : bool)
    (g g' : Globals) :
  Sound g -> dispose this healStack animate g = Some g' -> Sound g'.
Proof.
  intros [[U M]|[this0 Hs]] E.
  - apply dispose_frame in E as (_ & _ & _ & _ & _ & U' & M').
    left. split; auto.
  - destruct (decide (this0 = this)) as [->|Hne].
    + destruct (dispose_ends_session g this healStack animate Hs)
        as (g1 & E1 & U & M & _).
      left. split; congruence.
    + destruct Hs as [Hsel Hup Hmove Hstart Hsvg Hws].
      apply dispose_other in E as (S & U & M & B); [|congruence].
      right. exists this0.
      constructor; rewrite ?S, ?U, ?M, ?(B this0 Hne); assumption.
Qed.

Lemma Sound_handle_all (evs : list Event) (g g' : Globals) :
  Sound g -> handle_all evs g = Some g' -> Sound g'.
Proof.
  revert g. induction evs as [|ev evs IH]; intros g Hg; cbn [handle_all].
  - now intros [= <-].
  - destruct (handle ev g) as [g1|] eqn:E; [|discriminate].
    cbn [mbind option_bind]. apply IH.
    destruct ev as [this e|e|e|this healStack animate]; cbn [handle] in E.
    + exact (Sound_onMouseDown_ this e g g1 Hg E).
    + exact (Sound_mousemove e g g1 Hg E).
    + exact (Sound_mouseup e g g1 Hg E).
    + exact (Sound_dispose this healStack animate g g1 Hg E).
Qed.

(** C10.  Take any run of presses, moves, releases and disposals from an
    idle controller, and let it end with a block being dragged: the
    pointer-up handler is bound to the block.  If the block is disposed
    of now, the disposal returns, and it leaves the block torn down (no
    workspace, no svg root) and the session terminated: drag mode 0,
    both pointer handlers unbound.  The pointer-up that follows, and any
    pointer move, is then a no-op that does not throw: it returns and
    leaves the globals, the store of blocks and the trace of calls
    exactly as they were, so that nothing of the disposed block is read
    or written. *)
Theorem disposal_mid_drag_is_safe (evs : list Event) (g0 g : Globals)
    (this : BlockId) (healStack animate : bool) :
  Idle g0 ->
  handle_all evs g0 = Some g ->
  onMouseUpWrapper_ g = Some this ->
  exists g1,
    dispose this healStack animate g = Some g1 /\
    workspace (block g1 this) = None /\
    svgGroup_ (block g1 this) = false /\
    dragMode_ g1 = 0%Z /\
    onMouseUpWrapper_ g1 = None /\
    onMouseMoveWrapper_ g1 = None /\
    forall e,
      mouseup e g1 = Some g1 /\ mousemove e g1 = Some g1 /\
      handle_all [Release e] g1 = Some g1.
Proof.
  intros H0 Hrun Hup.
  assert (Sound g) as [[U _]|[this0 Hs]]
    by (apply (Sound_handle_all evs g0); [now left | exact Hrun]);
    [congruence|].
  assert (this0 = this) as -> by (destruct Hs; congruence).
  destruct (dispose_ends_session g this healStack animate Hs)
    as (g1 & E & U & M & D & W & V & K).
  exists g1. repeat (split; [assumption|]).
  intros e. destruct (K e) as [Ku Km].
  split; [exact Ku|]. split; [exact Km|].
  cbn [handle_all handle]. rewrite Ku. reflexivity.
Qed.

Lemma disposal_mid_drag_is_safe_witness :
  exists g g1,
    handle_all [Press "A" left_press; Move pull; Move move_to] (idle zoom1)
      = Some g /\
    dragMode_ g = 2%Z /\
    dispose "A" false true g = Some g1 /\
    workspace (block g1 "A") = None /\
    dragMode_ g1 = 0%Z /\
    onMouseUpWrapper_ g1 = None /\
    mouseup release g1 = Some g1.
Proof.
  eexists.
  assert (forall g,
            handle_all [Press "A" left_press; Move pull; Move move_to]
              (idle zoom1) = Some g ->
            onMouseUpWrapper_ g = Some "A" ->
            exists g1,
              dispose "A" false true g = Some g1 /\
              workspace (block g1 "A") = None /\
              dragMode_ g1 = 0%Z /\
              onMouseUpWrapper_ g1 = None /\
              mouseup release g1 = Some g1) as K.
  { intros g Hrun Hup.
    destruct (disposal_mid_drag_is_safe
                [Press "A" left_press; Move pull; Move move_to]
                (idle zoom1) g "A" false true
                (conj eq_refl eq_refl) Hrun Hup)
      as (g1 & E & W & _ & D & U & _ & R).
    exists g1. repeat (split; [assumption|]). apply (R release). }
  edestruct K as (g1 & H); [vm_compute; reflexivity | reflexivity |].
  exists g1. split; [vm_compute; reflexivity|].
  split; [reflexivity|]. exact H.
Defined.

End DragProps.

(** ** Deferred warning texts over whole runs *)

Module WarningProps.
Import Warning.

(** What happens to the warning machinery, one step at a time: a call of
    [setWarningText], a timeout of the window that fires, the drag mode
    that changes. *)
Inductive Op : Type :=
| SetWarningText (this : string) (text opt_id : option string)
| Fire (pid : nat)
| SetDragMode (mode : Z).

Definition set_dragMode_ (mode : Z) (st : State) : State :=
  mkState mode (pid_ st) (timeouts st) (fresh st) (blocks st) (calls st).

Definition step (st : State) (op : Op) : State :=
  match op with
  | SetWarningText this text opt_id => setWarningText this text opt_id st
  | Fire pid => fire pid st
  | SetDragMode mode => set_dragMode_ mode st
  end.

Definition run (ops : list Op) (st : State) : State := fold_left step ops st.

Lemma step_registered (st : State) (op : Op) :
  registered st -> registered (step st op).
Proof.
  destruct op as [this text opt_id|pid|mode]; cbn [step].
  - apply setWarningText_registered.
  - apply fire_registered.
  - intros H. exact H.
Qed.

Lemma run_registered (ops : list Op) (st : State) :
  registered st -> registered (run ops st).
Proof.
  revert st. induction ops as [|op ops IH]; intros st H; [exact H|].
  apply IH, step_registered, H.
Qed.

(** X24.  However calls of [setWarningText], firing timeouts and changes of
    the drag mode follow one another, at most one deferred update is ever
    outstanding for a block and a warning id. *)
Theorem at_most_one_pending (ops : list Op) (st : State) (this id : string) :
  registered st ->
  (length (outstanding this id (run ops st)) <= 1)%nat.
Proof.
  intros H. apply outstanding_at_most_one, run_registered, H.
Qed.

Lemma at_most_one_pending_witness :
  (length (outstanding "A" "w"
             (run [SetWarningText "A" (Some "first"%string) (Some "w"%string);
                   SetWarningText "A" (Some "second"%string) (Some "w"%string);
                   SetDragMode 0; Fire 1; Fire 2;
                   SetDragMode 2;
                   SetWarningText "A" None (Some "w"%string)] dragging))
   <= 1)%nat.
Proof.
  apply (at_most_one_pending _ dragging "A" "w").
  split; [simpl; lia|]. intros pid task Hl. simpl in Hl. discriminate.
Defined.

(** What the first half of [setWarningText] keeps of the timeouts was
    there before. *)
Lemma cancel_subset (table : gmap string nat) (ts : gmap nat Task)
    (id : string) (pid : nat) (task : Task) :
  snd (if String.eqb id "" then (∅ : gmap string nat, clear_all table ts)
       else
         match table !! id with
         | Some p =>
             if negb (Nat.eqb p 0) then (delete id table, delete p ts)
             else (table, ts)
         | None => (table, ts)
         end) !! pid = Some task ->
  ts !! pid = Some task.
Proof.
  destruct (String.eqb id ""); cbn [snd].
  - apply clear_all_subset.
  - destruct (table !! id) as [p|]; [|auto].
    destruct (negb (Nat.eqb p 0)); cbn [snd]; [|auto].
    intros H. now apply lookup_delete_Some in H as [_ H].
Qed.

Lemma setWarningText_deferred (this : string) (text opt_id : option string)
    (st : State) :
  dragMode_ st = 2%Z ->
  let st' := setWarningText this text opt_id st in
  blocks st' = blocks st /\ calls st' = calls st /\
  timeouts st' !! fresh st = Some (mkTask this text (default ""%string opt_id)).
Proof.
  intros Hmode st'. subst st'. unfold setWarningText.
  set (id := default ""%string opt_id).
  destruct (if String.eqb id "" then _ else _) as [table' pending].
  rewrite Hmode. cbn [Z.eqb Pos.eqb blocks calls timeouts].
  repeat split. apply lookup_insert_eq.
Qed.

(** X25.  During a free drag [setWarningText] touches no block and calls
    neither render nor bumpNeighbours: it leaves one deferred update for
    the block and the warning id, the one of this call, with the handle
    that [setTimeout] has just returned.  Of several calls during a drag
    only the latest is still to come. *)
Theorem setWarningText_latest_wins (this : string) (text opt_id : option string)
    (st : State) :
  registered st ->
  dragMode_ st = 2%Z ->
  let id := default ""%string opt_id in
  let st' := setWarningText this text opt_id st in
  blocks st' = blocks st /\
  calls st' = calls st /\
  outstanding this id st' = [(fresh st, mkTask this text id)].
Proof.
  intros Hreg Hmode id st'.
  pose proof (setWarningText_registered this text opt_id st Hreg) as Hreg'.
  pose proof (outstanding_at_most_one this id _ Hreg') as Hlen.
  fold st' in Hlen.
  destruct (setWarningText_deferred this text opt_id st Hmode)
    as (Hb & Hc & Hl).
  fold st' id in Hb, Hc, Hl.
  split; [exact Hb|]. split; [exact Hc|].
  assert ((fresh st, mkTask this text id) ∈ outstanding this id st') as Hin.
  { unfold outstanding. apply list_elem_of_filter. split; [now split|].
    now apply elem_of_map_to_list. }
  destruct (outstanding this id st') as [|x [|y l]]; cbn [length] in Hlen.
  - inversion Hin.
  - apply list_elem_of_singleton in Hin. now subst x.
  - lia.
Qed.

Lemma setWarningText_latest_wins_witness :
  let st1 := setWarningText "A" (Some "first"%string) (Some "w"%string) dragging in
  let st2 := setWarningText "A" (Some "second"%string) (Some "w"%string) st1 in
  blocks st2 = blocks st1 /\
  calls st2 = calls st1 /\
  outstanding "A" "w" st2 = [(2%nat, mkTask "A" (Some "second"%string) "w")].
Proof.
  apply (setWarningText_latest_wins "A" (Some "second"%string) (Some "w"%string)
           (setWarningText "A" (Some "first"%string) (Some "w"%string) dragging)).
  - apply setWarningText_registered.
    split; [simpl; lia|]. intros pid task Hl. simpl in Hl. discriminate.
  - reflexivity.
Defined.

(** X26.  Outside a free drag [setWarningText] schedules nothing: no handle
    is taken, and every timeout that is outstanding afterwards was
    outstanding before. *)
Theorem setWarningText_schedules_nothing (this : string)
    (text opt_id : option string) (st : State) :
  dragMode_ st <> 2%Z ->
  let st' := setWarningText this text opt_id st in
  fresh st' = fresh st /\
  forall pid task,
    timeouts st' !! pid = Some task -> timeouts st !! pid = Some task.
Proof.
  intros Hmode st'. subst st'. unfold setWarningText.
  set (id := default ""%string opt_id).
  set (table := default ∅ (pid_ st)).
  pose proof (cancel_subset table (timeouts st) id) as Hsub.
  destruct (if String.eqb id "" then _ else _) as [table' pending].
  cbn [snd] in Hsub.
  apply Z.eqb_neq in Hmode. rewrite Hmode.
  destruct (match (if isInFlyout _ then None else text) with
            | Some _ => _ | None => _ end) as [w changed].
  cbn [fresh timeouts]. split; [reflexivity | exact Hsub].
Qed.

Lemma setWarningText_schedules_nothing_witness :
  let st := end_drag (setWarningText "A" (Some "first"%string) (Some "w"%string) dragging) in
  let st' := setWarningText "B" (Some "second"%string) (Some "v"%string) st in
  fresh st' = fresh st /\
  forall pid task,
    timeouts st' !! pid = Some task -> timeouts st !! pid = Some task.
Proof.
  apply (setWarningText_schedules_nothing "B" (Some "second"%string)
           (Some "v"%string)
           (end_drag (setWarningText "A" (Some "first"%string)
                        (Some "w"%string) dragging))).
  discriminate.
Defined.

(** Outside a free drag, what a call does to the blocks depends on the
    blocks alone, not on the timeouts or on the table. *)
Lemma setWarningText_blocks_calls (this : string) (text opt_id : option string)
    (st st2 : State) :
  dragMode_ st <> 2%Z -> dragMode_ st2 <> 2%Z ->
  blocks st = blocks st2 -> calls st = calls st2 ->
  blocks (setWarningText this text opt_id st)
    = blocks (setWarningText this text opt_id st2) /\
  calls (setWarningText this text opt_id st)
    = calls (setWarningText this text opt_id st2).
Proof.
  intros M1 M2 Hb Hc. unfold setWarningText.
  set (id := default ""%string opt_id).
  apply Z.eqb_neq in M1, M2. rewrite M1, M2, Hb, Hc.
  destruct (if String.eqb id "" then _ else _) as [t1 p1].
  destruct (if String.eqb id "" then _ else _) as [t2 p2].
  destruct (match (if isInFlyout _ then None else text) with
            | Some _ => _ | None => _ end) as [w changed].
  split; reflexivity.
Qed.

(** X27.  Deferring is transparent to the block.  A call made during a free
    drag, followed once the drag is over by the firing of its timeout while
    the block is still in its workspace, leaves the blocks and the calls
    made on them as the same call made outside the drag would have. *)
Theorem deferred_update_applies (this : string) (text opt_id : option string)
    (st : State) :
  dragMode_ st = 2%Z ->
  workspace (blocks st !!! this) = true ->
  let deferred := fire (fresh st) (end_drag (setWarningText this text opt_id st)) in
  let direct := setWarningText this text opt_id (end_drag st) in
  blocks deferred = blocks direct /\ calls deferred = calls direct.
Proof.
  intros Hmode Hws deferred direct. subst deferred direct.
  destruct (setWarningText_deferred this text opt_id st Hmode)
    as (Hb & Hc & Hl).
  set (st1 := setWarningText this text opt_id st) in *.
  set (id := default ""%string opt_id) in *.
  unfold fire. cbn [timeouts end_drag]. rewrite Hl.
  change (blocks (end_drag st1)) with (blocks st1).
  change (calls (end_drag st1)) with (calls st1).
  change (dragMode_ (end_drag st1)) with 0%Z.
  cbn [task_block task_id task_text blocks]. rewrite Hb, Hc, Hws.
  assert (forall o, default ""%string (Some (default ""%string o))
                    = default ""%string o) as Hid by now intros [x|].
  assert (forall st0 : State,
            setWarningText this text (Some id) st0
            = setWarningText this text opt_id st0) as ->.
  { intros st0. unfold setWarningText. subst id. now rewrite Hid. }
  apply setWarningText_blocks_calls; cbn [dragMode_ blocks calls end_drag];
    first [ discriminate | reflexivity ].
Qed.

Lemma deferred_update_applies_witness :
  let deferred :=
    fire 1 (end_drag (setWarningText "A" (Some "first"%string) (Some "w"%string) dragging)) in
  let direct :=
    setWarningText "A" (Some "first"%string) (Some "w"%string) (end_drag dragging) in
  blocks deferred = blocks direct /\ calls deferred = calls direct.
Proof.
  apply (deferred_update_applies "A" (Some "first"%string) (Some "w"%string)
           dragging); reflexivity.
Defined.

End WarningProps.

(** ** The animations: wiggle, ripple and disposal *)

Module Animation.

Local Open Scope Q_scope.

(** The svg group of a block, as the wiggle sees it: [skew_] is [None] for
    the empty string and [Some k] for [skewX(k)]; the transform attribute
    is the translation followed by the skew. *)
Record Group : Type := mkGroup {
  translate_ : string;
  skew_ : option Q;
  transform : string * option Q
}.

Record Ripple : Type := mkRipple { r : Q; opacity : option Q }.

(** The clone that the disposal animates: where it started, its bounding
    box, and the translation and the scale of its transform attribute. *)
Record Clone : Type := mkClone {
  translateX_ : Q;
  translateY_ : Q;
  bBox_width : Q;
  bBox_height : Q;
  clone_transform : Q * Q * Q
}.

#[export] Instance Group_inhabited : Inhabited Group :=
  populate (mkGroup "" None ("", None)).
#[export] Instance Clone_inhabited : Inhabited Clone :=
  populate (mkClone 0 0 0 0 (0, 0, 0)).

(** The closures handed to [setTimeout], each with the arguments of the
    step it will call. *)
Inductive Closure : Type :=
| WiggleStep (group : string) (magnitude : Q) (start : Z)
| RippleStep (ripple : string) (start : Z) (workspaceScale : Q)
| DisposeStep (clone : string) (rtl : bool) (start : Z) (workspaceScale : Q).

(** [pid], [pid_] and [group] are the properties of the function
    [disconnectUiStop_]; [timeouts] holds the timeouts of the window that
    have neither fired nor been cleared, [fresh] is the handle that the
    next [setTimeout] returns. *)
Record State : Type := mkState {
  pid : nat;
  pid_ : option nat;
  group : option string;
  groups : gmap string Group;
  ripples : gmap string Ripple;
  clones : gmap string Clone;
  timeouts : gmap nat Closure;
  fresh : nat
}.

Definition setTimeout (c : Closure) (st : State) : nat * State :=
  (fresh st,
   mkState (pid st) (pid_ st) (group st) (groups st) (ripples st) (clones st)
     (<[fresh st := c]> (timeouts st)) (S (fresh st))).

Definition clearTimeout (p : nat) (st : State) : State :=
  mkState (pid st) (pid_ st) (group st) (groups st) (ripples st) (clones st)
    (delete p (timeouts st)) (fresh st).

Definition set_pid (p : nat) (st : State) : State :=
  mkState p (pid_ st) (group st) (groups st) (ripples st) (clones st)
    (timeouts st) (fresh st).

Definition set_pid_ (p : nat) (st : State) : State :=
  mkState (pid st) (Some p) (group st) (groups st) (ripples st) (clones st)
    (timeouts st) (fresh st).

Definition set_group (g : option string) (st : State) : State :=
  mkState (pid st) (pid_ st) g (groups st) (ripples st) (clones st)
    (timeouts st) (fresh st).

Definition set_groups (gs : gmap string Group) (st : State) : State :=
  mkState (pid st) (pid_ st) (group st) gs (ripples st) (clones st)
    (timeouts st) (fresh st).

Definition set_ripples (rs : gmap string Ripple) (st : State) : State :=
  mkState (pid st) (pid_ st) (group st) (groups st) rs (clones st)
    (timeouts st) (fresh st).

Definition set_clones (cs : gmap string Clone) (st : State) : State :=
  mkState (pid st) (pid_ st) (group st) (groups st) (ripples st) cs
    (timeouts st) (fresh st).

Definition DURATION : Z := 200.
Definition WIGGLES : Q := 3.

Section Steps.

(** [sin_pi x] stands for [Math.sin(x * Math.PI)]. *)
Variable sin_pi : Q -> Q.

(** [disconnectUiStep_], called when the clock reads [now]. *)
Definition disconnectUiStep_ (g : string) (magnitude : Q) (start now : Z)
    (st : State) : State :=
  let ms := (now - start)%Z in
  let percent := inject_Z ms / inject_Z DURATION in
  let grp := groups st !!! g in
  let '(skew, st) :=
    if Qlt_le_dec 1 percent then (None, st)
    else
      let skew :=
        Move.Math_round (sin_pi (percent * WIGGLES) * (1 - percent) * magnitude) in
      let st := set_group (Some g) st in
      let '(p, st) := setTimeout (WiggleStep g magnitude start) st in
      (Some skew, set_pid p st) in
  set_groups
    (<[g := mkGroup (translate_ grp) skew (translate_ grp, skew)]> (groups st))
    st.

(** [disconnectUiStop_]. *)
Definition disconnectUiStop_ (st : State) : State :=
  match group st with
  | Some g =>
      let st := clearTimeout (pid st) st in
      let grp := groups st !!! g in
      let st :=
        set_groups
          (<[g := mkGroup (translate_ grp) None (translate_ grp, None)]>
             (groups st)) st in
      set_group None st
  | None => st
  end.

(** [disconnectUiEffect], from the scale check on; the magnitude of the
    skew has been worked out from the height of the block, and the clock
    reads [start] and then [now]. *)
Definition disconnectUiEffect (g : string) (scale magnitude : Q)
    (start now : Z) (st : State) : State :=
  if Qlt_le_dec scale 1 then st      (* Too small to care about visual effects. *)
  else disconnectUiStep_ g magnitude start now st.

(** [connectionUiStep_]. *)
Definition connectionUiStep_ (ripple : string) (start : Z)
    (workspaceScale : Q) (now : Z) (st : State) : State :=
  let ms := (now - start)%Z in
  let percent := inject_Z ms / 150 in
  if Qlt_le_dec 1 percent then
    set_ripples (delete ripple (ripples st)) st
  else
    let st :=
      set_ripples
        (<[ripple := mkRipple (percent * 25 * workspaceScale)
                       (Some ((8 # 10) - percent))]> (ripples st)) st in
    let '(p, st) := setTimeout (RippleStep ripple start workspaceScale) st in
    set_pid_ p st.

(** [disposeUiStep_]. *)
Definition disposeUiStep_ (clone : string) (rtl : bool) (start : Z)
    (workspaceScale : Q) (now : Z) (st : State) : State :=
  let ms := (now - start)%Z in
  let percent := inject_Z ms / 150 in
  if Qlt_le_dec 1 percent then
    set_clones (delete clone (clones st)) st
  else
    let c := clones st !!! clone in
    let x :=
      translateX_ c
      + (if rtl then -1 else 1) * bBox_width c * workspaceScale / 2 * percent in
    let y := translateY_ c + bBox_height c * workspaceScale * percent in
    let scale := (1 - percent) * workspaceScale in
    let st :=
      set_clones
        (<[clone := mkClone (translateX_ c) (translateY_ c) (bBox_width c)
                      (bBox_height c) (x, y, scale)]> (clones st)) st in
    snd (setTimeout (DisposeStep clone rtl start workspaceScale) st).

(** [connectionUiEffect], from the scale check on: the ripple is created
    with radius 0 and the first step is taken at once. *)
Definition connectionUiEffect (ripple : string) (scale : Q) (start now : Z)
    (st : State) : State :=
  if Qlt_le_dec scale 1 then st      (* Too small to care about visual effects. *)
  else
    connectionUiStep_ ripple start scale now
      (set_ripples (<[ripple := mkRipple 0 None]> (ripples st)) st).

(** [disposeUiEffect], once the clone [c] of the svg group has been made
    and measured. *)
Definition disposeUiEffect (clone : string) (c : Clone) (rtl : bool)
    (scale : Q) (start now : Z) (st : State) : State :=
  disposeUiStep_ clone rtl start scale now
    (set_clones (<[clone := c]> (clones st)) st).

(** The timeout [p] fires when the clock reads [now]. *)
Definition fire (p : nat) (now : Z) (st : State) : State :=
  match timeouts st !! p with
  | None => st
  | Some c =>
      let st := clearTimeout p st in
      match c with
      | WiggleStep g magnitude start => disconnectUiStep_ g magnitude start now st
      | RippleStep ripple start scale => connectionUiStep_ ripple start scale now st
      | DisposeStep clone rtl start scale =>
          disposeUiStep_ clone rtl start scale now st
      end
  end.

(** What the handlers of the file and the window do to the animations:
    [terminateDrag_] stops the wiggle, the three effects start an
    animation each, and the timeouts of the window fire. *)
Inductive Op : Type :=
| Stop
| Disconnect (g : string) (scale magnitude : Q) (start now : Z)
| Connect (ripple : string) (workspaceScale : Q) (start now : Z)
| Dispose (clone : string) (c : Clone) (rtl : bool) (workspaceScale : Q)
    (start now : Z)
| Fire (p : nat) (now : Z).

Definition step (st : State) (op : Op) : State :=
  match op with
  | Stop => disconnectUiStop_ st
  | Disconnect g scale magnitude start now =>
      disconnectUiEffect g scale magnitude start now st
  | Connect ripple scale start now =>
      connectionUiEffect ripple scale start now st
  | Dispose clone c rtl scale start now =>
      disposeUiEffect clone c rtl scale start now st
  | Fire p now => fire p now st
  end.

Definition run (ops : list Op) (st : State) : State := fold_left step ops st.

End Steps.

(** The disconnect effect is played from [onMouseMove_] alone, in a
    session that [onMouseDown_] opened after [terminateDrag_] had stopped
    the wiggle: between two disconnect effects there is a stop. *)
Fixpoint stopped_between (stopped : bool) (ops : list Op) : bool :=
  match ops with
  | [] => true
  | Stop :: ops => stopped_between true ops
  | Disconnect _ _ _ _ _ :: ops => stopped && stopped_between false ops
  | _ :: ops => stopped_between stopped ops
  end.

Definition is_wiggle (c : Closure) : bool :=
  match c with WiggleStep _ _ _ => true | _ => false end.

(** No wiggle step is outstanding. *)
Definition still (st : State) : Prop :=
  forall p c, timeouts st !! p = Some c -> is_wiggle c = false.

(** Handles are below the next one, and the only wiggle step that may be
    outstanding is the one that [disconnectUiStop_] would clear, for the
    group that it would put straight. *)
Definition tracked (st : State) : Prop :=
  (pid st < fresh st)%nat /\
  (forall p c, timeouts st !! p = Some c -> (p < fresh st)%nat) /\
  (forall p g magnitude start,
     timeouts st !! p = Some (WiggleStep g magnitude start) ->
     p = pid st /\ group st = Some g) /\
  (forall c, timeouts st !! pid st = Some c -> is_wiggle c = true) /\
  (forall g grp, groups st !! g = Some grp -> skew_ grp <> None ->
                 group st = Some g).

(** The state between a stop and the next disconnect effect: no wiggle
    step is outstanding and no group is skewed. *)
Definition stopped_state (st : State) : Prop :=
  tracked st /\ still st /\ group st = None.

Definition start_of (c : Closure) : Z :=
  match c with
  | WiggleStep _ _ start | RippleStep _ start _ | DisposeStep _ _ start _ =>
      start
  end.

Definition duration (c : Closure) : Z :=
  match c with
  | WiggleStep _ _ _ => DURATION
  | RippleStep _ _ _ | DisposeStep _ _ _ _ => 150
  end.

(** The clock reads [now], and every outstanding step belongs to an
    animation whose time is up. *)
Definition overdue (now : Z) (st : State) : Prop :=
  map_Forall (fun _ c => (start_of c + duration c < now)%Z) (timeouts st).

(** Nothing is animated at first. *)
Definition at_rest : State :=
  mkState 0 None None
    (<["A" := mkGroup "translate(65,2)" None ("translate(65,2)", None)]> ∅)
    ∅ ∅ ∅ 1.

(** A wiggle of block A and a ripple run side by side; the press that
    follows stops the one and leaves the other. *)
Definition side_by_side : list Op :=
  [Stop; Disconnect "A" 1 (-12) 1000 1000; Connect "ripple" 1 1020 1020;
   Fire 1 1010; Fire 2 1030].

(** A flat sine, for the examples: what is proved below holds whatever
    the sine. *)
Definition sin_zero (x : Q) : Q := 0.

Lemma late_percent (start now d : Z) :
  (0 < d)%Z -> (start + d < now)%Z -> 1 < inject_Z (now - start) / inject_Z d.
Proof.
  intros Hd H. apply Qlt_shift_div_l.
  - change 0 with (inject_Z 0). rewrite <- Zlt_Qlt. exact Hd.
  - rewrite Qmult_1_l, <- Zlt_Qlt. lia.
Qed.

Section Steps_props.

Variable sin_pi : Q -> Q.

Lemma disconnectUiStep_tracked (g : string) (magnitude : Q) (start now : Z)
    (st : State) :
  tracked st -> still st -> group st = None \/ group st = Some g ->
  tracked (disconnectUiStep_ sin_pi g magnitude start now st).
Proof.
  intros (Hp & Hb & Hw & Hc & Hs) Hstill Hg. unfold disconnectUiStep_.
  cbv zeta. destruct (Qlt_le_dec _ _) as [Hlate|Hearly].
  - repeat apply conj;
      cbn [pid fresh timeouts group groups set_groups]; try assumption.
    intros g' grp Hl Hsk.
    destruct (decide (g = g')) as [<-|Hne].
    + rewrite lookup_insert_eq in Hl. injection Hl as <-. now cbn in Hsk.
    + rewrite lookup_insert_ne in Hl by assumption. eauto.
  - repeat apply conj;
      cbn [setTimeout set_pid set_group set_groups pid fresh timeouts group
           groups]; try lia.
    + intros p c Hl. destruct (decide (fresh st = p)) as [<-|Hne]; [lia|].
      rewrite lookup_insert_ne in Hl by assumption.
      specialize (Hb p c Hl). lia.
    + intros p g' m s Hl. destruct (decide (fresh st = p)) as [<-|Hne].
      * rewrite lookup_insert_eq in Hl. injection Hl as <- _ _. auto.
      * rewrite lookup_insert_ne in Hl by assumption.
        now apply Hstill in Hl.
    + intros c. rewrite lookup_insert_eq. now intros [= <-].
    + intros g' grp Hl Hsk.
      destruct (decide (g = g')) as [<-|Hne]; [reflexivity|].
      rewrite lookup_insert_ne in Hl by assumption.
      specialize (Hs g' grp Hl Hsk). destruct Hg; congruence.
Qed.

(** A step that adds nothing but a timeout which is no wiggle. *)
Lemma quiet_step_tracked (st : State) (c : Closure)
    (rs : gmap string Ripple) (cs : gmap string Clone) (q : option nat) :
  is_wiggle c = false ->
  tracked st ->
  tracked (mkState (pid st) q (group st) (groups st) rs cs
             (<[fresh st := c]> (timeouts st)) (S (fresh st))).
Proof.
  intros Hc (Hp & Hb & Hw & Hcur & Hs).
  repeat apply conj; cbn [pid fresh timeouts group groups]; try lia;
    try assumption.
  - intros p c' Hl. destruct (decide (fresh st = p)) as [<-|Hne]; [lia|].
    rewrite lookup_insert_ne in Hl by assumption.
    specialize (Hb p c' Hl). lia.
  - intros p g m s Hl. destruct (decide (fresh st = p)) as [<-|Hne].
    + rewrite lookup_insert_eq in Hl. injection Hl as ->. discriminate Hc.
    + rewrite lookup_insert_ne in Hl by assumption. eauto.
  - intros c'. rewrite lookup_insert_ne by lia. apply Hcur.
Qed.

Lemma quiet_step_still (st : State) (c : Closure)
    (rs : gmap string Ripple) (cs : gmap string Clone) (q : option nat) :
  is_wiggle c = false ->
  still st ->
  still (mkState (pid st) q (group st) (groups st) rs cs
           (<[fresh st := c]> (timeouts st)) (S (fresh st))).
Proof.
  intros Hc H p c' Hl. cbn [timeouts] in Hl.
  destruct (decide (fresh st = p)) as [<-|Hne].
  - rewrite lookup_insert_eq in Hl. now injection Hl as <-.
  - rewrite lookup_insert_ne in Hl by assumption. eauto.
Qed.

Lemma tracked_frame (st : State) (q : option nat)
    (rs : gmap string Ripple) (cs : gmap string Clone) :
  tracked st ->
  tracked (mkState (pid st) q (group st) (groups st) rs cs (timeouts st)
             (fresh st)).
Proof. intros H. exact H. Qed.

Lemma connectionUiStep_tracked (ripple : string) (start : Z) (scale : Q)
    (now : Z) (st : State) :
  tracked st -> tracked (connectionUiStep_ ripple start scale now st).
Proof.
  intros H. unfold connectionUiStep_. cbv zeta.
  destruct (Qlt_le_dec _ _); [exact H|].
  now apply (quiet_step_tracked st (RippleStep ripple start scale)).
Qed.

Lemma connectionUiStep_still (ripple : string) (start : Z) (scale : Q)
    (now : Z) (st : State) :
  still st -> still (connectionUiStep_ ripple start scale now st).
Proof.
  intros H. unfold connectionUiStep_. cbv zeta.
  destruct (Qlt_le_dec _ _); [exact H|].
  now apply (quiet_step_still st (RippleStep ripple start scale)).
Qed.

Lemma disposeUiStep_tracked (clone : string) (rtl : bool) (start : Z)
    (scale : Q) (now : Z) (st : State) :
  tracked st -> tracked (disposeUiStep_ clone rtl start scale now st).
Proof.
  intros H. unfold disposeUiStep_. cbv zeta.
  destruct (Qlt_le_dec _ _); [exact H|].
  now apply (quiet_step_tracked st (DisposeStep clone rtl start scale)).
Qed.

Lemma disposeUiStep_still (clone : string) (rtl : bool) (start : Z)
    (scale : Q) (now : Z) (st : State) :
  still st -> still (disposeUiStep_ clone rtl start scale now st).
Proof.
  intros H. unfold disposeUiStep_. cbv zeta.
  destruct (Qlt_le_dec _ _); [exact H|].
  now apply (quiet_step_still st (DisposeStep clone rtl start scale)).
Qed.

Lemma clearTimeout_tracked (p : nat) (st : State) :
  tracked st -> tracked (clearTimeout p st).
Proof.
  intros (Hp & Hb & Hw & Hc & Hs).
  repeat apply conj; cbn [clearTimeout pid fresh timeouts group groups];
    try assumption.
  - intros q c Hl. apply lookup_delete_Some in Hl as [_ Hl]. eauto.
  - intros q g m s Hl. apply lookup_delete_Some in Hl as [_ Hl]. eauto.
  - intros c Hl. apply lookup_delete_Some in Hl as [_ Hl]. eauto.
Qed.

Lemma clearTimeout_still (p : nat) (st : State) :
  still st -> still (clearTimeout p st).
Proof.
  intros H q c Hl. cbn [clearTimeout timeouts] in Hl.
  apply lookup_delete_Some in Hl as [_ Hl]. eauto.
Qed.

(** Once the tracked wiggle step is out of the way, none is left. *)
Lemma clearTimeout_pid_still (st : State) :
  tracked st -> still (clearTimeout (pid st) st).
Proof.
  intros (_ & _ & Hw & _) q c Hl. cbn [clearTimeout timeouts] in Hl.
  apply lookup_delete_Some in Hl as [Hne Hl].
  destruct c as [g m s| |]; [|reflexivity..].
  destruct (Hw q g m s Hl) as [E _]. congruence.
Qed.

Lemma disconnectUiStop_stopped (st : State) :
  tracked st ->
  stopped_state (disconnectUiStop_ st) /\
  forall g grp, groups (disconnectUiStop_ st) !! g = Some grp ->
                skew_ grp = None.
Proof.
  intros T. pose proof T as (Hp & Hb & Hw & Hc & Hs).
  unfold disconnectUiStop_. destruct (group st) as [g|] eqn:Hg.
  - cbv zeta. split; [split; [|split]|].
    + repeat apply conj;
        cbn [pid fresh timeouts group groups clearTimeout set_groups set_group];
        try assumption.
      * intros q c Hl. apply lookup_delete_Some in Hl as [_ Hl]. eauto.
      * intros q g' m s Hl. apply lookup_delete_Some in Hl as [Hne Hl].
        destruct (Hw q g' m s Hl) as [E _]. congruence.
      * intros c Hl. apply lookup_delete_Some in Hl as [Hne _]. congruence.
      * intros g' grp Hl Hsk. exfalso.
        destruct (decide (g = g')) as [<-|Hne].
        -- rewrite lookup_insert_eq in Hl. injection Hl as <-. now cbn in Hsk.
        -- rewrite lookup_insert_ne in Hl by assumption.
           specialize (Hs g' grp Hl Hsk). congruence.
    + intros q c Hl.
      cbn [timeouts clearTimeout set_groups set_group] in Hl.
      apply lookup_delete_Some in Hl as [Hne Hl].
      destruct c as [g' m s| |]; [|reflexivity..].
      destruct (Hw q g' m s Hl) as [E _]. congruence.
    + reflexivity.
    + intros g' grp Hl.
      cbn [groups clearTimeout set_groups set_group] in Hl.
      destruct (decide (g = g')) as [<-|Hne].
      * rewrite lookup_insert_eq in Hl. now injection Hl as <-.
      * rewrite lookup_insert_ne in Hl by assumption.
        destruct (skew_ grp) eqn:Hsk; [|reflexivity].
        specialize (Hs g' grp Hl). rewrite Hsk in Hs.
        specialize (Hs ltac:(discriminate)). congruence.
  - split; [split; [exact T|split; [|exact Hg]]|].
    + intros q c Hl. destruct c as [g' m s| |]; [|reflexivity..].
      destruct (Hw q g' m s Hl) as [_ E]. congruence.
    + intros g' grp Hl. destruct (skew_ grp) eqn:Hsk; [|reflexivity].
      specialize (Hs g' grp Hl). rewrite Hsk in Hs.
      specialize (Hs ltac:(discriminate)). congruence.
Qed.

Lemma fire_tracked (p : nat) (now : Z) (st : State) :
  tracked st -> tracked (fire sin_pi p now st).
Proof.
  intros T. unfold fire. destruct (timeouts st !! p) as [c|] eqn:Hl; [|exact T].
  destruct c as [g m s|rp s sc|cl rtl s sc].
  - pose proof T as (_ & _ & Hw & _). destruct (Hw p g m s Hl) as [-> Hg].
    apply disconnectUiStep_tracked.
    + now apply clearTimeout_tracked.
    + now apply clearTimeout_pid_still.
    + right. exact Hg.
  - now apply connectionUiStep_tracked, clearTimeout_tracked.
  - now apply disposeUiStep_tracked, clearTimeout_tracked.
Qed.

Lemma fire_stopped (p : nat) (now : Z) (st : State) :
  stopped_state st -> stopped_state (fire sin_pi p now st).
Proof.
  intros (T & S & G). split; [now apply fire_tracked|].
  unfold fire. destruct (timeouts st !! p) as [c|] eqn:Hl; [|auto].
  destruct c as [g m s|rp s sc|cl rtl s sc].
  - now apply S in Hl.
  - split; [now apply connectionUiStep_still, clearTimeout_still|].
    unfold connectionUiStep_. cbv zeta. now destruct (Qlt_le_dec _ _).
  - split; [now apply disposeUiStep_still, clearTimeout_still|].
    unfold disposeUiStep_. cbv zeta. now destruct (Qlt_le_dec _ _).
Qed.

(** Along a run in which a stop comes between any two disconnect effects
    the wiggle stays tracked, and it is stopped for as long as no
    disconnect effect has followed the last stop. *)
Lemma run_tracked (ops : list Op) (stopped : bool) (st : State) :
  stopped_between stopped ops = true ->
  tracked st -> (stopped = true -> stopped_state st) ->
  tracked (run sin_pi ops st).
Proof.
  revert stopped st. induction ops as [|op ops IH]; intros stopped st L T S;
    [exact T|].
  cbn [run fold_left]. fold (run sin_pi ops (step sin_pi st op)).
  destruct op as [|g sc m s now|rp sc s now|cl c rtl sc s now|p now];
    cbn [stopped_between step] in L |- *.
  - destruct (disconnectUiStop_stopped st T) as [S' _].
    apply (IH true); [exact L | apply S' | intros _; exact S'].
  - apply andb_true_iff in L as [-> L].
    destruct (S eq_refl) as (_ & St & G).
    apply (IH false); [exact L | | discriminate].
    unfold disconnectUiEffect. destruct (Qlt_le_dec sc 1); [exact T|].
    apply disconnectUiStep_tracked; auto.
  - unfold connectionUiEffect.
    destruct (Qlt_le_dec sc 1); [now apply (IH stopped)|].
    apply (IH stopped); [exact L | now apply connectionUiStep_tracked |].
    intros E. destruct (S E) as (_ & St & G).
    split; [now apply connectionUiStep_tracked|].
    split; [now apply connectionUiStep_still|].
    unfold connectionUiStep_. cbv zeta. now destruct (Qlt_le_dec _ _).
  - unfold disposeUiEffect.
    apply (IH stopped); [exact L | now apply disposeUiStep_tracked |].
    intros E. destruct (S E) as (_ & St & G).
    split; [now apply disposeUiStep_tracked|].
    split; [now apply disposeUiStep_still|].
    unfold disposeUiStep_. cbv zeta. now destruct (Qlt_le_dec _ _).
  - apply (IH stopped); [exact L | now apply fire_tracked |].
    intros E. now apply fire_stopped, S.
Qed.

(** X28.  [disconnectUiStop_] ends the wiggle and nothing else.  After a
    run of presses, effects and timeouts in which a stop comes between
    any two disconnect effects, a stop leaves no wiggle step outstanding
    and no group skewed, the wiggling group is forgotten, and every ripple
    step and disposal step that was outstanding still is: the handle that
    the ripple stores under [pid_] is not the one that the stop clears. *)
Theorem stop_ends_wiggle_only (ops : list Op) (st0 : State) :
  stopped_state st0 ->
  stopped_between true ops = true ->
  let st := run sin_pi ops st0 in
  let st' := disconnectUiStop_ st in
  still st' /\
  group st' = None /\
  (forall g grp, groups st' !! g = Some grp -> skew_ grp = None) /\
  (forall p c, timeouts st !! p = Some c -> is_wiggle c = false ->
               timeouts st' !! p = Some c).
Proof.
  intros S0 L st st'.
  assert (tracked st) as T
    by (apply (run_tracked ops true st0 L); [apply S0 | intros _; exact S0]).
  destruct (disconnectUiStop_stopped st T) as [(_ & St & G) Hsk].
  split; [exact St|]. split; [exact G|]. split; [exact Hsk|].
  intros p c Hl Hc. subst st'. unfold disconnectUiStop_.
  destruct (group st) as [g|]; [|exact Hl].
  cbn [clearTimeout set_groups set_group timeouts].
  rewrite lookup_delete_ne; [exact Hl|].
  intros E. destruct T as (_ & _ & _ & Hcur & _).
  rewrite E in Hcur. specialize (Hcur c Hl). congruence.
Qed.

Lemma fire_overdue (p : nat) (now : Z) (st : State) :
  overdue now st ->
  timeouts (fire sin_pi p now st) = delete p (timeouts st).
Proof.
  intros H. unfold fire. destruct (timeouts st !! p) as [c|] eqn:Hl.
  - specialize (H p c Hl).
    destruct c as [g m s|rp s sc|cl rtl s sc]; cbn [start_of duration] in H.
    + unfold disconnectUiStep_. cbv zeta.
      destruct (Qlt_le_dec _ _) as [_|Hearly]; [reflexivity|].
      exfalso. apply (Qle_not_lt _ _ Hearly).
      apply late_percent; [reflexivity | exact H].
    + unfold connectionUiStep_. cbv zeta.
      destruct (Qlt_le_dec _ _) as [_|Hearly]; [reflexivity|].
      exfalso. apply (Qle_not_lt _ _ Hearly).
      apply (late_percent s now 150); [reflexivity | exact H].
    + unfold disposeUiStep_. cbv zeta.
      destruct (Qlt_le_dec _ _) as [_|Hearly]; [reflexivity|].
      exfalso. apply (Qle_not_lt _ _ Hearly).
      apply (late_percent s now 150); [reflexivity | exact H].
  - symmetry. now apply delete_id.
Qed.

(** X29.  Every animation is over once its time is up.  When the wiggle has
    had its 200 ms, the ripple and the disposal their 150 ms, the steps
    that are outstanding fire for the last time: none of them asks for
    another timeout, and when each has fired nothing is left to come. *)
Theorem animations_end (now : Z) (st : State) :
  overdue now st ->
  timeouts
    (fold_left (fun st p => fire sin_pi p now st)
       (fst <$> map_to_list (timeouts st)) st) = ∅.
Proof.
  intros H.
  assert (forall p, is_Some (timeouts st !! p) ->
                    p ∈ (fst <$> map_to_list (timeouts st))) as Hall.
  { intros p [c Hl]. apply list_elem_of_fmap. exists (p, c).
    split; [reflexivity | now apply elem_of_map_to_list]. }
  revert H Hall. generalize (fst <$> map_to_list (timeouts st)) as l.
  intros l. revert st. induction l as [|p l IH]; intros st H Hall.
  - cbn [fold_left]. apply map_empty. intros p.
    destruct (timeouts st !! p) eqn:Hl; [|reflexivity].
    exfalso. specialize (Hall p (ex_intro _ _ Hl)). inversion Hall.
  - cbn [fold_left]. pose proof (fire_overdue p now st H) as Hf.
    apply IH.
    + intros q c Hl. rewrite Hf in Hl.
      apply lookup_delete_Some in Hl as [_ Hl]. eauto.
    + intros q [c Hl]. rewrite Hf in Hl.
      apply lookup_delete_Some in Hl as [Hne Hl].
      specialize (Hall q (ex_intro _ _ Hl)).
      apply elem_of_cons in Hall as [E|Hin]; [congruence | exact Hin].
Qed.

End Steps_props.

Lemma at_rest_stopped : stopped_state at_rest.
Proof.
  split; [|split; [|reflexivity]].
  - repeat apply conj; cbn [at_rest pid fresh timeouts group groups].
    + lia.
    + intros p c Hl. rewrite lookup_empty in Hl. discriminate.
    + intros p g m s Hl. rewrite lookup_empty in Hl. discriminate.
    + intros c Hl. rewrite lookup_empty in Hl. discriminate.
    + intros g grp Hl Hsk. exfalso.
      destruct (decide ("A"%string = g)) as [<-|Hne].
      * rewrite lookup_insert_eq in Hl. injection Hl as <-. now cbn in Hsk.
      * rewrite lookup_insert_ne, lookup_empty in Hl by assumption.
        discriminate.
  - intros p c Hl. cbn [at_rest timeouts] in Hl.
    rewrite lookup_empty in Hl. discriminate.
Qed.

Lemma stop_ends_wiggle_only_witness :
  let st := run sin_zero side_by_side at_rest in
  let st' := disconnectUiStop_ st in
  still st' /\
  group st' = None /\
  (forall g grp, groups st' !! g = Some grp -> skew_ grp = None) /\
  (forall p c, timeouts st !! p = Some c -> is_wiggle c = false ->
               timeouts st' !! p = Some c).
Proof.
  apply (stop_ends_wiggle_only sin_zero side_by_side at_rest).
  - exact at_rest_stopped.
  - reflexivity.
Defined.

Lemma animations_end_witness :
  let st :=
    run sin_zero [Stop; Disconnect "A" 1 (-12) 1000 1000;
                  Connect "ripple" 1 1020 1020] at_rest in
  timeouts
    (fold_left (fun st p => fire sin_zero p 1300 st)
       (fst <$> map_to_list (timeouts st)) st) = ∅.
Proof.
  apply (animations_end sin_zero 1300).
  unfold overdue. apply (bool_decide_unpack _). vm_compute. exact I.
Defined.

End Animation.

(** ** The text of a comment: [getCommentText] *)

From Equations Require Import Equations.

Module CommentText.

(** A string, as the sequence of its UTF-16 code units. *)
Definition Str : Type := list N.

Definition SPACE : N := 32.
Definition LF : N := 10.

(** The class [\s] of a regular expression: the white space and the line
    terminators of the language. *)
Definition is_space (c : N) : bool :=
  ((9 <=? c) && (c <=? 13) || (c =? 32) || (c =? 160) || (c =? 5760)
   || (8192 <=? c) && (c <=? 8202) || (c =? 8232) || (c =? 8233)
   || (c =? 8239) || (c =? 8287) || (c =? 12288) || (c =? 65279))%N.

(** [s.replace(/\s+$/, '')].  The search tries each place from the left;
    one or more blanks followed by the end of the input match at a place
    exactly when everything from there on is blank.  The first match is
    replaced by nothing, and there is no second one. *)
Fixpoint replace_trailing_blanks (s : Str) : Str :=
  match s with
  | [] => []
  | c :: s' => if forallb is_space s then [] else c :: replace_trailing_blanks s'
  end.

(** The match of [/ +\n/] at the head of the input, if there is one: one
    or more spaces and a line feed.  The result is what follows the
    match. *)
Fixpoint spaces_newline (s : Str) : option Str :=
  match s with
  | [] => None
  | c :: s' =>
      if (c =? SPACE)%N then
        match s' with
        | [] => None
        | d :: r => if (d =? LF)%N then Some r else spaces_newline s'
        end
      else None
  end.

Lemma spaces_newline_shorter (s r : Str) :
  spaces_newline s = Some r -> (length r < length s)%nat.
Proof.
  revert r. induction s as [|c s IH]; intros r; [discriminate|].
  cbn [spaces_newline]. destruct (c =? SPACE)%N; [|discriminate].
  destruct s as [|d s']; [discriminate|].
  destruct (d =? LF)%N.
  - intros [= <-]. cbn [length]. lia.
  - intros H. apply IH in H. cbn [length] in *. lia.
Qed.

Definition inspect {A : Type} (a : A) : {b : A | a = b} := exist _ a eq_refl.

(** [s.replace(/ +\n/g, '\n')].  The search goes from left to right; where
    the expression matches, a line feed is written and the search goes on
    after the match; elsewhere the code unit is copied. *)
Equations replace_spaces_newline (s : Str) : Str by wf (length s) lt :=
  replace_spaces_newline [] := [];
  replace_spaces_newline (c :: s') with inspect (spaces_newline (c :: s')) := {
    | exist _ (Some r) E => LF :: replace_spaces_newline r;
    | exist _ None E => c :: replace_spaces_newline s' }.
Next Obligation. exact (spaces_newline_shorter (c :: s') r E). Qed.

(** [getCommentText].  [comment] is the text of the comment icon, if the
    block has one. *)
Definition getCommentText (comment : option Str) : Str :=
  match comment with
  | Some text =>
      (* Trim off trailing whitespace. *)
      replace_spaces_newline (replace_trailing_blanks text)
  | None => []
  end.

(** A space stands right before a line feed somewhere in the text. *)
Fixpoint space_before_newline (s : Str) : bool :=
  match s with
  | c :: s' =>
      match s' with
      | d :: _ => (c =? SPACE)%N && (d =? LF)%N || space_before_newline s'
      | [] => false
      end
  | [] => false
  end.

(** The text does not end in a blank. *)
Definition ends_clean (s : Str) : Prop :=
  match last s with Some c => is_space c = false | None => True end.

(** "a  \n b \t\n" *)
Definition ragged : Str := [97; 32; 32; 10; 32; 98; 32; 9; 10]%N.

Lemma replace_spaces_newline_cons (c : N) (s' : Str) :
  replace_spaces_newline (c :: s') =
  match spaces_newline (c :: s') with
  | Some r => LF :: replace_spaces_newline r
  | None => c :: replace_spaces_newline s'
  end.
Proof.
  funelim (replace_spaces_newline (c :: s')); now rewrite E.
Qed.

Lemma Str_length_ind (P : Str -> Prop) :
  (forall s, (forall r, (length r < length s)%nat -> P r) -> P s) ->
  forall s, P s.
Proof.
  intros H s. remember (length s) as n eqn:Hn. revert s Hn.
  induction n as [n IH] using lt_wf_ind. intros s ->.
  apply H. intros r Hr. now apply (IH (length r)).
Qed.

Lemma replace_trailing_blanks_nil (s : Str) :
  replace_trailing_blanks s = [] -> forallb is_space s = true.
Proof.
  destruct s as [|c s]; [reflexivity|]. cbn [replace_trailing_blanks].
  now destruct (forallb is_space (c :: s)).
Qed.

Lemma replace_trailing_blanks_clean (s : Str) :
  ends_clean (replace_trailing_blanks s).
Proof.
  induction s as [|c s IH]; [exact I|]. cbn [replace_trailing_blanks].
  destruct (forallb is_space (c :: s)) eqn:F; [exact I|].
  unfold ends_clean in *. rewrite last_cons.
  destruct (replace_trailing_blanks s) as [|d t] eqn:R.
  - cbn [last]. apply replace_trailing_blanks_nil in R.
    cbn [forallb] in F. rewrite R, andb_true_r in F. exact F.
  - destruct (last (d :: t)) eqn:L; [exact IH|].
    now apply last_None in L.
Qed.

Lemma ends_clean_not_blank (s : Str) :
  ends_clean s -> s <> [] -> forallb is_space s = false.
Proof.
  induction s as [|c s IH]; [congruence|]. intros H _.
  unfold ends_clean in *. rewrite last_cons in H. cbn [forallb].
  destruct s as [|d t].
  - cbn [last] in H. now rewrite H.
  - destruct (last (d :: t)) eqn:L; [|now apply last_None in L].
    rewrite IH; [apply andb_false_r | exact H | discriminate].
Qed.

Lemma ends_clean_tail (c : N) (s : Str) :
  ends_clean (c :: s) -> ends_clean s.
Proof.
  unfold ends_clean. rewrite last_cons.
  now destruct (last s).
Qed.

Lemma replace_trailing_blanks_fix (s : Str) :
  ends_clean s -> replace_trailing_blanks s = s.
Proof.
  induction s as [|c s IH]; [reflexivity|]. intros H.
  cbn [replace_trailing_blanks].
  rewrite (ends_clean_not_blank (c :: s) H) by discriminate.
  f_equal. apply IH. now apply ends_clean_tail in H.
Qed.

Lemma is_space_LF : is_space LF = true.
Proof. reflexivity. Qed.

(** A match is a run of spaces and a line feed. *)
Lemma spaces_newline_shape (s r : Str) :
  spaces_newline s = Some r ->
  exists n, s = repeat SPACE (S n) ++ LF :: r.
Proof.
  revert r. induction s as [|c s IH]; intros r; [discriminate|].
  cbn [spaces_newline]. destruct (N.eqb_spec c SPACE) as [->|]; [|discriminate].
  destruct s as [|d s']; [discriminate|].
  destruct (N.eqb_spec d LF) as [->|].
  - intros [= <-]. now exists 0%nat.
  - intros H. destruct (IH r H) as [m E]. exists (S m).
    rewrite E. reflexivity.
Qed.

Lemma spaces_newline_seen (s r : Str) :
  spaces_newline s = Some r -> space_before_newline s = true.
Proof.
  revert r. induction s as [|c s IH]; intros r; [discriminate|].
  cbn [spaces_newline space_before_newline].
  destruct (N.eqb_spec c SPACE) as [->|]; [|discriminate].
  destruct s as [|d s']; [discriminate|].
  destruct (N.eqb_spec d LF) as [->|]; [reflexivity|].
  intros H. rewrite (IH r H). apply orb_true_r.
Qed.

Lemma spaces_newline_step (e : N) (s : Str) :
  spaces_newline (SPACE :: e :: s) = None ->
  e <> LF /\ spaces_newline (e :: s) = None.
Proof.
  change (spaces_newline (SPACE :: e :: s))
    with (if (e =? LF)%N then Some s else spaces_newline (e :: s)).
  destruct (N.eqb_spec e LF); [discriminate|]. auto.
Qed.

Lemma replace_spaces_newline_nil (s : Str) :
  replace_spaces_newline s = [] -> s = [].
Proof.
  destruct s as [|c s]; [reflexivity|].
  rewrite replace_spaces_newline_cons.
  now destruct (spaces_newline (c :: s)).
Qed.

Lemma replace_spaces_newline_clean (s : Str) :
  ends_clean s -> ends_clean (replace_spaces_newline s).
Proof.
  induction s as [s IH] using Str_length_ind. intros H.
  destruct s as [|c s']; [exact I|].
  rewrite replace_spaces_newline_cons.
  destruct (spaces_newline (c :: s')) as [r|] eqn:E.
  - pose proof (spaces_newline_shorter _ _ E) as Hlt.
    destruct (spaces_newline_shape _ _ E) as [n Es].
    assert (r <> [] /\ ends_clean r) as [Hne Hr].
    { unfold ends_clean in H |- *. rewrite Es, last_app, last_cons in H.
      destruct r as [|d t]; [cbn [last] in H; now rewrite is_space_LF in H|].
      split; [discriminate|].
      destruct (last (d :: t)) eqn:L; [exact H|now apply last_None in L]. }
    specialize (IH r Hlt Hr). unfold ends_clean in IH |- *.
    rewrite last_cons.
    destruct (last (replace_spaces_newline r)) eqn:L; [exact IH|].
    apply last_None, replace_spaces_newline_nil in L. contradiction.
  - assert (ends_clean (replace_spaces_newline s')) as IH'.
    { apply IH; [cbn [length]; lia | now apply ends_clean_tail in H]. }
    unfold ends_clean in H, IH' |- *. rewrite last_cons in H |- *.
    destruct (last (replace_spaces_newline s')) eqn:L; [exact IH'|].
    apply last_None, replace_spaces_newline_nil in L. subst s'.
    exact H.
Qed.

Lemma replace_spaces_newline_none (s : Str) :
  space_before_newline (replace_spaces_newline s) = false.
Proof.
  induction s as [s IH] using Str_length_ind.
  destruct s as [|c s']; [reflexivity|].
  rewrite replace_spaces_newline_cons.
  destruct (spaces_newline (c :: s')) as [r|] eqn:E.
  - pose proof (spaces_newline_shorter _ _ E) as Hlt.
    specialize (IH r Hlt). cbn [space_before_newline].
    destruct (replace_spaces_newline r); [reflexivity|].
    rewrite IH. reflexivity.
  - assert (space_before_newline (replace_spaces_newline s') = false) as IH'
      by (apply IH; cbn [length]; lia).
    cbn [space_before_newline].
    destruct (replace_spaces_newline s') as [|d t] eqn:R; [reflexivity|].
    rewrite IH', orb_false_r.
    destruct (N.eqb_spec c SPACE) as [->|]; [|reflexivity].
    destruct (N.eqb_spec d LF) as [->|]; [|reflexivity].
    exfalso. destruct s' as [|e s'']; [discriminate R|].
    rewrite replace_spaces_newline_cons in R.
    destruct (spaces_newline_step _ _ E) as [Hne E'].
    rewrite E' in R. injection R as -> _. contradiction.
Qed.

Lemma replace_spaces_newline_fix (s : Str) :
  space_before_newline s = false -> replace_spaces_newline s = s.
Proof.
  induction s as [|c s IH]; [reflexivity|]. intros H.
  rewrite replace_spaces_newline_cons.
  destruct (spaces_newline (c :: s)) as [r|] eqn:E.
  - apply spaces_newline_seen in E. congruence.
  - f_equal. apply IH. cbn [space_before_newline] in H.
    destruct s as [|d t]; [reflexivity|].
    now apply orb_false_elim in H as [_ H].
Qed.

(** X30.  The text that [getCommentText] returns does not end in white
    space and has no space right before a line feed, and it is a text that
    [getCommentText] leaves as it is: trimming what has been trimmed
    changes nothing. *)
Theorem getCommentText_trimmed (comment : option Str) :
  let text := getCommentText comment in
  ends_clean text /\
  space_before_newline text = false /\
  getCommentText (Some text) = text.
Proof.
  intros text.
  assert (ends_clean text) as Hc.
  { subst text. destruct comment as [t|]; [|exact I].
    apply replace_spaces_newline_clean, replace_trailing_blanks_clean. }
  assert (space_before_newline text = false) as Hn.
  { subst text. destruct comment as [t|]; [|reflexivity].
    apply replace_spaces_newline_none. }
  split; [exact Hc|]. split; [exact Hn|].
  cbn [getCommentText].
  now rewrite (replace_trailing_blanks_fix text Hc),
              (replace_spaces_newline_fix text Hn).
Qed.

(** "a  \n b \t\n" comes out as "a\n b". *)
Example getCommentText_ragged :
  getCommentText (Some ragged) = [97; 10; 32; 98]%N.
Proof.
  unfold getCommentText, ragged. cbn [replace_trailing_blanks forallb].
  cbn. now repeat (rewrite replace_spaces_newline_cons; cbn).
Qed.

End CommentText.
